(** * The Gazebo [Simulator]: control state, render loop and physics loop

    A shallow embedding of [Simulator.cc] (the top level managing object of
    the Gazebo server).  The simulator owns the simulation clock
    ([simTime], [pauseTime], [startTime]), the control flags ([pause],
    [stepInc], [userQuit], the subsystem switches, the [timeout]) and runs
    two loops: [MainLoop] on the primary thread and [PhysicsLoop] on a
    worker thread.

    Conventions of the embedding.
    - A C++ [double] is a binary64 primitive float.
    - The [Time] class is declared in [Time.hh], which is not part of the
      translated sources; its representation and operators are taken as a
      parameter ([TimeClass]).  [NsTime] is one concrete instance, used to
      evaluate the model on concrete inputs.
    - The wall clock is an oracle [wall : nat -> Time]: the [n]-th call of
      [GetWallTime] returns [wall n].  The machine counts the calls, and
      logs for each call how many collaborator calls had been made by then,
      so that a clock read has a place among the calls.
    - Calls into the collaborators (World, Gui, OgreAdaptor, XMLConfig, the
      mutexes, [nanosleep]) are recorded, in program order, in an event
      trace.  The collaborators do not write the private members of the
      simulator.
    - A method body is a computation in the state monad [M] over the
      [Machine] (simulator members, clock reads so far, trace so far, clock
      log).
    - A [while] loop is unrolled by a fuel argument that bounds the number
      of iterations; one iteration is a function of its own.
    - Each loop is modelled on its own thread.  What the other threads do
      is given in three ways: as an operation ([Op]) applied between two
      passes; for the physics loop, as an [Interference], which acts at the
      places of one pass where the loop holds no mutex
      ([PhysicsLoop_body_with]); for the main loop, as the actions made
      before each test of the loop ([MainLoop_with]).
    - In [Load], every collaborator call may throw a [GazeboError]
      ([LoadEnv]); the calls of [Close], the getter [GetRootNode] and the
      singleton accessors are taken not to throw.
    - The destructor, [Save] (which only writes a file) and
      [GetGazeboConfig] are not modelled. *)

From Stdlib Require Import ZArith Floats Bool List Lia.
Import ListNotations.

Set Implicit Arguments.

(** ** Time *)

(** The operations of the [Time] class that [Simulator.cc] uses:
    conversion from [double], the public fields [sec] and [nsec], [+], [-],
    [<] and [>]. *)
Class TimeClass : Type := {
  Time : Type;
  Time_of_double : float -> Time;
  Time_sec : Time -> Z;
  Time_nsec : Time -> Z;
  Time_add : Time -> Time -> Time;
  Time_sub : Time -> Time -> Time;
  Time_ltb : Time -> Time -> bool;
  Time_gtb : Time -> Time -> bool
}.

Declare Scope time_scope.
Delimit Scope time_scope with time.
Infix "+" := Time_add : time_scope.
Infix "-" := Time_sub : time_scope.
Infix "<?" := Time_ltb : time_scope.
Infix ">?" := Time_gtb : time_scope.

(** A concrete instance: a time is a signed count of nanoseconds. *)
Module NsTime.

Definition giga : Z := 1000000000.

(** Nearest count of nanoseconds of a finite double; [0] for infinities
    and NaN. *)
Definition of_double (d : float) : Z :=
  match Prim2SF d with
  | S754_finite s m e =>
      let v :=
        if (0 <=? e)%Z then (Zpos m * 2 ^ e * giga)%Z
        else ((2 * Zpos m * giga + 2 ^ (- e)) / (2 * 2 ^ (- e)))%Z in
      if s then (- v)%Z else v
  | _ => 0%Z
  end.

#[export] Instance ops : TimeClass := {|
  Time := Z;
  Time_of_double := of_double;
  Time_sec := fun t => Z.div t giga;
  Time_nsec := fun t => Z.modulo t giga;
  Time_add := Z.add;
  Time_sub := Z.sub;
  Time_ltb := Z.ltb;
  Time_gtb := Z.gtb
|}.

End NsTime.

(** ** Entities *)

(** An [Entity*] is [NULL] or the address of an entity. *)
Definition ptr : Type := positive.
Definition EntityPtr : Type := option ptr.
Definition NULL : EntityPtr := None.

(** What the simulator asks of the entity it points to: whether
    [dynamic_cast<Model*>] and [dynamic_cast<Body*>] succeed on it, and its
    [GetParent()]. *)
Record EntityHeap : Type := {
  is_Model : ptr -> bool;
  is_Body : ptr -> bool;
  GetParent : ptr -> EntityPtr
}.

(** [dynamic_cast] of a null pointer is null. *)
Definition dynamic_cast (is_T : ptr -> bool) (entity : EntityPtr) : EntityPtr :=
  match entity with
  | None => NULL
  | Some e => if is_T e then Some e else NULL
  end.

(** How a call ends: it returns, it dereferences a null pointer, or it is
    still looping when the fuel runs out. *)
Inductive Outcome (A : Type) : Type :=
  | Returns (a : A)
  | NullDeref
  | OutOfFuel.
Arguments NullDeref {A}.
Arguments OutOfFuel {A}.

(** The [do { ... } while (model == NULL)] loop shared by [GetParentModel]
    and [GetParentBody]; [visited] collects the entities whose [GetParent]
    was called. *)
Fixpoint parent_loop (h : EntityHeap) (is_T : ptr -> bool) (fuel : nat)
    (entity : EntityPtr) (visited : list ptr) : Outcome EntityPtr * list ptr :=
  match fuel with
  | O => (OutOfFuel, visited)
  | S fuel' =>
      let model := dynamic_cast is_T entity in
      match entity with
      | None => (NullDeref, visited)
      | Some e =>
          let entity' := GetParent h e in
          match model with
          | None => parent_loop h is_T fuel' entity' (visited ++ [e])
          | Some _ => (Returns model, visited ++ [e])
          end
      end
  end.

Definition GetParentModel (h : EntityHeap) (fuel : nat) (entity : EntityPtr)
    : Outcome EntityPtr * list ptr :=
  match entity with
  | None => (Returns NULL, [])
  | Some _ => parent_loop h (is_Model h) fuel entity []
  end.

Definition GetParentBody (h : EntityHeap) (fuel : nat) (entity : EntityPtr)
    : Outcome EntityPtr * list ptr :=
  match entity with
  | None => (Returns NULL, [])
  | Some _ => parent_loop h (is_Body h) fuel entity []
  end.

(** The [k]-th entity of the parent chain of [e] ([e] itself for [k = 0]). *)
Fixpoint ancestor (h : EntityHeap) (k : nat) (e : ptr) : EntityPtr :=
  match k with
  | O => Some e
  | S k' =>
      match GetParent h e with
      | None => None
      | Some p => ancestor h k' p
      end
  end.

(** ** Events *)

Inductive Mutex : Type := MRMutex | MDMutex.

(** The two tuples that [Load] reads from the gui node of the world
    file. *)
Inductive TupleKey : Type := KeySize | KeyPos.

Record timespec : Type := { tv_sec : Z; tv_nsec : Z }.

Inductive Event : Type :=
  | EvLock (m : Mutex)
  | EvUnlock (m : Mutex)
  | EvPauseSignal (p : bool)
  | EvNanosleep (req : timespec)
  | EvWorldUpdate
  | EvWorldUpdateSimulationIface
  | EvWorldGraphicsUpdate
  | EvWorldProcessEntitiesToLoad
  | EvWorldProcessEntitiesToDelete
  | EvWorldLoad
  | EvWorldInit
  | EvWorldFini
  | EvWorldClose
  | EvPhysicsInitForThread
  | EvGuiNew
  | EvGuiLoad
  | EvGuiCreateCameras
  | EvGuiInit
  | EvGuiUpdate
  | EvOgreLoad
  | EvOgreInit
  | EvOgreUpdateCameras
  | EvOgreClose
  | EvXMLLoad
  | EvXMLGetChild
  | EvXMLGetTupleInt (key : TupleKey) (index : nat)
  | EvMessageLoad
  | EvConfigLoad
  | EvShowSelectionBox (e : ptr) (b : bool)
  | EvSetSelected (e : ptr) (b : bool)
  | EvThreadStart
  | EvThreadJoin.

(** ** The simulator *)

Inductive State : Type := LOAD | INIT | RUN.

Inductive LoopStatus : Type := Running | Exited.

(** The collaborator calls that [Load] makes after closing, in the order
    of the source. *)
Inductive LoadCall : Type :=
  | CallXMLLoad
  | CallMessageLoad
  | CallConfigLoad
  | CallOgreLoad
  | CallGetChild
  | CallGetTupleInt (key : TupleKey) (index : nat)
  | CallGuiNew
  | CallGuiLoad
  | CallGuiCreateCameras
  | CallOgreInit
  | CallGuiInit
  | CallWorldLoad.

Definition event_of (c : LoadCall) : Event :=
  match c with
  | CallXMLLoad => EvXMLLoad
  | CallMessageLoad => EvMessageLoad
  | CallConfigLoad => EvConfigLoad
  | CallOgreLoad => EvOgreLoad
  | CallGetChild => EvXMLGetChild
  | CallGetTupleInt key index => EvXMLGetTupleInt key index
  | CallGuiNew => EvGuiNew
  | CallGuiLoad => EvGuiLoad
  | CallGuiCreateCameras => EvGuiCreateCameras
  | CallOgreInit => EvOgreInit
  | CallGuiInit => EvGuiInit
  | CallWorldLoad => EvWorldLoad
  end.

(** The failures that leave [Load] and [Init]: the five that a [catch]
    block of [Load] rethrows, the one of [Init], and a [GazeboError] that a
    call outside every [try] block throws, which leaves [Load] as it was
    thrown. *)
Inductive GazeboError : Type :=
  | XMLConfigError
  | GazeboConfigError
  | GuiError
  | RenderEngineError
  | WorldLoadError
  | WorldInitError
  | Uncaught (c : LoadCall).

(** What the collaborators answer during one [Load]: whether the world
    file has a gui node, and which calls throw a [GazeboError]. *)
Record LoadEnv : Type := {
  gui_child : bool;
  throws : LoadCall -> bool
}.

Section Simulator.

Context {TC : TimeClass}.
Local Open Scope time_scope.

(** The members of [Simulator].  An owned pointer ([xmlFile], [gui],
    [renderEngine], [gazeboConfig]) is kept as the flag "is not NULL".
    [state] has no initialiser in the constructor: [None] until the first
    assignment.  [physicsThread] has none either; it is kept as the flag
    "holds a thread that [MainLoop] created", [false] until then.  The counters [physicsUpdates], [checkpoint] and
    [renderUpdates] are initialised and never used again in this file; they
    are left out. *)
Record Simulator : Type := mkSimulator {
  xmlFile : bool;
  gui : bool;
  renderEngine : bool;
  gazeboConfig : bool;
  loaded : bool;
  pause : bool;
  simTime : Time;
  pauseTime : Time;
  startTime : Time;
  stepInc : bool;
  userQuit : bool;
  guiEnabled : bool;
  renderEngineEnabled : bool;
  physicsEnabled : bool;
  timeout : float;
  selectedEntity : EntityPtr;
  selectedBody : EntityPtr;
  state : option State;
  physicsThread : bool
}.

Definition set_xmlFile (v : bool) (s : Simulator) : Simulator :=
  mkSimulator v (gui s) (renderEngine s) (gazeboConfig s) (loaded s) (pause s)
    (simTime s) (pauseTime s) (startTime s) (stepInc s) (userQuit s)
    (guiEnabled s) (renderEngineEnabled s) (physicsEnabled s) (timeout s)
    (selectedEntity s) (selectedBody s) (state s) (physicsThread s).

Definition set_gui (v : bool) (s : Simulator) : Simulator :=
  mkSimulator (xmlFile s) v (renderEngine s) (gazeboConfig s) (loaded s) (pause s)
    (simTime s) (pauseTime s) (startTime s) (stepInc s) (userQuit s)
    (guiEnabled s) (renderEngineEnabled s) (physicsEnabled s) (timeout s)
    (selectedEntity s) (selectedBody s) (state s) (physicsThread s).

Definition set_renderEngine (v : bool) (s : Simulator) : Simulator :=
  mkSimulator (xmlFile s) (gui s) v (gazeboConfig s) (loaded s) (pause s)
    (simTime s) (pauseTime s) (startTime s) (stepInc s) (userQuit s)
    (guiEnabled s) (renderEngineEnabled s) (physicsEnabled s) (timeout s)
    (selectedEntity s) (selectedBody s) (state s) (physicsThread s).

Definition set_gazeboConfig (v : bool) (s : Simulator) : Simulator :=
  mkSimulator (xmlFile s) (gui s) (renderEngine s) v (loaded s) (pause s)
    (simTime s) (pauseTime s) (startTime s) (stepInc s) (userQuit s)
    (guiEnabled s) (renderEngineEnabled s) (physicsEnabled s) (timeout s)
    (selectedEntity s) (selectedBody s) (state s) (physicsThread s).

Definition set_loaded (v : bool) (s : Simulator) : Simulator :=
  mkSimulator (xmlFile s) (gui s) (renderEngine s) (gazeboConfig s) v (pause s)
    (simTime s) (pauseTime s) (startTime s) (stepInc s) (userQuit s)
    (guiEnabled s) (renderEngineEnabled s) (physicsEnabled s) (timeout s)
    (selectedEntity s) (selectedBody s) (state s) (physicsThread s).

Definition set_pause (v : bool) (s : Simulator) : Simulator :=
  mkSimulator (xmlFile s) (gui s) (renderEngine s) (gazeboConfig s) (loaded s) v
    (simTime s) (pauseTime s) (startTime s) (stepInc s) (userQuit s)
    (guiEnabled s) (renderEngineEnabled s) (physicsEnabled s) (timeout s)
    (selectedEntity s) (selectedBody s) (state s) (physicsThread s).

Definition set_simTime (v : Time) (s : Simulator) : Simulator :=
  mkSimulator (xmlFile s) (gui s) (renderEngine s) (gazeboConfig s) (loaded s)
    (pause s) v (pauseTime s) (startTime s) (stepInc s) (userQuit s)
    (guiEnabled s) (renderEngineEnabled s) (physicsEnabled s) (timeout s)
    (selectedEntity s) (selectedBody s) (state s) (physicsThread s).

Definition set_pauseTime (v : Time) (s : Simulator) : Simulator :=
  mkSimulator (xmlFile s) (gui s) (renderEngine s) (gazeboConfig s) (loaded s)
    (pause s) (simTime s) v (startTime s) (stepInc s) (userQuit s)
    (guiEnabled s) (renderEngineEnabled s) (physicsEnabled s) (timeout s)
    (selectedEntity s) (selectedBody s) (state s) (physicsThread s).

Definition set_startTime (v : Time) (s : Simulator) : Simulator :=
  mkSimulator (xmlFile s) (gui s) (renderEngine s) (gazeboConfig s) (loaded s)
    (pause s) (simTime s) (pauseTime s) v (stepInc s) (userQuit s)
    (guiEnabled s) (renderEngineEnabled s) (physicsEnabled s) (timeout s)
    (selectedEntity s) (selectedBody s) (state s) (physicsThread s).

Definition set_stepInc (v : bool) (s : Simulator) : Simulator :=
  mkSimulator (xmlFile s) (gui s) (renderEngine s) (gazeboConfig s) (loaded s)
    (pause s) (simTime s) (pauseTime s) (startTime s) v (userQuit s)
    (guiEnabled s) (renderEngineEnabled s) (physicsEnabled s) (timeout s)
    (selectedEntity s) (selectedBody s) (state s) (physicsThread s).

Definition set_userQuit (v : bool) (s : Simulator) : Simulator :=
  mkSimulator (xmlFile s) (gui s) (renderEngine s) (gazeboConfig s) (loaded s)
    (pause s) (simTime s) (pauseTime s) (startTime s) (stepInc s) v
    (guiEnabled s) (renderEngineEnabled s) (physicsEnabled s) (timeout s)
    (selectedEntity s) (selectedBody s) (state s) (physicsThread s).

Definition set_guiEnabled (v : bool) (s : Simulator) : Simulator :=
  mkSimulator (xmlFile s) (gui s) (renderEngine s) (gazeboConfig s) (loaded s)
    (pause s) (simTime s) (pauseTime s) (startTime s) (stepInc s) (userQuit s)
    v (renderEngineEnabled s) (physicsEnabled s) (timeout s)
    (selectedEntity s) (selectedBody s) (state s) (physicsThread s).

Definition set_renderEngineEnabled (v : bool) (s : Simulator) : Simulator :=
  mkSimulator (xmlFile s) (gui s) (renderEngine s) (gazeboConfig s) (loaded s)
    (pause s) (simTime s) (pauseTime s) (startTime s) (stepInc s) (userQuit s)
    (guiEnabled s) v (physicsEnabled s) (timeout s)
    (selectedEntity s) (selectedBody s) (state s) (physicsThread s).

Definition set_physicsEnabled (v : bool) (s : Simulator) : Simulator :=
  mkSimulator (xmlFile s) (gui s) (renderEngine s) (gazeboConfig s) (loaded s)
    (pause s) (simTime s) (pauseTime s) (startTime s) (stepInc s) (userQuit s)
    (guiEnabled s) (renderEngineEnabled s) v (timeout s)
    (selectedEntity s) (selectedBody s) (state s) (physicsThread s).

Definition set_timeout (v : float) (s : Simulator) : Simulator :=
  mkSimulator (xmlFile s) (gui s) (renderEngine s) (gazeboConfig s) (loaded s)
    (pause s) (simTime s) (pauseTime s) (startTime s) (stepInc s) (userQuit s)
    (guiEnabled s) (renderEngineEnabled s) (physicsEnabled s) v
    (selectedEntity s) (selectedBody s) (state s) (physicsThread s).

Definition set_selectedEntity (v : EntityPtr) (s : Simulator) : Simulator :=
  mkSimulator (xmlFile s) (gui s) (renderEngine s) (gazeboConfig s) (loaded s)
    (pause s) (simTime s) (pauseTime s) (startTime s) (stepInc s) (userQuit s)
    (guiEnabled s) (renderEngineEnabled s) (physicsEnabled s) (timeout s)
    v (selectedBody s) (state s) (physicsThread s).

Definition set_state (v : State) (s : Simulator) : Simulator :=
  mkSimulator (xmlFile s) (gui s) (renderEngine s) (gazeboConfig s) (loaded s)
    (pause s) (simTime s) (pauseTime s) (startTime s) (stepInc s) (userQuit s)
    (guiEnabled s) (renderEngineEnabled s) (physicsEnabled s) (timeout s)
    (selectedEntity s) (selectedBody s) (Some v) (physicsThread s).

Definition set_physicsThread (v : bool) (s : Simulator) : Simulator :=
  mkSimulator (xmlFile s) (gui s) (renderEngine s) (gazeboConfig s) (loaded s)
    (pause s) (simTime s) (pauseTime s) (startTime s) (stepInc s) (userQuit s)
    (guiEnabled s) (renderEngineEnabled s) (physicsEnabled s) (timeout s)
    (selectedEntity s) (selectedBody s) (state s) v.

(** *** The machine and its monad *)

(** [ticks] counts the clock reads and [trace] lists the collaborator
    calls.  [clock_log] places the reads among the calls: the entry [(k, n)]
    says that read number [k] (whose value is [wall k]) was made when [n]
    calls had been made. *)
Record Machine : Type := mkMachine {
  sim : Simulator;
  ticks : nat;
  trace : list Event;
  clock_log : list (nat * nat)
}.

Definition M (A : Type) : Type := Machine -> A * Machine.

Definition ret {A : Type} (a : A) : M A := fun m => (a, m).

Definition bind {A B : Type} (c : M A) (k : A -> M B) : M B :=
  fun m => let (a, m') := c m in k a m'.

Definition this : M Simulator := fun m => (sim m, m).

Definition assign (f : Simulator -> Simulator) : M unit :=
  fun m => (tt, mkMachine (f (sim m)) (ticks m) (trace m) (clock_log m)).

Definition emit (e : Event) : M unit :=
  fun m => (tt, mkMachine (sim m) (ticks m) (trace m ++ [e]) (clock_log m)).

Definition when (b : bool) (c : M unit) : M unit :=
  if b then c else ret tt.

End Simulator.

Declare Scope sim_scope.
Delimit Scope sim_scope with sim.
Notation "x <- c ;; k" := (bind c (fun x => k))
  (at level 61, c at next level, right associativity) : sim_scope.
Notation "c ;; k" := (bind c (fun _ => k))
  (at level 61, right associativity) : sim_scope.

(** ** The methods of [Simulator] *)

Definition default_req : timespec := {| tv_sec := 0; tv_nsec := 10000 |}.

Definition EntityPtr_eqb (a b : EntityPtr) : bool :=
  match a, b with
  | None, None => true
  | Some x, Some y => Pos.eqb x y
  | _, _ => false
  end.

Section Methods.

Context {TC : TimeClass}.
Variable wall : nat -> Time.
Local Open Scope sim_scope.
Local Open Scope time_scope.

(** The two values the physics loop reads from the physics engine. *)
Record PhysicsEngine : Type := {
  GetStepTime : Time;
  GetUpdateRate : float
}.

Definition timespec_of (t : Time) : timespec :=
  {| tv_sec := Time_sec t; tv_nsec := Time_nsec t |}.

(** *** Clock *)

Definition GetWallTime : M Time :=
  fun m =>
    (wall (ticks m),
     mkMachine (sim m) (S (ticks m)) (trace m)
       (clock_log m ++ [(ticks m, List.length (trace m))])).

Definition GetStartTime (s : Simulator) : Time := startTime s.

Definition GetRealTime : M Time :=
  t <- GetWallTime ;;
  s <- this ;;
  ret (t - startTime s).

Definition GetSimTime (s : Simulator) : Time := simTime s.
Definition GetPauseTime (s : Simulator) : Time := pauseTime s.

(** *** Constructor *)

(** The member initialiser list. *)
Definition Simulator_members : Simulator :=
  {| xmlFile := false; gui := false; renderEngine := false;
     gazeboConfig := false; loaded := false; pause := false;
     simTime := Time_of_double 0; pauseTime := Time_of_double 0;
     startTime := Time_of_double 0; stepInc := false; userQuit := false;
     guiEnabled := true; renderEngineEnabled := true;
     physicsEnabled := true; timeout := (-1)%float;
     selectedEntity := NULL; selectedBody := NULL; state := None;
     physicsThread := false |}.

Definition Simulator_ctor : M unit :=
  t <- GetWallTime ;;
  assign (set_startTime t).

Definition new_Simulator : Machine :=
  snd (Simulator_ctor (mkMachine Simulator_members 0 [] [])).

(** *** Life cycle *)

Definition Close : M unit :=
  s <- this ;;
  if negb (loaded s) then ret tt
  else
    emit EvWorldClose ;;
    when (renderEngineEnabled s) (emit EvOgreClose).

(** A collaborator call of [Load]: the call is recorded, and either it
    throws, and [Load] is left with the error [e], or [Load] goes on with
    [k].  Inside a [try] block [e] is the error that the [catch] rethrows;
    outside it is the error as thrown. *)
Definition guarded (env : LoadEnv) (c : LoadCall) (e : GazeboError)
    (k : M (option GazeboError)) : M (option GazeboError) :=
  emit (event_of c) ;;
  if throws env c then ret (Some e) else k.

(** Sequencing of two blocks of [Load]. *)
Definition andthen (c k : M (option GazeboError)) : M (option GazeboError) :=
  r <- c ;;
  match r with
  | Some e => ret (Some e)
  | None => k
  end.

(** Lines 151-159: the world file. *)
Definition Load_xml (env : LoadEnv) : M (option GazeboError) :=
  assign (set_xmlFile true) ;;
  guarded env CallXMLLoad XMLConfigError (ret None).

(** Lines 164-175: the messages, outside every [try], and the
    configuration. *)
Definition Load_config (env : LoadEnv) : M (option GazeboError) :=
  guarded env CallMessageLoad (Uncaught CallMessageLoad) (
    assign (set_gazeboConfig true) ;;
    guarded env CallConfigLoad GazeboConfigError (ret None)).

(** Lines 178-179: the render engine is loaded outside every [try]. *)
Definition Load_ogre (env : LoadEnv) : M (option GazeboError) :=
  s <- this ;;
  if renderEngineEnabled s
  then guarded env CallOgreLoad (Uncaught CallOgreLoad) (ret None)
  else ret None.

(** Lines 182-213: the block that creates the Gui; whatever throws inside
    the [try] is rethrown as the Gui error.  [gui] is assigned once the
    constructor has returned. *)
Definition Load_gui (env : LoadEnv) : M (option GazeboError) :=
  s <- this ;;
  if renderEngineEnabled s && guiEnabled s then
    guarded env CallGetChild GuiError (
      if gui_child env then
        guarded env (CallGetTupleInt KeySize 0) GuiError (
        guarded env (CallGetTupleInt KeySize 1) GuiError (
        guarded env (CallGetTupleInt KeyPos 0) GuiError (
        guarded env (CallGetTupleInt KeyPos 1) GuiError (
        guarded env CallGuiNew GuiError (
          assign (set_gui true) ;;
          guarded env CallGuiLoad GuiError (
          guarded env CallGuiCreateCameras GuiError (ret None)))))))
      else ret None)
  else
    assign (set_gui false) ;; ret None.

(** Lines 216-227. *)
Definition Load_render (env : LoadEnv) : M (option GazeboError) :=
  s <- this ;;
  if renderEngineEnabled s then
    guarded env CallOgreInit RenderEngineError (
      assign (set_renderEngine true) ;; ret None)
  else ret None.

(** Lines 230-245: the Gui is initialised outside every [try]. *)
Definition Load_world (env : LoadEnv) : M (option GazeboError) :=
  s <- this ;;
  andthen
    (if gui s then guarded env CallGuiInit (Uncaught CallGuiInit) (ret None)
     else ret None)
    (guarded env CallWorldLoad WorldLoadError (
       assign (set_loaded true) ;; ret None)).

Definition Load (env : LoadEnv) : M (option GazeboError) :=
  assign (set_state LOAD) ;;
  s <- this ;;
  when (loaded s) (Close ;; assign (set_loaded false)) ;;
  andthen (Load_xml env) (
  andthen (Load_config env) (
  andthen (Load_ogre env) (
  andthen (Load_gui env) (
  andthen (Load_render env) (Load_world env))))).

Definition Init (world_inits : bool) : M (option GazeboError) :=
  assign (set_state INIT) ;;
  emit EvWorldInit ;;
  if world_inits then ret None else ret (Some WorldInitError).

Definition Fini : M unit :=
  emit EvWorldFini ;;
  Close.

(** *** Control surface *)

Definition GetRenderEngine (s : Simulator) : bool :=
  if renderEngineEnabled s then renderEngine s else false.

Definition IsPaused (s : Simulator) : bool := pause s.

Definition SetPaused (p : bool) : M unit :=
  emit (EvLock MRMutex) ;;
  s <- this ;;
  if Bool.eqb (pause s) p then emit (EvUnlock MRMutex)
  else
    emit (EvPauseSignal p) ;;
    assign (set_pause p) ;;
    emit (EvUnlock MRMutex).

Definition SetSimTime (t : Time) : M unit := assign (set_simTime t).

Definition SetUserQuit : M unit := assign (set_userQuit true).

Definition GetStepInc (s : Simulator) : bool := stepInc s.

Definition SetStepInc (step : bool) : M unit :=
  emit (EvLock MRMutex) ;;
  assign (set_stepInc step) ;;
  emit (EvUnlock MRMutex).

Definition SetGuiEnabled (enabled : bool) : M unit :=
  assign (set_guiEnabled enabled).
Definition GetGuiEnabled (s : Simulator) : bool := guiEnabled s.

Definition SetRenderEngineEnabled (enabled : bool) : M unit :=
  assign (set_renderEngineEnabled enabled).
Definition GetRenderEngineEnabled (s : Simulator) : bool :=
  renderEngineEnabled s.

Definition SetTimeout (time : float) : M unit := assign (set_timeout time).

Definition SetPhysicsEnabled (enabled : bool) : M unit :=
  assign (set_physicsEnabled enabled).
Definition GetPhysicsEnabled (s : Simulator) : bool := physicsEnabled s.

Definition GetState (s : Simulator) : option State := state s.

(** *** Selection *)

(** The result tells whether the call dereferenced [selectedEntity]
    while it was [NULL]. *)
Definition SetSelectedEntity (ent : EntityPtr) : M (Outcome unit) :=
  s <- this ;;
  match selectedEntity s with
  | Some old =>
      emit (EvShowSelectionBox old false) ;;
      emit (EvSetSelected old false) ;;
      assign (set_selectedEntity NULL)
  | None => ret tt
  end ;;
  s <- this ;;
  if negb (EntityPtr_eqb (selectedEntity s) ent) then
    assign (set_selectedEntity ent) ;;
    s <- this ;;
    match selectedEntity s with
    | Some e =>
        emit (EvShowSelectionBox e true) ;;
        emit (EvSetSelected e true) ;;
        ret (Returns tt)
    | None => ret NullDeref
    end
  else
    assign (set_selectedEntity NULL) ;;
    ret (Returns tt).

Definition GetSelectedEntity (s : Simulator) : EntityPtr := selectedEntity s.

End Methods.

(** ** The two loops *)

Section Loops.

Context {TC : TimeClass}.
Variable wall : nat -> Time.
Local Open Scope sim_scope.
Local Open Scope time_scope.

(** *** [PhysicsLoop] *)

(** Lines 651-659: advance the simulated clock or the pause clock; the
    result is [userStepped]. *)
Definition advance_time (step : Time) : M bool :=
  s <- this ;;
  if negb (IsPaused s) || GetStepInc s then
    assign (fun s => set_simTime (simTime s + step) s) ;;
    s <- this ;;
    if GetStepInc s then ret true else ret false
  else
    assign (fun s => set_pauseTime (pauseTime s + step) s) ;;
    ret false.

(** Lines 663-667: the world update inside the two scoped locks. *)
Definition locked_world_update : M unit :=
  emit (EvLock MRMutex) ;;
  emit (EvLock MDMutex) ;;
  emit EvWorldUpdate ;;
  emit (EvUnlock MDMutex) ;;
  emit (EvUnlock MRMutex).

(** Lines 671-695: the request handed to [nanosleep].  The conjunctions
    are short-circuit: the clock is read only when the rate is negative. *)
Definition sleep_request (physicsUpdateRate : float)
    (physicsUpdatePeriod currTime lastTime : Time) : M timespec :=
  s <- this ;;
  ahead <- (if (physicsUpdateRate <? 0)%float then
              r <- GetRealTime wall ;;
              ret ((GetSimTime s + GetPauseTime s) >? r)
            else ret false) ;;
  if ahead then
    r <- GetRealTime wall ;;
    ret (timespec_of ((GetSimTime s + GetPauseTime s) - r))
  else if (0 <? physicsUpdateRate)%float
          && (currTime - lastTime <? physicsUpdatePeriod) then
    ret (timespec_of (physicsUpdatePeriod - (currTime - lastTime)))
  else ret default_req.

(** Line 706: [timeout > 0 && GetRealTime() > timeout]. *)
Definition timeout_expired : M bool :=
  s <- this ;;
  if (0 <? timeout s)%float then
    r <- GetRealTime wall ;;
    ret (r >? Time_of_double (timeout s))
  else ret false.

(** One pass through the body of the [while]; the result is [true] when
    the body leaves the loop by [break]. *)
Definition PhysicsLoop_body (step : Time) (physicsUpdateRate : float)
    (physicsUpdatePeriod : Time) : M bool :=
  _ <- GetRealTime wall ;;
  userStepped <- advance_time step ;;
  lastTime <- GetRealTime wall ;;
  locked_world_update ;;
  currTime <- GetRealTime wall ;;
  req <- sleep_request physicsUpdateRate physicsUpdatePeriod currTime lastTime ;;
  emit (EvNanosleep req) ;;
  emit EvWorldUpdateSimulationIface ;;
  expired <- timeout_expired ;;
  if expired then
    assign (set_userQuit true) ;;
    ret true
  else
    when userStepped (SetStepInc false ;; SetPaused true) ;;
    ret false.

(** The loop test followed by one pass through the body. *)
Definition PhysicsLoop_step (step : Time) (physicsUpdateRate : float)
    (physicsUpdatePeriod : Time) : M LoopStatus :=
  s <- this ;;
  if userQuit s then ret Exited
  else
    left <- PhysicsLoop_body step physicsUpdateRate physicsUpdatePeriod ;;
    if left then ret Exited else ret Running.

Fixpoint PhysicsLoop_while (fuel : nat) (step : Time)
    (physicsUpdateRate : float) (physicsUpdatePeriod : Time) : M LoopStatus :=
  match fuel with
  | O => ret Running
  | S fuel' =>
      st <- PhysicsLoop_step step physicsUpdateRate physicsUpdatePeriod ;;
      match st with
      | Exited => ret Exited
      | Running =>
          PhysicsLoop_while fuel' step physicsUpdateRate physicsUpdatePeriod
      end
  end.

Definition PhysicsLoop (pe : PhysicsEngine) (fuel : nat) : M LoopStatus :=
  emit EvPhysicsInitForThread ;;
  let step := GetStepTime pe in
  let physicsUpdateRate := GetUpdateRate pe in
  let physicsUpdatePeriod := Time_of_double (1 / physicsUpdateRate)%float in
  _ <- GetRealTime wall ;;
  PhysicsLoop_while fuel step physicsUpdateRate physicsUpdatePeriod.

(** *** A pass of [PhysicsLoop] while other threads call the simulator

    The loop body reads [pause] and [stepInc] without holding a mutex, and
    holds [MRMutex] only around the world update.  Another thread can
    therefore run a method of the simulator at any of the following places
    of a pass.  The places are the gaps between the statements of the body
    that read or write [pause] and [stepInc], and the gaps around the world
    update and the sleep; the world update with its two locks is one step,
    since [SetStepInc] and [SetPaused] wait for [MRMutex]. *)
Inductive PassPoint : Type :=
  | BeforeTest      (* before the test of line 651 *)
  | AfterTest       (* between the test of line 651 and line 653 or 658 *)
  | AfterAdvance    (* after line 653 (before the read of line 655) or 658 *)
  | BeforeUpdate    (* after line 659, before the locks of line 664 *)
  | AfterUpdate     (* after line 667, before the sleep of line 697 *)
  | AfterSleep      (* after line 697, before the check of line 706 *)
  | BeforeReset     (* after line 710, before the test of line 712 *)
  | BetweenResets.  (* between line 714 and line 715 *)

Definition PassPoint_eqb (a b : PassPoint) : bool :=
  match a, b with
  | BeforeTest, BeforeTest | AfterTest, AfterTest
  | AfterAdvance, AfterAdvance | BeforeUpdate, BeforeUpdate
  | AfterUpdate, AfterUpdate | AfterSleep, AfterSleep
  | BeforeReset, BeforeReset | BetweenResets, BetweenResets => true
  | _, _ => false
  end.

(** What the other threads do at each place of a pass. *)
Definition Interference : Type := PassPoint -> M unit.

Definition undisturbed : Interference := fun _ => ret tt.

(** Lines 651-659 with the other threads. *)
Definition advance_time_with (others : Interference) (step : Time) : M bool :=
  others BeforeTest ;;
  s <- this ;;
  if negb (IsPaused s) || GetStepInc s then
    others AfterTest ;;
    assign (fun s => set_simTime (simTime s + step) s) ;;
    others AfterAdvance ;;
    s <- this ;;
    if GetStepInc s then ret true else ret false
  else
    others AfterTest ;;
    assign (fun s => set_pauseTime (pauseTime s + step) s) ;;
    others AfterAdvance ;;
    ret false.

(** One pass through the body of the [while] with the other threads. *)
Definition PhysicsLoop_body_with (others : Interference) (step : Time)
    (physicsUpdateRate : float) (physicsUpdatePeriod : Time) : M bool :=
  _ <- GetRealTime wall ;;
  userStepped <- advance_time_with others step ;;
  others BeforeUpdate ;;
  lastTime <- GetRealTime wall ;;
  locked_world_update ;;
  currTime <- GetRealTime wall ;;
  others AfterUpdate ;;
  req <- sleep_request physicsUpdateRate physicsUpdatePeriod currTime lastTime ;;
  emit (EvNanosleep req) ;;
  others AfterSleep ;;
  emit EvWorldUpdateSimulationIface ;;
  expired <- timeout_expired ;;
  if expired then
    assign (set_userQuit true) ;;
    ret true
  else
    others BeforeReset ;;
    when userStepped
      (SetStepInc false ;; others BetweenResets ;; SetPaused true) ;;
    ret false.

(** One call of [SetStepInc(true)] by another thread, at the place [pt]. *)
Definition request_at (pt : PassPoint) : Interference :=
  fun p => if PassPoint_eqb p pt then SetStepInc true else ret tt.

(** The places of a pass at which a step request is read by the test of
    line 651 of the same pass. *)
Definition read_by_test (pt : PassPoint) : bool :=
  match pt with
  | BeforeTest => true
  | _ => false
  end.

(** The places of a pass that come before the reset of line 714. *)
Definition before_reset (pt : PassPoint) : bool :=
  match pt with
  | BetweenResets => false
  | _ => true
  end.

(** The places that a pass goes through after its test when it starts
    paused with no step requested and is not left by the timeout check. *)
Definition after_test (pt : PassPoint) : bool :=
  negb (read_by_test pt) && before_reset pt.

(** *** [MainLoop] *)

Definition freq : float := 80%float.

(** One pass through the body of the [while]; the result is the new value
    of the local [lastTime]. *)
Definition MainLoop_body (lastTime : Time) : M Time :=
  currTime <- GetWallTime wall ;;
  if currTime - lastTime >? Time_of_double (1 / freq)%float then
    lastTime <- GetWallTime wall ;;
    s <- this ;;
    when (gui s) (emit EvGuiUpdate) ;;
    when (renderEngineEnabled s) (emit EvOgreUpdateCameras) ;;
    when (renderEngineEnabled s) (emit EvWorldGraphicsUpdate) ;;
    currTime <- GetWallTime wall ;;
    emit EvWorldProcessEntitiesToLoad ;;
    emit EvWorldProcessEntitiesToDelete ;;
    when (currTime - lastTime <? Time_of_double (1 / freq)%float)
      (emit (EvNanosleep
         (timespec_of (Time_of_double (1 / freq)%float - (currTime - lastTime))))) ;;
    ret lastTime
  else
    emit (EvNanosleep
      (timespec_of (Time_of_double (1 / freq)%float - (currTime - lastTime)))) ;;
    ret lastTime.

Fixpoint MainLoop_while (fuel : nat) (lastTime : Time) : M LoopStatus :=
  match fuel with
  | O => ret Running
  | S fuel' =>
      s <- this ;;
      if userQuit s then ret Exited
      else
        lastTime' <- MainLoop_body lastTime ;;
        MainLoop_while fuel' lastTime'
  end.



(** The physics thread is joined once the loop is left. *)
Definition MainLoop (fuel : nat) : M LoopStatus :=
  assign (set_state RUN) ;;
  emit EvThreadStart ;;
  assign (set_physicsThread true) ;;
  st <- MainLoop_while fuel (Time_of_double 0) ;;
  match st with
  | Exited => emit EvThreadJoin ;; ret Exited
  | Running => ret Running
  end.

(** *** Operations *)

(** The operations that can change a simulator, as one type: the public
    mutators, the two loops, and one pass of each loop (so that mutators can
    be interleaved with passes). *)
Inductive Op : Type :=
  | OpLoad (env : LoadEnv)
  | OpInit (world_inits : bool)
  | OpClose
  | OpFini
  | OpSetPaused (p : bool)
  | OpSetSimTime (t : Time)
  | OpSetUserQuit
  | OpSetStepInc (step : bool)
  | OpSetGuiEnabled (enabled : bool)
  | OpSetRenderEngineEnabled (enabled : bool)
  | OpSetTimeout (time : float)
  | OpSetPhysicsEnabled (enabled : bool)
  | OpSetSelectedEntity (ent : EntityPtr)
  | OpMainLoop (fuel : nat)
  | OpMainLoopPass (lastTime : Time)
  | OpPhysicsLoop (pe : PhysicsEngine) (fuel : nat)
  | OpPhysicsLoopPass (pe : PhysicsEngine).

Definition run_op (o : Op) (m : Machine) : Machine :=
  match o with
  | OpLoad env => snd (Load env m)
  | OpInit ok => snd (Init ok m)
  | OpClose => snd (Close m)
  | OpFini => snd (Fini m)
  | OpSetPaused p => snd (SetPaused p m)
  | OpSetSimTime t => snd (SetSimTime t m)
  | OpSetUserQuit => snd (SetUserQuit m)
  | OpSetStepInc b => snd (SetStepInc b m)
  | OpSetGuiEnabled b => snd (SetGuiEnabled b m)
  | OpSetRenderEngineEnabled b => snd (SetRenderEngineEnabled b m)
  | OpSetTimeout t => snd (SetTimeout t m)
  | OpSetPhysicsEnabled b => snd (SetPhysicsEnabled b m)
  | OpSetSelectedEntity e => snd (SetSelectedEntity e m)
  | OpMainLoop fuel => snd (MainLoop fuel m)
  | OpMainLoopPass lastTime => snd (MainLoop_body lastTime m)
  | OpPhysicsLoop pe fuel => snd (PhysicsLoop pe fuel m)
  | OpPhysicsLoopPass pe =>
      snd (PhysicsLoop_step (GetStepTime pe) (GetUpdateRate pe)
             (Time_of_double (1 / GetUpdateRate pe)%float) m)
  end.

Definition run_ops (os : list Op) (m : Machine) : Machine :=
  fold_left (fun m o => run_op o m) os m.

(** Whether an operation is one of the three setters of the subsystem
    switches. *)
Definition is_switch_setter (o : Op) : bool :=
  match o with
  | OpSetGuiEnabled _ | OpSetRenderEngineEnabled _ | OpSetPhysicsEnabled _ => true
  | _ => false
  end.

End Loops.

(** ** Lock discipline *)

Definition Mutex_eqb (a b : Mutex) : bool :=
  match a, b with
  | MRMutex, MRMutex | MDMutex, MDMutex => true
  | _, _ => false
  end.

(** Releasing a recursive mutex drops its most recent acquisition. *)
Fixpoint release (m : Mutex) (held : list Mutex) : list Mutex :=
  match held with
  | [] => []
  | x :: held' => if Mutex_eqb m x then held' else x :: release m held'
  end.

(** The locks held after a trace, most recent first. *)
Fixpoint held_after (held : list Mutex) (tr : list Event) : list Mutex :=
  match tr with
  | [] => held
  | EvLock m :: tr' => held_after (m :: held) tr'
  | EvUnlock m :: tr' => held_after (release m held) tr'
  | _ :: tr' => held_after held tr'
  end.

(** The discipline of a trace that starts with no lock held:
    - wherever the world is updated, the two events before it acquire
      [MRMutex] and then [MDMutex] from the state where nothing is held, and
      the two events after it release [MDMutex] and then [MRMutex];
    - wherever the thread sleeps, it holds nothing;
    - [MDMutex] is acquired only while exactly [MRMutex] is held. *)
Definition LockDiscipline (tr : list Event) : Prop :=
  (forall pre post, tr = pre ++ EvWorldUpdate :: post ->
     exists pre' post',
       pre = pre' ++ [EvLock MRMutex; EvLock MDMutex] /\
       held_after [] pre' = [] /\
       post = EvUnlock MDMutex :: EvUnlock MRMutex :: post') /\
  (forall pre req post, tr = pre ++ EvNanosleep req :: post ->
     held_after [] pre = []) /\
  (forall pre post, tr = pre ++ EvLock MDMutex :: post ->
     held_after [] pre = [MRMutex]).

(** ** Frames *)

Section Frames.

Context {TC : TimeClass}.

(** The three subsystem switches of a simulator. *)
Definition switches (s : Simulator) : bool * bool * bool :=
  (guiEnabled s, renderEngineEnabled s, physicsEnabled s).

(** The members that no loop writes. *)
Definition same_setup (s s' : Simulator) : Prop :=
  startTime s' = startTime s /\
  timeout s' = timeout s /\
  switches s' = switches s.

End Frames.

(** ** Concrete scenarios

    All of them use the nanosecond instance of [Time]. *)

Module Scenario.

Import NsTime.
Local Open Scope Z_scope.

Definition ms (n : Z) : Z := n * 1000000.

(** A fresh simulator under a given clock. *)
Definition fresh (wall : nat -> Time) : Machine := new_Simulator wall.

(** A physics engine with a 1 ms step and the given update rate. *)
Definition engine (rate : float) : PhysicsEngine :=
  {| GetStepTime := ms 1; GetUpdateRate := rate |}.

Definition period_of (rate : float) : Z := Time_of_double (1 / rate)%float.

(** A clock that reads 5 s at every call after the constructor's. *)
Definition late_clock (n : nat) : Time :=
  match n with
  | O => 0
  | _ => ms 5000
  end.

(** A paused simulator with a one second timeout, read under
    [late_clock]. *)
Definition paused_with_timeout : Machine :=
  run_ops late_clock [OpSetTimeout 1%float; OpSetPaused true] (fresh late_clock).

(** A clock for one pass of the physics loop: it reads 0 at the
    constructor and at the top of the pass, 8 ms just before the world update
    and 9 ms from then on. *)
Definition busy_clock (n : nat) : Time :=
  match n with
  | 0%nat | 1%nat => 0
  | 2%nat => ms 8
  | _ => ms 9
  end.

(** A clock that advances by 1 ms per call. *)
Definition steady_clock (n : nat) : Time := ms (Z.of_nat n).

(** A paused simulator without timeout, read under [steady_clock]. *)
Definition paused_sim : Machine :=
  run_ops steady_clock [OpSetPaused true] (fresh steady_clock).

End Scenario.

(** ** The events of one pass of the physics loop *)

(** The three ways a pass can end after [UpdateSimulationIface]: nothing
    more; [SetStepInc(false)] and a [SetPaused(true)] that finds the
    simulator paused; the same with a [SetPaused(true)] that pauses it. *)
Definition restep_tails : list (list Event) :=
  [ [];
    [EvLock MRMutex; EvUnlock MRMutex; EvLock MRMutex; EvUnlock MRMutex];
    [EvLock MRMutex; EvUnlock MRMutex;
     EvLock MRMutex; EvPauseSignal true; EvUnlock MRMutex] ].

(** The world update inside its two locks. *)
Definition locked_update_events : list Event :=
  [EvLock MRMutex; EvLock MDMutex; EvWorldUpdate;
   EvUnlock MDMutex; EvUnlock MRMutex].

(** The first three clock reads of a pass that starts at [m], as the clock
    log has them: at the top of the body (line 644), just before the locks
    of the world update (line 661) and just after their release
    (line 669). *)
Definition pass_reads {TC : TimeClass} (m : Machine) : list (nat * nat) :=
  [(ticks m, List.length (trace m));
   (1 + ticks m, List.length (trace m));
   (2 + ticks m, List.length (trace m ++ locked_update_events))].

Definition pass_events (req : timespec) (tail : list Event) : list Event :=
  [EvLock MRMutex; EvLock MDMutex; EvWorldUpdate;
   EvUnlock MDMutex; EvUnlock MRMutex;
   EvNanosleep req; EvWorldUpdateSimulationIface] ++ tail.

Module TimeoutScenario.

Import NsTime.
Local Open Scope Z_scope.

(** A clock for two passes of the physics loop at 1 Hz: the first pass
    reads 0.9 s three times and 1.9 s after its sleep; the second pass reads
    1.9 s twice, then 6.9 s after a world update of five seconds. *)
Definition slow_clock (n : nat) : Time :=
  match n with
  | 0%nat => 0
  | 1%nat | 2%nat | 3%nat => Scenario.ms 900
  | 4%nat | 5%nat | 6%nat => Scenario.ms 1900
  | _ => Scenario.ms 6900
  end.

(** A running simulator with a two second timeout. *)
Definition timed_sim : Machine :=
  run_ops slow_clock [OpSetTimeout 2%float] (Scenario.fresh slow_clock).

(** The same with [SetTimeout(0)]. *)
Definition zero_timeout_sim : Machine :=
  run_ops slow_clock [OpSetTimeout 0%float] (Scenario.fresh slow_clock).

End TimeoutScenario.

(** ** The events of one pass of the main loop *)

Section RenderEvents.

Context {TC : TimeClass}.
Local Open Scope time_scope.

(** The collaborator calls of a frame, for a simulator [s]: the Gui is
    updated if there is one, the cameras and the world graphics if the render
    engine is enabled; the deferred loads and deletions always. *)
Definition frame_events (s : Simulator) : list Event :=
  (if gui s then [EvGuiUpdate] else []) ++
  (if renderEngineEnabled s
   then [EvOgreUpdateCameras; EvWorldGraphicsUpdate] else []) ++
  [EvWorldProcessEntitiesToLoad; EvWorldProcessEntitiesToDelete].

(** The sleep that fills the frame period after [elapsed]. *)
Definition frame_sleep (elapsed : Time) : Event :=
  EvNanosleep (timespec_of (Time_of_double (1 / freq)%float - elapsed)).

(** The calls of a frame that are made before its third clock read
    (lines 360-367). *)
Definition frame_update_events (s : Simulator) : list Event :=
  (if gui s then [EvGuiUpdate] else []) ++
  (if renderEngineEnabled s
   then [EvOgreUpdateCameras; EvWorldGraphicsUpdate] else []).

(** The three clock reads of a frame that starts at [m], as the clock log
    has them: [currTime] (line 355) and [lastTime] (line 358) are read
    before any call of the frame, [currTime] again (line 369) after the Gui,
    camera and graphics updates. *)
Definition frame_reads (m : Machine) : list (nat * nat) :=
  [(ticks m, List.length (trace m));
   ((1 + ticks m)%nat, List.length (trace m));
   ((2 + ticks m)%nat,
    List.length (trace m ++ frame_update_events (sim m)))].

End RenderEvents.

(** ** The events of a selection *)

Definition deselect_events (old : EntityPtr) : list Event :=
  match old with
  | Some e => [EvShowSelectionBox e false; EvSetSelected e false]
  | None => []
  end.

Definition select_events (ent : EntityPtr) : list Event :=
  match ent with
  | Some e => [EvShowSelectionBox e true; EvSetSelected e true]
  | None => []
  end.

Module RenderScenario.

Import NsTime.
Local Open Scope Z_scope.


(** The world file has a gui node and no call of [Load] throws. *)
Definition good_env : LoadEnv :=
  {| gui_child := true; throws := fun _ => false |}.

(** A loaded simulator under [Scenario.late_clock]. *)
Definition loaded_sim : Machine :=
  run_ops Scenario.late_clock [OpLoad good_env; OpInit true]
    (Scenario.fresh Scenario.late_clock).



End RenderScenario.

Module EntityScenario.

(** A geom (1) inside a body (2) inside a model (3); the model has no
    parent. *)
Definition heap : EntityHeap :=
  {| is_Model := fun e => Pos.eqb e 3;
     is_Body := fun e => Pos.eqb e 2;
     GetParent := fun e =>
       match e with
       | 1%positive => Some 2%positive
       | 2%positive => Some 3%positive
       | _ => None
       end |}.

(** Two entities that are each other's parent, neither a model nor a
    body. *)
Definition cyclic_heap : EntityHeap :=
  {| is_Model := fun _ => false;
     is_Body := fun _ => false;
     GetParent := fun e =>
       match e with
       | 1%positive => Some 2%positive
       | _ => Some 1%positive
       end |}.

End EntityScenario.

(** ** Vocabulary of the further properties *)

(** Calls into the render engine, and the world call made on its behalf. *)
Definition is_render_event (e : Event) : bool :=
  match e with
  | EvOgreLoad | EvOgreInit | EvOgreUpdateCameras | EvOgreClose
  | EvWorldGraphicsUpdate => true
  | _ => false
  end.

(** The only events [MainLoop] issues. *)
Definition is_main_loop_event (e : Event) : bool :=
  match e with
  | EvThreadStart | EvThreadJoin | EvGuiUpdate | EvOgreUpdateCameras
  | EvWorldGraphicsUpdate | EvWorldProcessEntitiesToLoad
  | EvWorldProcessEntitiesToDelete | EvNanosleep _ => true
  | _ => false
  end.

(** The entities whose last [SetSelected] in a trace is [true], oldest
    first. *)
Fixpoint shown_selected (tr : list Event) (shown : list ptr) : list ptr :=
  match tr with
  | [] => shown
  | EvSetSelected e true :: tr' => shown_selected tr' (shown ++ [e])
  | EvSetSelected e false :: tr' =>
      shown_selected tr' (filter (fun x => negb (Pos.eqb x e)) shown)
  | _ :: tr' => shown_selected tr' shown
  end.

(** The entities whose selection box is shown after a trace. *)
Fixpoint shown_boxes (tr : list Event) (shown : list ptr) : list ptr :=
  match tr with
  | [] => shown
  | EvShowSelectionBox e true :: tr' => shown_boxes tr' (shown ++ [e])
  | EvShowSelectionBox e false :: tr' =>
      shown_boxes tr' (filter (fun x => negb (Pos.eqb x e)) shown)
  | _ :: tr' => shown_boxes tr' shown
  end.

Definition selection_list (p : EntityPtr) : list ptr :=
  match p with
  | Some e => [e]
  | None => []
  end.

Section MoreVocabulary.

Context {TC : TimeClass}.

(** What [Close] asks of the collaborators of a simulator [s]. *)
Definition close_events (s : Simulator) : list Event :=
  if loaded s
  then EvWorldClose :: (if renderEngineEnabled s then [EvOgreClose] else [])
  else [].

(** The collaborator calls that a [Load] on the simulator [s] makes after
    closing, if none of them throws: the render engine is loaded and
    initialised only if it is enabled; the gui node is looked up only if the
    render engine and the Gui are both enabled, and the Gui is created only
    if the node is there; the Gui is initialised if there is one by then,
    the one just created or, with no gui node, an older one. *)
Definition load_calls (s : Simulator) (env : LoadEnv) : list LoadCall :=
  [CallXMLLoad; CallMessageLoad; CallConfigLoad] ++
  (if renderEngineEnabled s then [CallOgreLoad] else []) ++
  (if renderEngineEnabled s && guiEnabled s then
     CallGetChild ::
     (if gui_child env then
        [CallGetTupleInt KeySize 0; CallGetTupleInt KeySize 1;
         CallGetTupleInt KeyPos 0; CallGetTupleInt KeyPos 1;
         CallGuiNew; CallGuiLoad; CallGuiCreateCameras]
      else [])
   else []) ++
  (if renderEngineEnabled s then [CallOgreInit] else []) ++
  (if renderEngineEnabled s && guiEnabled s && (gui_child env || gui s)
   then [CallGuiInit] else []) ++
  [CallWorldLoad].

(** The calls made out of a list of calls: all up to and including the
    first that throws. *)
Fixpoint calls_made (env : LoadEnv) (calls : list LoadCall)
    : list LoadCall :=
  match calls with
  | [] => []
  | c :: rest => c :: (if throws env c then [] else calls_made env rest)
  end.

(** The error with which [Load] is left when the call [c] throws: the
    error of the [catch] block around the call, or the error as thrown when
    the call is outside every [try]. *)
Definition error_of (c : LoadCall) : GazeboError :=
  match c with
  | CallXMLLoad => XMLConfigError
  | CallConfigLoad => GazeboConfigError
  | CallGetChild | CallGetTupleInt _ _ | CallGuiNew | CallGuiLoad
  | CallGuiCreateCameras => GuiError
  | CallOgreInit => RenderEngineError
  | CallWorldLoad => WorldLoadError
  | CallMessageLoad | CallOgreLoad | CallGuiInit => Uncaught c
  end.

(** The members that a pass of the physics loop does not write: all but
    [simTime], [pauseTime], [pause], [stepInc] and [userQuit]. *)
Definition physics_frame (s s' : Simulator) : Prop :=
  xmlFile s' = xmlFile s /\
  gui s' = gui s /\
  renderEngine s' = renderEngine s /\
  gazeboConfig s' = gazeboConfig s /\
  loaded s' = loaded s /\
  startTime s' = startTime s /\
  guiEnabled s' = guiEnabled s /\
  renderEngineEnabled s' = renderEngineEnabled s /\
  physicsEnabled s' = physicsEnabled s /\
  timeout s' = timeout s /\
  selectedEntity s' = selectedEntity s /\
  selectedBody s' = selectedBody s /\
  state s' = state s /\
  physicsThread s' = physicsThread s.

(** A sequence of calls of [SetSelectedEntity]. *)
Definition select_all (ents : list EntityPtr) (m : Machine) : Machine :=
  fold_left (fun m ent => snd (SetSelectedEntity ent m)) ents m.

End MoreVocabulary.

(** Whether an operation switches the render engine on. *)
Definition enables_render {TC : TimeClass} (o : Op) : bool :=
  match o with
  | OpSetRenderEngineEnabled true => true
  | _ => false
  end.

(** The first [k + 1] entities of the parent chain of [e], from [e]
    upwards. *)
Fixpoint chain (h : EntityHeap) (k : nat) (e : ptr) : list ptr :=
  e :: match k with
       | O => []
       | S k' =>
           match GetParent h e with
           | Some p => chain h k' p
           | None => []
           end
       end.

(** * Entity URIs

    A shallow embedding of [gazebo/common/Uri.cc]: a URI
    [/world/<world>/<type>/<name>...?p=<value>&p=<value>...] names a nested
    entity of a world and an optional list of parameters.

    Conventions of the embedding.
    - A [std::string] is a list of characters; an index of type [size_t] is
      a natural number and [std::string::npos] is [None].  The code
      subtracts indices only where [find] or [find_first_of] has returned
      the minuend from a search that started at the subtrahend, so no
      subtraction wraps around.
    - A call ends with a value, with an exception ([gzthrow], or the
      [std::out_of_range] of [at] and [substr]), in undefined behaviour
      ([back] on an empty string), or is still looping when the fuel runs
      out.
    - An object returned or passed by value is copied, and the copy of a
      [UriEntity] validates its two identifiers again. *)

From Stdlib Require Ascii String.

Module Uri.

Import Ascii String.
Local Open Scope char_scope.
Local Open Scope nat_scope.

Definition str : Type := list ascii.

(** A string literal. *)
Definition lit (s : String.string) : str := String.list_ascii_of_string s.

Inductive Exception : Type :=
  | IdentifierHasWhitespace
  | IdentifierHasQuestionMark
  | EmptyNestedEntity
  | IncorrectIndex
  | UnableToParse
  | UnableToCreate
  | Malformed
  | out_of_range.

Inductive Res (A : Type) : Type :=
  | Ok (a : A)
  | Throw (e : Exception)
  | Undefined
  | OutOfFuel.
Arguments Throw {A} e.
Arguments Undefined {A}.
Arguments OutOfFuel {A}.

Definition bind {A B : Type} (c : Res A) (k : A -> Res B) : Res B :=
  match c with
  | Ok a => k a
  | Throw e => Throw e
  | Undefined => Undefined
  | OutOfFuel => OutOfFuel
  end.

Declare Scope uri_scope.
Delimit Scope uri_scope with uri.
Notation "x <- c ;; k" := (bind c (fun x => k))
  (at level 61, c at next level, right associativity) : uri_scope.
Notation "c ;; k" := (bind c (fun _ => k))
  (at level 61, right associativity) : uri_scope.
Local Open Scope uri_scope.

(** ** The operations of [std::string] that the file uses *)

Definition size (s : str) : nat := List.length s.

(** The index of the first character of [s] that satisfies [p]. *)
Fixpoint find_if (p : ascii -> bool) (s : str) : option nat :=
  match s with
  | [] => None
  | c :: s' => if p c then Some O else option_map S (find_if p s')
  end.

(** The same, searching from index [pos]. *)
Definition find_if_from (p : ascii -> bool) (pos : nat) (s : str)
    : option nat :=
  option_map (Nat.add pos) (find_if p (skipn pos s)).

(** [s.find(c, pos)] for a one character needle. *)
Definition find_char (c : ascii) (pos : nat) (s : str) : option nat :=
  find_if_from (Ascii.eqb c) pos s.

(** [s.find_first_of(cs, pos)]. *)
Definition find_first_of (cs : str) (pos : nat) (s : str) : option nat :=
  find_if_from (fun c => existsb (Ascii.eqb c) cs) pos s.

Fixpoint prefixb (pat s : str) : bool :=
  match pat, s with
  | [], _ => true
  | _ :: _, [] => false
  | a :: pat', b :: s' => Ascii.eqb a b && prefixb pat' s'
  end.

(** [s.find(pat)]: the first index at which [pat] occurs. *)
Fixpoint find_str (pat s : str) : option nat :=
  if prefixb pat s then Some O
  else match s with
       | [] => None
       | _ :: s' => option_map S (find_str pat s')
       end.

(** [s.substr(pos, len)]. *)
Definition substr (pos len : nat) (s : str) : Res str :=
  if size s <? pos then Throw out_of_range
  else Ok (firstn len (skipn pos s)).

(** [s.substr(pos)]. *)
Definition substr_from (pos : nat) (s : str) : Res str :=
  if size s <? pos then Throw out_of_range
  else Ok (skipn pos s).

(** [s.at(i)]. *)
Definition at_ (s : str) (i : nat) : Res ascii :=
  match nth_error s i with
  | Some c => Ok c
  | None => Throw out_of_range
  end.

(** ** [UriEntity] *)

Record UriEntity : Type := {
  type : str;
  name : str
}.

Definition UriEntity_new : UriEntity := {| type := []; name := [] |}.

Definition Validate (_identifier : str) : Res unit :=
  match find_char " " 0 _identifier with
  | Some _ => Throw IdentifierHasWhitespace
  | None =>
      match find_char "?" 0 _identifier with
      | Some _ => Throw IdentifierHasQuestionMark
      | None => Ok tt
      end
  end.

Definition SetType (_type : str) (this : UriEntity) : Res UriEntity :=
  Validate _type ;;
  Ok {| type := _type; name := name this |}.

Definition SetName (_name : str) (this : UriEntity) : Res UriEntity :=
  Validate _name ;;
  Ok {| type := type this; name := _name |}.

(** [operator=]. *)
Definition UriEntity_assign (_p this : UriEntity) : Res UriEntity :=
  this <- SetType (type _p) this ;;
  SetName (name _p) this.

(** The copy constructor. *)
Definition UriEntity_copy (_entity : UriEntity) : Res UriEntity :=
  UriEntity_assign _entity UriEntity_new.

(** ** [UriNestedEntity] *)

Definition UriNestedEntity : Type := list UriEntity.

Definition UriNestedEntity_new : UriNestedEntity := [].

Definition Parent (this : UriNestedEntity) : Res UriEntity :=
  match this with
  | [] => Throw EmptyNestedEntity
  | front :: _ => UriEntity_copy front
  end.

Definition Leaf (this : UriNestedEntity) : Res UriEntity :=
  match this with
  | [] => Throw EmptyNestedEntity
  | _ :: _ => UriEntity_copy (last this UriEntity_new)
  end.

Definition Entity (_index : nat) (this : UriNestedEntity) : Res UriEntity :=
  if List.length this <=? _index then Throw IncorrectIndex
  else
    match nth_error this _index with
    | Some e => UriEntity_copy e
    | None => Throw out_of_range
    end.

Definition EntityCount (this : UriNestedEntity) : nat := List.length this.

Definition AddEntity (_entity : UriEntity) (this : UriNestedEntity)
    : Res UriNestedEntity :=
  e <- UriEntity_copy _entity ;;
  Ok (this ++ [e]).

Definition AddParentEntity (_entity : UriEntity) (this : UriNestedEntity)
    : Res UriNestedEntity :=
  e <- UriEntity_copy _entity ;;
  Ok (e :: this).

Definition Clear (this : UriNestedEntity) : UriNestedEntity := [].

(** [for (i = from; i < from + n; ++i) body], threading the state. *)
Fixpoint for_range {S : Type} (n from : nat) (body : nat -> S -> Res S)
    (s : S) : Res S :=
  match n with
  | O => Ok s
  | Datatypes.S n' => s' <- body from s ;; for_range n' (Datatypes.S from) body s'
  end.

(** [operator=] on two different objects, given by their values: [_p] is
    not touched while [this] is rebuilt.  This is how the parser and the
    constructors use it, on locals and fresh objects.  The case of one
    object on both sides is [UriNestedEntity_assign_obj] below. *)
Definition UriNestedEntity_assign (_p this : UriNestedEntity)
    : Res UriNestedEntity :=
  for_range (EntityCount _p) 0
    (fun i this => e <- Entity i _p ;; AddEntity e this)
    (Clear this).

Definition UriNestedEntity_copy (_entity : UriNestedEntity)
    : Res UriNestedEntity :=
  UriNestedEntity_assign _entity UriNestedEntity_new.

(** ** [UriParts] *)

Record UriParts : Type := {
  world : str;
  entity : UriNestedEntity;
  parameters : list str
}.

Definition UriParts_new : UriParts :=
  {| world := []; entity := UriNestedEntity_new; parameters := [] |}.

Definition SetWorld (_world : str) (this : UriParts) : UriParts :=
  {| world := _world; entity := entity this; parameters := parameters this |}.

Definition SetEntity (_entity : UriNestedEntity) (this : UriParts)
    : Res UriParts :=
  e <- UriNestedEntity_assign _entity (entity this) ;;
  Ok {| world := world this; entity := e; parameters := parameters this |}.

Definition SetParameters (_params : list str) (this : UriParts) : UriParts :=
  {| world := world this; entity := entity this; parameters := _params |}.

(** [operator=] on two different objects, given by their values. *)
Definition UriParts_assign (_p this : UriParts) : Res UriParts :=
  let this := SetWorld (world _p) this in
  this <- SetEntity (entity _p) this ;;
  Ok (SetParameters (parameters _p) this).

(** ** Assignment between objects

    [operator=] takes its argument by reference.  When the argument is the
    object assigned to ([x = x], or [parts.SetEntity(parts.Entity())], where
    [Entity()] returns a reference to the member), the vector that line 214
    clears is the vector that the loop of lines 215-216 reads.  Here the
    objects live in a store, so that the two sides can be one object. *)

Definition Ref : Type := nat.

Definition store_set {A : Type} (r : Ref) (v : A) (h : Ref -> A)
    : Ref -> A :=
  fun r' => if Nat.eqb r' r then v else h r'.

(** The [entities] vector of each [UriNestedEntity] object. *)
Definition NestedStore : Type := Ref -> UriNestedEntity.

(** The loop of lines 215-216 from index [i]: [_p.EntityCount()] and
    [_p.Entity(i)] are read from the store at every turn. *)
Fixpoint assign_entities (fuel i : nat) (this _p : Ref) (h : NestedStore)
    : Res NestedStore :=
  match fuel with
  | O => OutOfFuel
  | S fuel' =>
      if i <? EntityCount (h _p) then
        e <- Entity i (h _p) ;;
        entities <- AddEntity e (h this) ;;
        assign_entities fuel' (S i) this _p (store_set this entities h)
      else Ok h
  end.

(** [*this = _p] on two [UriNestedEntity] objects of the store. *)
Definition UriNestedEntity_assign_obj (fuel : nat) (this _p : Ref)
    (h : NestedStore) : Res NestedStore :=
  assign_entities fuel 0 this _p (store_set this (Clear (h this)) h).

(** The [UriParts] objects: the object [r] has the world name [worlds r]
    and the parameters [params r], and its [entity] member is the
    [UriNestedEntity] object [r] of [nested]. *)
Record PartsStore : Type := {
  worlds : Ref -> str;
  nested : NestedStore;
  params : Ref -> list str
}.

(** [*this = _p] on two [UriParts] objects of the store: [SetWorld] copies
    the name that [World()] returns by value, [SetEntity] assigns the
    member of [_p] to the member of [this], and [SetParameters] assigns the
    vector of [_p], which leaves a vector assigned to itself as it is. *)
Definition UriParts_assign_obj (fuel : nat) (this _p : Ref)
    (h : PartsStore) : Res PartsStore :=
  let w := store_set this (worlds h _p) (worlds h) in
  n <- UriNestedEntity_assign_obj fuel this _p (nested h) ;;
  Ok {| worlds := w; nested := n;
        params := store_set this (params h _p) (params h) |}.

Definition kDelimWorld : str := lit "/world/"%string.

(** The result is [None] where the code returns [false], else the world
    name and the index [_next]. *)
Definition ParseWorld (_uri : str) : Res (option (str * nat)) :=
  match find_char " " 0 _uri with
  | Some _ => Ok None
  | None =>
      match find_str kDelimWorld _uri with
      | Some O =>
          let from := size kDelimWorld in
          match find_char "/" from _uri with
          | None => Ok None
          | Some to =>
              _world <- substr from (to - from) _uri ;;
              Ok (Some (_world, to))
          end
      | _ => Ok None
      end
  end.

(** The result is [None] where the code returns [false], else the entity
    and the index [_next]. *)
Definition ParseOneEntity (_uri : str) (_from : nat)
    : Res (option (UriEntity * nat)) :=
  match find_char "/" (_from + 1) _uri with
  | None => Ok None
  | Some next =>
      ty <- substr (_from + 1) (next - _from - 1) _uri ;;
      _entity <- SetType ty UriEntity_new ;;
      let next := next + 1 in
      match find_first_of (lit "/?"%string) next _uri with
      | None =>
          if next =? size _uri then Ok None
          else
            nm <- substr next (size _uri - next) _uri ;;
            match find_first_of (lit "?&="%string) 0 nm with
            | Some _ => Ok None
            | None =>
                _entity <- SetName nm _entity ;;
                Ok (Some (_entity, size _uri))
            end
      | Some to =>
          nm <- substr next (to - next) _uri ;;
          match find_first_of (lit "?&="%string) 0 nm with
          | Some _ => Ok None
          | None =>
              _entity <- SetName nm _entity ;;
              Ok (Some (_entity, to))
          end
      end
  end.

(** The [while (true)] of [ParseEntity]; the result is [None] where the
    code returns [false], else the index [_from] and the nested entity. *)
Fixpoint ParseEntity_loop (fuel : nat) (_uri : str) (_from : nat)
    (_entity : UriNestedEntity) : Res (option (nat * UriNestedEntity)) :=
  match fuel with
  | O => OutOfFuel
  | S fuel' =>
      one <- ParseOneEntity _uri _from ;;
      match one with
      | None => Ok None
      | Some (e, next) =>
          _entity <- AddEntity e _entity ;;
          let _from := next in
          at_end <- (if size _uri <=? next then Ok true
                     else c <- at_ _uri next ;; Ok (Ascii.eqb c "?")) ;;
          if at_end then Ok (Some (_from, _entity))
          else
            c <- at_ _uri next ;;
            if Ascii.eqb c "/" && (size _uri <=? next + 1)
            then Ok (Some (_from + 1, _entity))
            else ParseEntity_loop fuel' _uri _from _entity
      end
  end.

Definition ParseEntity (fuel : nat) (_uri : str) (_from : nat)
    (_entity : UriNestedEntity) : Res (option (nat * UriNestedEntity)) :=
  ParseEntity_loop fuel _uri _from (Clear _entity).

(** The [while (true)] of [ParseParameters]. *)
Fixpoint ParseParameters_loop (fuel : nat) (_uri : str) (from : nat)
    (_params : list str) : Res (option (list str)) :=
  match fuel with
  | O => OutOfFuel
  | S fuel' =>
      match find_char "=" from _uri with
      | None => Ok None
      | Some to =>
          if to =? size _uri - 1 then Ok None
          else
            left <- substr from (to - from) _uri ;;
            let from := to + 1 in
            match find_char "&" from _uri with
            | None =>
                right <- substr_from from _uri ;;
                Ok (Some (_params ++ [right]))
            | Some to =>
                right <- substr from (to - from) _uri ;;
                ParseParameters_loop fuel' _uri (to + 1) (_params ++ [right])
            end
      end
  end.

Definition ParseParameters (fuel : nat) (_uri : str) (_from : nat)
    : Res (option (list str)) :=
  if size _uri <=? _from then Ok (Some [])
  else
    c <- at_ _uri _from ;;
    if negb (Ascii.eqb c "?") then Ok None
    else ParseParameters_loop fuel _uri (_from + 1) [].

(** The result is the returned [bool] and the value of [_parts] after the
    call. *)
Definition Parse (fuel : nat) (_uri : str) (_parts : UriParts)
    : Res (bool * UriParts) :=
  w <- ParseWorld _uri ;;
  match w with
  | None => Ok (false, _parts)
  | Some (_world, next) =>
      e <- ParseEntity fuel _uri next UriNestedEntity_new ;;
      match e with
      | None => Ok (false, _parts)
      | Some (next, _entity) =>
          p <- ParseParameters fuel _uri next ;;
          match p with
          | None => Ok (false, _parts)
          | Some params =>
              let _parts := SetWorld _world _parts in
              _parts <- SetEntity _entity _parts ;;
              Ok (true, SetParameters params _parts)
          end
      end
  end.

(** ** [Uri] *)

Record Uri : Type := {
  parts : UriParts;
  canonicalUri : str;
  correct : bool
}.

(** [Uri(const std::string &)]. *)
Definition Uri_of_string (fuel : nat) (_uri : str) : Res Uri :=
  match _uri with
  | [] => Undefined
  | _ :: _ =>
      let uri :=
        if Ascii.eqb (last _uri " ") "/" then removelast _uri else _uri in
      r <- Parse fuel uri UriParts_new ;;
      if fst r
      then Ok {| parts := snd r; canonicalUri := uri; correct := true |}
      else Throw UnableToParse
  end.

(** The parameter part that [Uri(const UriParts &)] and [CanonicalUri]
    append: [?p=] and the first value, then [&p=] and each other value. *)
Definition append_parameters (_params : list str) (result : str) : Res str :=
  match _params with
  | [] => Ok result
  | _ :: _ =>
      p0 <- match nth_error _params 0 with
            | Some p => Ok p
            | None => Throw out_of_range
            end ;;
      for_range (List.length _params - 1) 1
        (fun i result =>
           match nth_error _params i with
           | Some p => Ok (result ++ lit "&p="%string ++ p)
           | None => Throw out_of_range
           end)
        (result ++ lit "?p="%string ++ p0)
  end.

(** [Uri(const UriParts &)]. *)
Definition Uri_of_parts (fuel : nat) (_parts : UriParts) : Res Uri :=
  let canonical := lit "/world/"%string ++ world _parts in
  nestedEntity <- UriNestedEntity_copy (entity _parts) ;;
  canonical <-
    for_range (EntityCount nestedEntity) 0
      (fun i canonical =>
         e <- Entity i nestedEntity ;;
         Ok (canonical ++ lit "/"%string ++ type e
                       ++ lit "/"%string ++ name e))
      canonical ;;
  canonical <- append_parameters (parameters _parts) canonical ;;
  r <- Parse fuel canonical UriParts_new ;;
  if fst r
  then Ok {| parts := snd r; canonicalUri := canonical; correct := true |}
  else Throw UnableToCreate.

Definition Split (this : Uri) : Res UriParts :=
  if negb (correct this) then Throw Malformed
  else
    p <- UriParts_assign (parts this) UriParts_new ;;
    Ok p.

Definition CanonicalUri (_params : list str) (this : Uri) : Res str :=
  if negb (correct this) then Throw Malformed
  else append_parameters _params (canonicalUri this).

(** [Uri(const Uri &)]. *)
Definition Uri_copy (fuel : nat) (_uri : Uri) : Res Uri :=
  s <- CanonicalUri [] _uri ;;
  Uri_of_string fuel s.

End Uri.

(** ** Vocabulary of the URI properties *)

Module UriSpec.

Import Ascii String Uri.
Local Open Scope char_scope.
Local Open Scope nat_scope.

(** No character of [s] is one of [cs]. *)
Definition free_of (cs : str) (s : str) : bool :=
  forallb (fun c => negb (existsb (Ascii.eqb c) cs)) s.

(** An entity that [Validate] accepts. *)
Definition valid_entity (e : UriEntity) : bool :=
  free_of (lit " ?"%string) (type e) && free_of (lit " ?"%string) (name e).

(** The text of a nested entity: [/type/name] for each entity. *)
Definition entities_text (es : list UriEntity) : str :=
  flat_map (fun e => lit "/"%string ++ type e ++ lit "/"%string ++ name e) es.

(** The text of a parameter list: [?p=v] then [&p=v]. *)
Definition parameters_text (ps : list str) : str :=
  match ps with
  | [] => []
  | p0 :: ps' =>
      lit "?p="%string ++ p0 ++ flat_map (fun p => lit "&p="%string ++ p) ps'
  end.

(** A parameter list as a text with any keys: [?k=v] then [&k=v]. *)
Definition query_text (kvs : list (str * str)) : str :=
  match kvs with
  | [] => []
  | kv :: kvs' =>
      "?" :: fst kv ++ "=" :: snd kv
      ++ flat_map (fun kv => "&" :: fst kv ++ "=" :: snd kv) kvs'
  end.

(** A key without blank or [=] and a value without blank or [&]. *)
Definition plain_pair (kv : str * str) : bool :=
  free_of (lit " ="%string) (fst kv) && free_of (lit " &"%string) (snd kv).

(** The text that [Uri(const UriParts &)] builds. *)
Definition canonical_text (p : UriParts) : str :=
  lit "/world/"%string ++ world p ++ entities_text (entity p)
  ++ parameters_text (parameters p).

(** An entity that survives the round trip through the text: no blank and
    no [/] or [?] in the type; a name that is not empty and has none of
    blank, [/], [?], [&], [=]. *)
Definition plain_entity (e : UriEntity) : bool :=
  free_of (lit " /?"%string) (type e)
  && free_of (lit " /?&="%string) (name e)
  && negb (List.length (name e) =? 0).

(** Parts that survive the round trip: a world name without blank or [/],
    at least one entity, every entity plain, no blank or [&] in a
    parameter, and a last parameter that is not empty. *)
Definition plain_parts (p : UriParts) : bool :=
  free_of (lit " /"%string) (world p)
  && negb (List.length (entity p) =? 0)
  && forallb plain_entity (entity p)
  && forallb (free_of (lit " &"%string)) (parameters p)
  && negb (List.length (last (parameters p) (lit "x"%string)) =? 0).

End UriSpec.

(** ** A URI used by the worked examples *)

Module UriScenario.

Import Ascii String Uri UriSpec.
Local Open Scope char_scope.

Definition model_1 : UriEntity :=
  {| type := lit "model"%string; name := lit "model_1"%string |}.

Definition link_1 : UriEntity :=
  {| type := lit "link"%string; name := lit "link_1"%string |}.

Definition pose_parts : UriParts :=
  {| world := lit "default"%string;
     entity := [model_1; link_1];
     parameters := [lit "pose"%string; lit "lin_vel"%string] |}.

Definition pose_text : str :=
  lit "/world/default/model/model_1/link/link_1?p=pose&p=lin_vel"%string.

Definition pose_uri : Uri :=
  {| parts := pose_parts; canonicalUri := pose_text; correct := true |}.

(** The same parameters written with other keys. *)
Definition keyed_pairs : list (str * str) :=
  [(lit "a"%string, lit "pose"%string);
   (lit "key"%string, lit "lin_vel"%string)].

Definition keyed_text : str :=
  lit "/world/default/model/model_1/link/link_1?a=pose&key=lin_vel"%string.

(** A store with the example nested entity in object 0 and nothing in the
    other objects. *)
Definition pose_store : NestedStore :=
  fun r => match r with
           | O => [model_1; link_1]
           | _ => []
           end.

(** A text whose first type has a question mark. *)
Definition marked_text : str :=
  lit "/world/default/mo?del/model_1"%string.

End UriScenario.

(** * Properties *)

Unset Implicit Arguments.

Ltac unfold_methods :=
  cbv [PhysicsLoop_body PhysicsLoop_step MainLoop_body bind ret this assign
       emit when GetRealTime GetWallTime advance_time locked_world_update
       sleep_request timeout_expired SetStepInc SetPaused SetSimTime
       SetUserQuit SetGuiEnabled SetRenderEngineEnabled SetTimeout
       SetPhysicsEnabled SetSelectedEntity Close Fini Init Load Load_xml
       Load_config Load_ogre Load_gui Load_render Load_world guarded andthen
       IsPaused GetStepInc GetSimTime GetPauseTime sim ticks trace
       clock_log].

Ltac split_if :=
  match goal with
  | |- context [if ?b then _ else _] => destruct b eqn:?
  | |- context [match ?o with Some _ => _ | None => _ end] => destruct o eqn:?
  end.

Ltac crunch := unfold_methods; cbn; repeat (split_if; cbn).

(** Close a case whose boolean tests contradict each other. *)
Ltac absurd_tests :=
  match goal with
  | H1 : ?b = _, H2 : context [?b] |- _ =>
      rewrite H1 in H2; cbn in H2; discriminate H2
  end.

(** Close a case in which a test has two values. *)
Ltac impossible_tests :=
  match goal with
  | H : @eq bool _ _ |- _ => cbn in H; discriminate H
  end.

(** Put back the value of each test that a case analysis has recorded. *)
Ltac rewrite_tests :=
  repeat match goal with
         | H : ?b = true |- context [?b] =>
             lazymatch b with
             | true => fail
             | false => fail
             | _ => rewrite H
             end
         | H : ?b = false |- context [?b] =>
             lazymatch b with
             | true => fail
             | false => fail
             | _ => rewrite H
             end
         end.

(** ** Doubles *)

(** No double is both below and above zero. *)
Lemma double_sign_exclusive (x : float) :
  (x <? 0)%float = true -> (0 <? x)%float = true -> False.
Proof.
  rewrite !ltb_spec.
  destruct (Prim2SF x) as [s|s| |s mant e]; try destruct s;
    vm_compute; congruence.
Qed.

(** ** Traces and locks *)

Lemma held_after_app (held : list Mutex) (t1 t2 : list Event) :
  held_after held (t1 ++ t2) = held_after (held_after held t1) t2.
Proof.
  revert held. induction t1 as [|e t1 IH]; intros held; [reflexivity|].
  destruct e; cbn; apply IH.
Qed.

(** Where an element sits in a concatenation. *)
Lemma in_app_split_cases (A : Type) (pre post t1 t2 : list A) (e : A) :
  t1 ++ t2 = pre ++ e :: post ->
  (exists mid, t1 = pre ++ e :: mid /\ post = mid ++ t2) \/
  (exists mid, pre = t1 ++ mid /\ t2 = mid ++ e :: post).
Proof.
  revert pre. induction t1 as [|a t1 IH]; intros pre H.
  - right. exists pre. auto.
  - destruct pre as [|b pre]; cbn in H; injection H as -> H.
    + left. exists t1. subst. auto.
    + destruct (IH pre H) as [(mid & -> & ->) | (mid & -> & ->)].
      * left. exists mid. auto.
      * right. exists mid. auto.
Qed.

(** The discipline is kept when a trace that ends with no lock held is
    followed by another disciplined trace. *)
Lemma LockDiscipline_app (t1 t2 : list Event) :
  LockDiscipline t1 -> held_after [] t1 = [] -> LockDiscipline t2 ->
  LockDiscipline (t1 ++ t2).
Proof.
  intros (U1 & S1 & D1) Hbal (U2 & S2 & D2). repeat split.
  - intros pre post H.
    destruct (in_app_split_cases _ _ _ _ _ _ H) as [(mid & -> & ->) | (mid & -> & ->)].
    + destruct (U1 _ _ eq_refl) as (pre' & post' & -> & Hh & ->).
      exists pre', (post' ++ t2). auto.
    + destruct (U2 _ _ eq_refl) as (pre' & post' & -> & Hh & ->).
      exists (t1 ++ pre'), post'. rewrite held_after_app, Hbal, app_assoc. auto.
  - intros pre req post H.
    destruct (in_app_split_cases _ _ _ _ _ _ H) as [(mid & -> & ->) | (mid & -> & ->)].
    + eapply S1; reflexivity.
    + rewrite held_after_app, Hbal. eapply S2; reflexivity.
  - intros pre post H.
    destruct (in_app_split_cases _ _ _ _ _ _ H) as [(mid & -> & ->) | (mid & -> & ->)].
    + eapply D1; reflexivity.
    + rewrite held_after_app, Hbal. eapply D2; reflexivity.
Qed.

Lemma LockDiscipline_nil : LockDiscipline [].
Proof.
  repeat split; intros; destruct pre; discriminate.
Qed.

(** Enumerate the positions of an event in a concrete trace. *)
Ltac positions H pre :=
  repeat (destruct pre as [|? pre];
          cbn [app] in H;
          [ try discriminate H | try discriminate H; injection H as -> H ]).

Lemma pass_events_disciplined (req : timespec) (tail : list Event) :
  In tail restep_tails ->
  LockDiscipline (pass_events req tail) /\
  held_after [] (pass_events req tail) = [].
Proof.
  intros Hin. cbn in Hin.
  destruct Hin as [<- | [<- | [<- | []]]]; (split; [|reflexivity]);
    unfold pass_events; cbn [app]; repeat split.
  all: intros; match goal with
       | H : _ = ?pre ++ _ |- _ => symmetry in H; positions H pre
       end.
  all: try (inversion H; subst; clear H).
  all: try reflexivity.
  all: eexists [], _; repeat split; reflexivity.
Qed.

Section PhysicsLoopFacts.

Context {TC : TimeClass}.
Variable wall : nat -> Time.
Variables (step : Time) (rate : float) (period : Time).
Local Open Scope time_scope.

Local Abbreviation body := (PhysicsLoop_body wall step rate period).
Local Abbreviation loop_step := (PhysicsLoop_step wall step rate period).
Local Abbreviation while n := (PhysicsLoop_while wall n step rate period).
Local Abbreviation body_with others :=
  (PhysicsLoop_body_with wall others step rate period).

Lemma PhysicsLoop_step_unfold (m : Machine) :
  loop_step m =
    if userQuit (sim m) then (Exited, m)
    else ((if fst (body m) then Exited else Running), snd (body m)).
Proof.
  unfold PhysicsLoop_step, bind, this, ret.
  destruct (userQuit (sim m)); [reflexivity|].
  destruct (body m) as [[] m']; reflexivity.
Qed.

Lemma PhysicsLoop_while_S (n : nat) (m : Machine) :
  while (S n) m =
    match fst (loop_step m) with
    | Exited => (Exited, snd (loop_step m))
    | Running => while n (snd (loop_step m))
    end.
Proof.
  cbn [PhysicsLoop_while]. unfold bind, ret.
  destruct (loop_step m) as [[] m']; reflexivity.
Qed.

(** A pass of the physics loop writes neither [startTime], nor [timeout],
    nor a subsystem switch. *)
Lemma body_same_setup (m : Machine) :
  same_setup (sim m) (sim (snd (body m))).
Proof.
  destruct m as [s t tr cl]. unfold same_setup, switches.
  crunch; auto.
Qed.

(** A pass that leaves by [break] has set [userQuit]. *)
Lemma body_break_quits (m : Machine) :
  fst (body m) = true -> userQuit (sim (snd (body m))) = true.
Proof.
  destruct m as [s t tr cl]. crunch; auto; discriminate.
Qed.

(** A pass that does not leave by [break] does not write [userQuit]. *)
Lemma body_continue_quit (m : Machine) :
  fst (body m) = false -> userQuit (sim (snd (body m))) = userQuit (sim m).
Proof.
  destruct m as [s t tr cl]. crunch; auto; discriminate.
Qed.

Lemma body_paused (m : Machine) :
  pause (sim m) = true -> stepInc (sim m) = false ->
  simTime (sim (snd (body m))) = simTime (sim m) /\
  pauseTime (sim (snd (body m))) = pauseTime (sim m) + step /\
  pause (sim (snd (body m))) = true /\
  stepInc (sim (snd (body m))) = false.
Proof.
  intros Hp Hs. destruct m as [s t tr cl]. cbn in Hp, Hs.
  crunch; rewrite ?Hp, ?Hs in *; cbn in *; try discriminate; auto.
Qed.


Lemma body_stepping (m : Machine) :
  stepInc (sim m) = true ->
  simTime (sim (snd (body m))) = simTime (sim m) + step /\
  pauseTime (sim (snd (body m))) = pauseTime (sim m) /\
  (fst (body m) = false ->
     pause (sim (snd (body m))) = true /\
     stepInc (sim (snd (body m))) = false) /\
  (fst (body m) = true ->
     pause (sim (snd (body m))) = pause (sim m) /\
     stepInc (sim (snd (body m))) = true).
Proof.
  intros Hs. destruct m as [s t tr cl]. cbn in Hs.
  crunch; rewrite ?Hs in *; cbn in *;
    repeat split; intros; try discriminate; auto;
    match goal with
    | H : Bool.eqb ?p true = true |- _ => destruct p; [reflexivity | discriminate]
    | H : negb (pause s) || true = false |- _ =>
        rewrite orb_true_r in H; discriminate
    | _ => idtac
    end.
Qed.

(** The events of a pass: the locked world update, the sleep, the interface
    update, and one of the three tails. *)
Lemma body_trace (m : Machine) :
  let s' := sim (snd (advance_time step m)) in
  let st := startTime (sim m) in
  let req :=
    fst (sleep_request wall rate period
           (wall (2 + ticks m) - st) (wall (1 + ticks m) - st)
           (mkMachine s' (3 + ticks m) (trace m) (clock_log m))) in
  exists tail,
    In tail restep_tails /\
    trace (snd (body m)) = trace m ++ pass_events req tail.
Proof.
  destruct m as [s t tr cl]. unfold pass_events, restep_tails.
  crunch;
    (eexists; split; cycle 1;
     [ rewrite <- ?app_assoc; cbn [app]; reflexivity | cbn; auto ]).
Qed.

(** A pass reads the clock at least three times. *)
Lemma body_ticks (m : Machine) :
  (3 + ticks m <= ticks (snd (body m)))%nat.
Proof.
  destruct m as [s t tr cl]. crunch; lia.
Qed.

(** The pass with the other threads doing nothing is the pass of the
    loop. *)
Lemma body_with_undisturbed (m : Machine) :
  body_with undisturbed m = body m.
Proof. reflexivity. Qed.

Ltac unfold_with :=
  cbv [PhysicsLoop_body_with advance_time_with request_at undisturbed
       PassPoint_eqb].

Ltac close_pass_case :=
  try impossible_tests;
  try match goal with
      | H : negb _ || true = false |- _ =>
          rewrite orb_true_r in H; discriminate H
      end;
  repeat split; intros; try discriminate; try reflexivity;
  try assumption;
  try match goal with
      | H : Bool.eqb ?p true = true |- _ =>
          destruct p; [reflexivity | discriminate H]
      end.

(** A step request made by another thread during a pass that started with
    a step requested: the pass advances [simTime] once; the reset of
    line 714 clears [stepInc] after any request made before it. *)
Lemma body_with_request_stepping (pt : PassPoint) (m : Machine) :
  stepInc (sim m) = true ->
  let r := body_with (request_at pt) m in
  simTime (sim (snd r)) = simTime (sim m) + step /\
  pauseTime (sim (snd r)) = pauseTime (sim m) /\
  (fst r = false ->
     pause (sim (snd r)) = true /\
     stepInc (sim (snd r)) = negb (before_reset pt)) /\
  (fst r = true ->
     userQuit (sim (snd r)) = true /\ stepInc (sim (snd r)) = true).
Proof.
  intros Hs r. subst r. destruct m as [s t tr cl]. cbn [sim] in Hs.
  destruct pt; unfold_with; crunch; rewrite ?Hs in *; cbn in *;
    close_pass_case.
Qed.

(** A step request made by another thread during a pass that started
    paused with no step requested. *)
Lemma body_with_request_idle (pt : PassPoint) (m : Machine) :
  pause (sim m) = true ->
  stepInc (sim m) = false ->
  let r := body_with (request_at pt) m in
  (read_by_test pt = true ->
     simTime (sim (snd r)) = simTime (sim m) + step /\
     pauseTime (sim (snd r)) = pauseTime (sim m) /\
     (fst r = false ->
        pause (sim (snd r)) = true /\ stepInc (sim (snd r)) = false)) /\
  (after_test pt = true ->
     simTime (sim (snd r)) = simTime (sim m) /\
     pauseTime (sim (snd r)) = pauseTime (sim m) + step /\
     (fst r = false ->
        pause (sim (snd r)) = true /\ stepInc (sim (snd r)) = true)).
Proof.
  intros Hp Hs r. subst r. destruct m as [s t tr cl]. cbn [sim] in Hp, Hs.
  destruct pt; unfold_with; crunch; rewrite ?Hp, ?Hs in *; cbn in *;
    close_pass_case.
Qed.

(** C1 (as amended).  A step request is a call of [SetStepInc(true)] by
    another thread.
    1. Made between two passes, it makes the next pass advance [simTime] by
    exactly one step, whether or not the simulator is paused, and leave
    [pauseTime] alone; if the pass does not leave the loop through the
    timeout check, it ends with [pause = true] and [stepInc = false] and the
    pass after it does not advance [simTime] again; if it leaves through the
    timeout check, [userQuit] is set and neither flag is written.
    2. Made during a pass that started paused with no step requested: at
    the top of the pass, before the test of line 651, it is consumed by that
    pass as in 1; after the test, the pass only adds to [pauseTime], the
    request stays, and the next pass advances [simTime] by one step and
    pauses again.
    3. Made during a pass that started with a step requested, before the
    reset of line 714, it is lost: the pass advances [simTime] once, ends
    paused with [stepInc = false], and the next pass adds to [pauseTime]
    instead of stepping.  Made between the two resets it stays, and the next
    pass steps again. *)
Theorem single_step_contract (pt : PassPoint) (m : Machine) :
  let quiet := body (snd (SetStepInc true m)) in
  let r := body_with (request_at pt) m in
  let next := body (snd r) in
  body_with undisturbed m = body m /\
  (simTime (sim (snd quiet)) = simTime (sim m) + step /\
   pauseTime (sim (snd quiet)) = pauseTime (sim m) /\
   (fst quiet = false ->
      pause (sim (snd quiet)) = true /\
      stepInc (sim (snd quiet)) = false /\
      simTime (sim (snd (body (snd quiet)))) = simTime (sim m) + step) /\
   (fst quiet = true ->
      userQuit (sim (snd quiet)) = true /\
      stepInc (sim (snd quiet)) = true /\
      pause (sim (snd quiet)) = pause (sim m))) /\
  (pause (sim m) = true -> stepInc (sim m) = false ->
   (read_by_test pt = true ->
      simTime (sim (snd r)) = simTime (sim m) + step /\
      pauseTime (sim (snd r)) = pauseTime (sim m) /\
      (fst r = false ->
         pause (sim (snd r)) = true /\
         stepInc (sim (snd r)) = false /\
         simTime (sim (snd next)) = simTime (sim (snd r)))) /\
   (after_test pt = true ->
      simTime (sim (snd r)) = simTime (sim m) /\
      pauseTime (sim (snd r)) = pauseTime (sim m) + step /\
      (fst r = false ->
         pause (sim (snd r)) = true /\
         stepInc (sim (snd r)) = true /\
         simTime (sim (snd next)) = simTime (sim m) + step /\
         (fst next = false ->
            pause (sim (snd next)) = true /\
            stepInc (sim (snd next)) = false)))) /\
  (stepInc (sim m) = true -> fst r = false ->
   simTime (sim (snd r)) = simTime (sim m) + step /\
   pause (sim (snd r)) = true /\
   (before_reset pt = true ->
      stepInc (sim (snd r)) = false /\
      simTime (sim (snd next)) = simTime (sim (snd r)) /\
      pauseTime (sim (snd next)) = pauseTime (sim (snd r)) + step) /\
   (before_reset pt = false ->
      stepInc (sim (snd r)) = true /\
      simTime (sim (snd next)) = simTime (sim (snd r)) + step)).
Proof.
  intros quiet r next.
  split; [apply body_with_undisturbed|]. split; [|split].
  - set (m1 := snd (SetStepInc true m)) in *.
    assert (Hs : stepInc (sim m1) = true) by reflexivity.
    destruct (body_stepping m1 Hs) as (Hsim & Hpt & Hcont & Hbrk).
    fold quiet in Hsim, Hpt, Hcont, Hbrk.
    repeat split.
    + exact Hsim.
    + exact Hpt.
    + apply Hcont; assumption.
    + apply Hcont; assumption.
    + destruct (Hcont H) as [Hp Hi].
      destruct (body_paused (snd quiet) Hp Hi) as (Hnext & _).
      rewrite Hnext. exact Hsim.
    + apply body_break_quits; assumption.
    + apply Hbrk; assumption.
    + apply Hbrk; assumption.
  - intros Hp Hs.
    destruct (body_with_request_idle pt m Hp Hs) as [Hread Hafter].
    fold r in Hread, Hafter. split.
    + intros Hpt. destruct (Hread Hpt) as (Hsim & Hpause & Hend).
      split; [exact Hsim|]. split; [exact Hpause|].
      intros Hleft. destruct (Hend Hleft) as [Hp' Hs'].
      split; [exact Hp'|]. split; [exact Hs'|].
      apply (body_paused (snd r) Hp' Hs').
    + intros Hpt. destruct (Hafter Hpt) as (Hsim & Hpause & Hend).
      split; [exact Hsim|]. split; [exact Hpause|].
      intros Hleft. destruct (Hend Hleft) as [Hp' Hs'].
      split; [exact Hp'|]. split; [exact Hs'|].
      destruct (body_stepping (snd r) Hs') as (Hsim2 & _ & Hcont & _).
      fold next in Hsim2, Hcont.
      split; [rewrite Hsim2, Hsim; reflexivity | exact Hcont].
  - intros Hs Hleft.
    destruct (body_with_request_stepping pt m Hs) as (Hsim & _ & Hend & _).
    fold r in Hsim, Hend. destruct (Hend Hleft) as [Hp' Hs'].
    split; [exact Hsim|]. split; [exact Hp'|]. split; intros Hpt.
    + rewrite Hpt in Hs'. cbn in Hs'. split; [exact Hs'|].
      destruct (body_paused (snd r) Hp' Hs') as (H1 & H2 & _).
      split; assumption.
    + rewrite Hpt in Hs'. cbn in Hs'. split; [exact Hs'|].
      apply (body_stepping (snd r) Hs').
Qed.

(** C2.  A pass of the physics loop that starts with [pause = true] and
    [stepInc = false] leaves [simTime] unchanged and adds exactly one step to
    [pauseTime]; it ends in the same regime.  Over any number [n] of passes of
    the loop started there, [simTime] is unchanged and [pauseTime] has grown
    by one step per pass executed ([n] passes unless the loop was left). *)
Theorem paused_passes_freeze_simTime (m : Machine) :
  pause (sim m) = true ->
  stepInc (sim m) = false ->
  (simTime (sim (snd (body m))) = simTime (sim m) /\
   pauseTime (sim (snd (body m))) = pauseTime (sim m) + step /\
   pause (sim (snd (body m))) = true /\
   stepInc (sim (snd (body m))) = false) /\
  forall n : nat,
    simTime (sim (snd (while n m))) = simTime (sim m) /\
    exists k : nat,
      (k <= n)%nat /\
      pauseTime (sim (snd (while n m))) =
        Nat.iter k (fun t => t + step) (pauseTime (sim m)) /\
      (userQuit (sim (snd (while n m))) = false -> k = n).
Proof.
  intros Hp Hs. split; [apply body_paused; assumption|].
  intros n. revert m Hp Hs.
  induction n as [|n IH]; intros m Hp Hs.
  - cbn. split; [reflexivity|]. exists 0%nat. cbn. auto.
  - rewrite PhysicsLoop_while_S, PhysicsLoop_step_unfold.
    destruct (userQuit (sim m)) eqn:Hq; cbn [fst snd].
    + split; [reflexivity|]. exists 0%nat. cbn.
      repeat split; [lia | congruence].
    + destruct (body_paused m Hp Hs) as (Hsim & Hpt & Hp' & Hs').
      destruct (fst (body m)) eqn:Hleft; cbn [fst snd].
      * split; [exact Hsim|]. exists 1%nat.
        repeat split; [lia | exact Hpt |].
        rewrite (body_break_quits m Hleft). discriminate.
      * destruct (IH (snd (body m)) Hp' Hs') as (Hsim2 & k & Hk & Hpt2 & Hq2).
        split; [congruence|]. exists (S k).
        split; [lia|]. split.
        -- rewrite Hpt2, Hpt. symmetry.
           exact (Nat.iter_succ_r k _ (fun t => t + step) (pauseTime (sim m))).
        -- intros Hq3. f_equal. exact (Hq2 Hq3).
Qed.

Lemma advance_time_startTime (m : Machine) :
  startTime (sim (snd (advance_time step m))) = startTime (sim m).
Proof.
  destruct m as [s t tr cl]. crunch; reflexivity.
Qed.

(** The request computed at lines 671-695, read off [sleep_request] at any
    machine: [r1] is the clock reading of the comparison, [r2] the reading of
    the subtraction. *)
Lemma sleep_request_policy (currTime lastTime : Time) (m : Machine) :
  let s := sim m in
  let total := simTime s + pauseTime s in
  let r1 := wall (ticks m) - startTime s in
  let r2 := wall (S (ticks m)) - startTime s in
  let elapsed := currTime - lastTime in
  let req := fst (sleep_request wall rate period currTime lastTime m) in
  ((rate <? 0)%float = true -> (total >? r1) = true ->
     req = timespec_of (total - r2)) /\
  ((0 <? rate)%float = true -> (elapsed <? period) = true ->
     req = timespec_of (period - elapsed)) /\
  (~ ((rate <? 0)%float = true /\ (total >? r1) = true) ->
   ~ ((0 <? rate)%float = true /\ (elapsed <? period) = true) ->
     req = default_req).
Proof.
  destruct m as [s t tr cl]. cbn [sim ticks].
  crunch; repeat split; intros; try reflexivity; try congruence;
    try (exfalso; eauto using double_sign_exclusive; fail);
    try (exfalso; tauto).
  all: match goal with
       | H : _ && _ = true |- _ => apply andb_true_iff in H; tauto
       | H : _ && _ = false |- _ =>
           apply andb_false_iff in H; destruct H; congruence
       end.
Qed.

(** The clock reads of a pass, as the clock log has them: the first three
    are those of [pass_reads]; with a negative update rate the fourth is made
    right after the third, before the sleep, and so is the fifth when the
    simulated time is ahead. *)
Lemma body_clock_log (m : Machine) :
  let s' := sim (snd (advance_time step m)) in
  let real := fun k : nat => wall (k + ticks m)%nat - startTime (sim m) in
  let total := simTime s' + pauseTime s' in
  let after_update := List.length (trace m ++ locked_update_events) in
  exists later : list (nat * nat),
    clock_log (snd (body m)) = clock_log m ++ pass_reads m ++ later /\
    ((rate <? 0)%float = true ->
     exists later' : list (nat * nat),
       later = ((3 + ticks m)%nat, after_update) :: later' /\
       ((total >? real 3%nat) = true ->
        exists later'' : list (nat * nat),
          later' = ((4 + ticks m)%nat, after_update) :: later'')).
Proof.
  destruct m as [s t tr cl]. unfold pass_reads, locked_update_events.
  crunch; eexists;
    (split; [rewrite <- ?app_assoc; cbn [app]; reflexivity|]);
    intros; try discriminate;
    eexists; (split; [rewrite <- ?app_assoc; cbn [app]; reflexivity|]);
    intros; try impossible_tests; try absurd_tests; eexists; reflexivity.
Qed.

(** The timeout check, read off [timeout_expired] at any machine. *)
Lemma timeout_expired_spec (m : Machine) :
  fst (timeout_expired wall m) =
    (0 <? timeout (sim m))%float
    && (wall (ticks m) - startTime (sim m) >? Time_of_double (timeout (sim m))).
Proof.
  destruct m as [s t tr cl]. crunch; reflexivity.
Qed.

(** Whether a pass leaves through the timeout check is decided by the last
    clock reading of the pass. *)
Lemma body_break_spec (m : Machine) :
  fst (body m) =
    (0 <? timeout (sim m))%float
    && (wall (pred (ticks (snd (body m)))) - startTime (sim m)
        >? Time_of_double (timeout (sim m))).
Proof.
  destruct m as [s t tr cl]. crunch; congruence.
Qed.

Lemma body_ticks_le (m : Machine) :
  (ticks m <= pred (ticks (snd (body m))))%nat /\
  (pred (ticks (snd (body m))) < ticks (snd (body m)))%nat.
Proof.
  pose proof (body_ticks m). lia.
Qed.

(** If the loop ends with [userQuit] set although it started with it
    clear, the loop has read a real time above a positive timeout. *)
Lemma while_quit_after_timeout (n : nat) (m : Machine) :
  userQuit (sim m) = false ->
  userQuit (sim (snd (while n m))) = true ->
  (0 <? timeout (sim m))%float = true /\
  exists k : nat,
    (ticks m <= k < ticks (snd (while n m)))%nat /\
    (wall k - startTime (sim m) >? Time_of_double (timeout (sim m))) = true.
Proof.
  revert m. induction n as [|n IH]; intros m Hq Hend.
  - cbn in Hend. congruence.
  - rewrite PhysicsLoop_while_S, PhysicsLoop_step_unfold in Hend |- *.
    rewrite Hq in Hend |- *. cbn [fst snd] in Hend |- *.
    destruct (body_same_setup m) as (Hst & Hto & _).
    pose proof (body_ticks_le m) as [Hlo Hhi].
    destruct (fst (body m)) eqn:Hleft; cbn [fst snd] in Hend |- *.
    + rewrite body_break_spec in Hleft.
      apply andb_true_iff in Hleft. destruct Hleft as [Hpos Hgt].
      split; [exact Hpos|]. eexists. split; [|exact Hgt]. lia.
    + rewrite <- (body_continue_quit m Hleft) in Hq.
      destruct (IH _ Hq Hend) as (Hpos & k & Hk & Hgt).
      rewrite Hst, Hto in *. split; [exact Hpos|].
      exists k. split; [lia | exact Hgt].
Qed.

(** C4 (as amended).  A pass of the physics loop leaves through the timeout
    check exactly when the timeout is positive and the real time read by the
    check, which is the last clock reading of the pass, is above it; it then
    sets [userQuit] and the loop is left; otherwise the pass does not touch
    [userQuit].  Hence the loop sets [userQuit] only after it has read a real
    time above a positive timeout, and never with a timeout that is not
    positive. *)
Theorem timeout_contract (m : Machine) :
  let T := timeout (sim m) in
  let r := body m in
  fst r =
    (0 <? T)%float
    && (wall (pred (ticks (snd r))) - startTime (sim m) >? Time_of_double T) /\
  (fst r = true ->
     userQuit (sim (snd r)) = true /\
     (userQuit (sim m) = false -> fst (loop_step m) = Exited)) /\
  (fst r = false -> userQuit (sim (snd r)) = userQuit (sim m)) /\
  (forall n : nat,
     userQuit (sim m) = false ->
     userQuit (sim (snd (while n m))) = true ->
     (0 <? T)%float = true /\
     exists k : nat,
       (ticks m <= k < ticks (snd (while n m)))%nat /\
       (wall k - startTime (sim m) >? Time_of_double T) = true) /\
  (forall n : nat,
     (0 <? T)%float = false ->
     userQuit (sim (snd (while n m))) = userQuit (sim m)).
Proof.
  intros T r. split; [apply body_break_spec|]. split; [|split; [|split]].
  - intros Hleft. split; [apply body_break_quits; exact Hleft|].
    intros Hq. rewrite PhysicsLoop_step_unfold, Hq. cbn [fst].
    fold r. rewrite Hleft. reflexivity.
  - apply body_continue_quit.
  - intros n. apply while_quit_after_timeout.
  - intros n Hnp.
    destruct (userQuit (sim m)) eqn:Hq.
    + destruct n; [cbn; exact Hq|].
      rewrite PhysicsLoop_while_S, PhysicsLoop_step_unfold, Hq. exact Hq.
    + destruct (userQuit (sim (snd (while n m)))) eqn:Hend; [|reflexivity].
      destruct (while_quit_after_timeout n m Hq Hend) as [Hpos _].
      unfold T in Hnp. congruence.
Qed.

(** The events of any number of passes keep the discipline and end with no
    lock held. *)
Lemma while_trace (n : nat) (m : Machine) :
  exists tr : list Event,
    trace (snd (while n m)) = trace m ++ tr /\
    LockDiscipline tr /\
    held_after [] tr = [].
Proof.
  revert m. induction n as [|n IH]; intros m.
  - exists []. cbn. rewrite app_nil_r. auto using LockDiscipline_nil.
  - rewrite PhysicsLoop_while_S, PhysicsLoop_step_unfold.
    destruct (userQuit (sim m)); cbn [fst snd].
    + exists []. rewrite app_nil_r. auto using LockDiscipline_nil.
    + destruct (body_trace m) as (tail & Hin & Htr).
      destruct (pass_events_disciplined
                  (fst (sleep_request wall rate period
                     (wall (2 + ticks m) - startTime (sim m))
                     (wall (1 + ticks m) - startTime (sim m))
                     (mkMachine (sim (snd (advance_time step m)))
                        (3 + ticks m) (trace m) (clock_log m))))
                  tail Hin) as [Hd Hb].
      destruct (fst (body m)); cbn [fst snd].
      * eexists. split; [exact Htr|]. auto.
      * destruct (IH (snd (body m))) as (tr & Htr2 & Hd2 & Hb2).
        eexists. split; [rewrite Htr2, Htr, <- app_assoc; reflexivity|].
        split; [apply LockDiscipline_app; assumption|].
        rewrite held_after_app, Hb. exact Hb2.
Qed.

Lemma while_same_setup (n : nat) (m : Machine) :
  same_setup (sim m) (sim (snd (while n m))).
Proof.
  revert m. induction n as [|n IH]; intros m.
  - cbn. repeat split.
  - rewrite PhysicsLoop_while_S, PhysicsLoop_step_unfold.
    destruct (userQuit (sim m)); cbn [fst snd]; [repeat split|].
    destruct (body_same_setup m) as (A1 & A2 & A3).
    destruct (fst (body m)); cbn [fst snd]; [repeat split; assumption|].
    destruct (IH (snd (body m))) as (B1 & B2 & B3).
    repeat split; congruence.
Qed.

End PhysicsLoopFacts.

(** C3 (as amended).  In every pass of the physics loop, with the period
    [1/rate] that [PhysicsLoop] computes, exactly one [nanosleep] is issued,
    after the locked world update, and its request follows this policy.
    With a negative update rate and [simTime + pauseTime] above the real
    time read after the update, the request is [simTime + pauseTime] minus
    the real time, read again.  With a positive rate, the elapsed time is
    the difference of the reading made just before the locks of the world
    update are taken and the reading made just after they are released: the
    time spent in the world update, not the time since the top of the pass,
    whose reading is not used; if it is below the period the request is the
    rest of the period.  In every other case the request is the default of
    10000 ns, which is not zero.  The clock log places the readings among
    the calls. *)
Theorem sleep_policy {TC : TimeClass} (wall : nat -> Time) (step : Time)
    (rate : float) (m : Machine) :
  let period := Time_of_double (1 / rate)%float in
  let r := PhysicsLoop_body wall step rate period m in
  let s' := sim (snd (advance_time step m)) in
  let real := fun k : nat =>
    Time_sub (wall (k + ticks m)%nat) (startTime (sim m)) in
  let elapsed := Time_sub (real 2%nat) (real 1%nat) in
  let total := Time_add (simTime s') (pauseTime s') in
  let after_update := List.length (trace m ++ locked_update_events) in
  exists (req : timespec) (tail : list Event) (later : list (nat * nat)),
    trace (snd r) = trace m ++ pass_events req tail /\
    pass_events req tail =
      locked_update_events ++
      [EvNanosleep req; EvWorldUpdateSimulationIface] ++ tail /\
    In tail restep_tails /\
    clock_log (snd r) = clock_log m ++ pass_reads m ++ later /\
    ((rate <? 0)%float = true ->
     (exists later' : list (nat * nat),
        later = ((3 + ticks m)%nat, after_update) :: later' /\
        (Time_gtb total (real 3%nat) = true ->
         exists later'' : list (nat * nat),
           later' = ((4 + ticks m)%nat, after_update) :: later'')) /\
     (Time_gtb total (real 3%nat) = true ->
      req = timespec_of (Time_sub total (real 4%nat)))) /\
    ((0 <? rate)%float = true -> Time_ltb elapsed period = true ->
       req = timespec_of (Time_sub period elapsed)) /\
    (~ ((rate <? 0)%float = true /\ Time_gtb total (real 3%nat) = true) ->
     ~ ((0 <? rate)%float = true /\ Time_ltb elapsed period = true) ->
       req = default_req) /\
    default_req = {| tv_sec := 0; tv_nsec := 10000 |} /\
    default_req <> {| tv_sec := 0; tv_nsec := 0 |}.
Proof.
  intros period r s' real elapsed total after_update.
  destruct (body_trace wall step rate period m) as (tail & Hin & Htr).
  destruct (body_clock_log wall step rate period m)
    as (later & Hlog & Hneg).
  eexists. exists tail, later.
  split; [exact Htr|]. split; [reflexivity|]. split; [exact Hin|].
  split; [exact Hlog|].
  pose proof (sleep_request_policy wall rate period
                (Time_sub (wall (2 + ticks m)) (startTime (sim m)))
                (Time_sub (wall (1 + ticks m)) (startTime (sim m)))
                (mkMachine s' (3 + ticks m) (trace m) (clock_log m))) as P.
  cbn [sim ticks] in P. unfold s' in P.
  rewrite advance_time_startTime in P. fold s' in P.
  destruct P as (P1 & P2 & P3).
  split; [intros Hr; split; [exact (Hneg Hr) | exact (P1 Hr)]|].
  split; [exact P2|]. split; [exact P3|].
  split; [reflexivity | discriminate].
Qed.

(** C6.  In the events of a call of [PhysicsLoop], whatever the number of
    passes: the world is updated only right after [MRMutex] and then
    [MDMutex] have been acquired, in this order, from a state where the
    thread holds no lock, and both are released, [MDMutex] first, right after
    the update; the thread holds no lock whenever it sleeps; [MDMutex] is
    never acquired without [MRMutex] held.  Each pass updates the world once,
    inside the two locks, and ends with no lock held. *)
Theorem physics_lock_discipline {TC : TimeClass} (wall : nat -> Time)
    (pe : PhysicsEngine) (fuel : nat) (m : Machine) :
  (exists tr : list Event,
     trace (snd (PhysicsLoop wall pe fuel m)) = trace m ++ tr /\
     LockDiscipline tr /\
     held_after [] tr = []) /\
  (exists (req : timespec) (tail : list Event),
     trace (snd (PhysicsLoop_body wall (GetStepTime pe) (GetUpdateRate pe)
                   (Time_of_double (1 / GetUpdateRate pe)%float) m)) =
       trace m ++ pass_events req tail /\
     LockDiscipline (pass_events req tail) /\
     held_after [] (pass_events req tail) = []).
Proof.
  split.
  - cbv [PhysicsLoop bind emit GetRealTime GetWallTime this ret].
    cbn [fst snd sim ticks trace].
    match goal with
    | |- context [PhysicsLoop_while wall fuel ?s ?r ?p ?m0] =>
        destruct (while_trace wall s r p fuel m0) as (tr & Htr & Hd & Hb)
    end.
    exists (EvPhysicsInitForThread :: tr).
    rewrite Htr. cbn [trace]. rewrite <- app_assoc. split; [reflexivity|].
    split.
    + apply (LockDiscipline_app [EvPhysicsInitForThread] tr); auto.
      repeat split; intros;
        match goal with
        | H : _ = ?pre ++ _ |- _ => symmetry in H; positions H pre
        end.
    + exact Hb.
  - destruct (body_trace wall (GetStepTime pe) (GetUpdateRate pe)
                (Time_of_double (1 / GetUpdateRate pe)%float) m)
      as (tail & Hin & Htr).
    eexists. exists tail. split; [exact Htr|].
    apply pass_events_disciplined. exact Hin.
Qed.

(** Witness of [single_step_contract]: a paused simulator with no step
    requested, under a steady clock and a 1 kHz engine; the request is made
    after the sleep of a pass, which only adds to [pauseTime]; the next pass
    makes the step and pauses again. *)
Lemma single_step_contract_witness :
  let m := Scenario.paused_sim in
  let r := PhysicsLoop_body_with (TC := NsTime.ops) Scenario.steady_clock
             (request_at AfterSleep) (Scenario.ms 1) 1000
             (Scenario.period_of 1000) m in
  let next := PhysicsLoop_body (TC := NsTime.ops) Scenario.steady_clock
                (Scenario.ms 1) 1000 (Scenario.period_of 1000) (snd r) in
  pause (sim m) = true /\
  stepInc (sim m) = false /\
  fst r = false /\
  stepInc (sim (snd r)) = true /\
  simTime (sim (snd next)) =
    Time_add (TimeClass := NsTime.ops) (simTime (sim m)) (Scenario.ms 1) /\
  (fst next = false ->
   pause (sim (snd next)) = true /\ stepInc (sim (snd next)) = false).
Proof.
  intros m r next.
  assert (Hp : pause (sim m) = true) by reflexivity.
  assert (Hs : stepInc (sim m) = false) by reflexivity.
  assert (Hleft : fst r = false) by reflexivity.
  destruct (single_step_contract (TC := NsTime.ops) Scenario.steady_clock
              (Scenario.ms 1) 1000 (Scenario.period_of 1000)
              AfterSleep m) as (_ & _ & Hidle & _).
  destruct (Hidle Hp Hs) as [_ Hafter].
  destruct (Hafter eq_refl) as (_ & _ & Hend).
  destruct (Hend Hleft) as (_ & Hreq & Hsim & Hnext).
  exact (conj Hp (conj Hs (conj Hleft (conj Hreq (conj Hsim Hnext))))).
Defined.

(** C1 as stated fails in two ways.  A request made while a pass that
    consumes a step is between its test and its reset is lost: the
    simulator is paused, a first request is made before the pass and a second
    one after the sleep of that pass; the pass steps once and ends with
    [stepInc = false], and the next pass adds to [pauseTime]: two requests,
    one step.  And when the timeout fires in the stepping pass, the pass
    advances [simTime], sets [userQuit] and leaves by [break] before the
    flags are reset, so [stepInc] is still [true] at the end of the pass. *)
Lemma single_step_counterexample :
  let m := Scenario.paused_sim in
  let m1 := snd (SetStepInc (TC := NsTime.ops) true m) in
  let r := PhysicsLoop_body_with (TC := NsTime.ops) Scenario.steady_clock
             (request_at AfterSleep) (Scenario.ms 1) 1000
             (Scenario.period_of 1000) m1 in
  let next := PhysicsLoop_body (TC := NsTime.ops) Scenario.steady_clock
                (Scenario.ms 1) 1000 (Scenario.period_of 1000) (snd r) in
  let t1 := snd (SetStepInc (TC := NsTime.ops) true
                   Scenario.paused_with_timeout) in
  let q := PhysicsLoop_body (TC := NsTime.ops) Scenario.late_clock
             (Scenario.ms 1) 1000 (Scenario.period_of 1000) t1 in
  (pause (sim m) = true /\
   fst r = false /\
   pause (sim (snd r)) = true /\
   stepInc (sim (snd r)) = false /\
   simTime (sim (snd r)) =
     Time_add (TimeClass := NsTime.ops) (simTime (sim m)) (Scenario.ms 1) /\
   simTime (sim (snd next)) = simTime (sim (snd r)) /\
   pauseTime (sim (snd next)) =
     Time_add (TimeClass := NsTime.ops) (pauseTime (sim (snd r)))
       (Scenario.ms 1)) /\
  (pause (sim Scenario.paused_with_timeout) = true /\
   simTime (sim (snd q)) =
     Time_add (TimeClass := NsTime.ops)
       (simTime (sim Scenario.paused_with_timeout)) (Scenario.ms 1) /\
   userQuit (sim (snd q)) = true /\
   stepInc (sim (snd q)) <> false).
Proof.
  vm_compute. repeat split; discriminate.
Qed.

(** Witness of [paused_passes_freeze_simTime]. *)
Lemma paused_passes_freeze_simTime_witness :
  let wall := Scenario.steady_clock in
  let step := Scenario.ms 1 in
  let period := Scenario.period_of 1000 in
  let m := Scenario.paused_sim in
  pause (sim m) = true /\
  stepInc (sim m) = false /\
  simTime (sim (snd (PhysicsLoop_while (TC := NsTime.ops) wall 7 step 1000 period m))) =
    simTime (sim m).
Proof.
  split; [reflexivity|]. split; [reflexivity|].
  apply (paused_passes_freeze_simTime (TC := NsTime.ops) Scenario.steady_clock (Scenario.ms 1)
           1000 (Scenario.period_of 1000) Scenario.paused_sim);
    reflexivity.
Defined.

(** Witness of [sleep_policy]: at 100 Hz under the busy clock, 1 ms
    elapses between the two readings around the world update, so the pass
    sleeps the remaining 9 ms of the 10 ms period. *)
Lemma sleep_policy_witness :
  let m := Scenario.fresh Scenario.busy_clock in
  exists (req : timespec) (tail : list Event),
    trace (snd (PhysicsLoop_body (TC := NsTime.ops) Scenario.busy_clock
                  (Scenario.ms 1) 100 (Scenario.period_of 100) m)) =
      trace m ++ pass_events req tail /\
    req = {| tv_sec := 0; tv_nsec := 9000000 |}.
Proof.
  intros m.
  destruct (sleep_policy (TC := NsTime.ops) Scenario.busy_clock
              (Scenario.ms 1) 100 m)
    as (req & tail & later & Htr & _ & _ & _ & _ & Hpos & _).
  exists req, tail. split; [exact Htr|].
  exact (Hpos eq_refl eq_refl).
Defined.

(** C3 as stated fails.  At 100 Hz under the busy clock the pass starts at
    0 ms, reads 8 ms before the world update and 9 ms after it.  The time
    elapsed since the top of the pass is 9 ms, and the rest of the 10 ms
    period would be 1 ms; the pass sleeps 9 ms, the period minus the 1 ms
    spent in the world update. *)
Lemma sleep_elapsed_counterexample :
  let m := Scenario.fresh Scenario.busy_clock in
  let period := Scenario.period_of 100 in
  let at_top := Scenario.busy_clock (ticks m) in
  let before_update := Scenario.busy_clock (1 + ticks m) in
  let after_update := Scenario.busy_clock (2 + ticks m) in
  (at_top = 0 /\ before_update = 8000000 /\ after_update = 9000000 /\
   period = 10000000)%Z /\
  timespec_of (TC := NsTime.ops) (period - (after_update - at_top))%Z
    = {| tv_sec := 0; tv_nsec := 1000000 |} /\
  trace (snd (PhysicsLoop_body (TC := NsTime.ops) Scenario.busy_clock
                (Scenario.ms 1) 100 period m)) =
    trace m ++ pass_events {| tv_sec := 0; tv_nsec := 9000000 |} [].
Proof.
  vm_compute. repeat split; reflexivity.
Qed.

(** Witness of [timeout_contract]: two passes under the slow clock with a
    two second timeout end with [userQuit] set, so a reading above the
    timeout exists. *)
Lemma timeout_contract_witness :
  let m := TimeoutScenario.timed_sim in
  let mn := snd (PhysicsLoop_while (TC := NsTime.ops)
                   TimeoutScenario.slow_clock 2 (Scenario.ms 1) 1
                   (Scenario.period_of 1) m) in
  userQuit (sim m) = false /\
  userQuit (sim mn) = true /\
  exists k : nat,
    (ticks m <= k < ticks mn)%nat /\
    Time_gtb (TimeClass := NsTime.ops)
      (Time_sub (TimeClass := NsTime.ops) (TimeoutScenario.slow_clock k)
         (startTime (sim m)))
      (Time_of_double (TimeClass := NsTime.ops) (timeout (sim m))) = true.
Proof.
  intros m mn.
  assert (Hq : userQuit (sim m) = false) by reflexivity.
  assert (Hend : userQuit (sim mn) = true) by reflexivity.
  destruct (timeout_contract (TC := NsTime.ops) TimeoutScenario.slow_clock
              (Scenario.ms 1) 1 (Scenario.period_of 1) m)
    as (_ & _ & _ & Hnever & _).
  destruct (Hnever 2%nat Hq Hend) as (_ & Hk).
  exact (conj Hq (conj Hend Hk)).
Defined.

(** C4 as stated fails on two counts.  First, the delay is a pass, not a
    period: at 1 Hz with a two second timeout, [userQuit] is still clear
    after the first pass (whose check reads 1.9 s), and the second pass sets
    it at a check that reads 6.9 s, which is more than one period after the
    timeout.  Second, a timeout that is not positive never fires: after
    [SetTimeout(0)] the same two passes and a third leave [userQuit] clear,
    although the real time read is far above zero. *)
Lemma timeout_latency_counterexample :
  let body := PhysicsLoop_body (TC := NsTime.ops) TimeoutScenario.slow_clock
                (Scenario.ms 1) 1 (Scenario.period_of 1) in
  let r1 := body TimeoutScenario.timed_sim in
  let r2 := body (snd r1) in
  let real k := (TimeoutScenario.slow_clock k
                 - startTime (sim TimeoutScenario.timed_sim))%Z in
  (userQuit (sim (snd r1)) = false /\
   userQuit (sim (snd r2)) = true /\
   ticks (snd r2) = 9%nat /\
   real 8%nat = Scenario.ms 6900 /\
   (NsTime.of_double 2 + Scenario.period_of 1 < real 8%nat)%Z) /\
  (userQuit (sim (snd (PhysicsLoop_while (TC := NsTime.ops)
                         TimeoutScenario.slow_clock 3 (Scenario.ms 1) 1
                         (Scenario.period_of 1)
                         TimeoutScenario.zero_timeout_sim))) = false /\
   (NsTime.of_double 0 + Scenario.period_of 1 < real 8%nat)%Z).
Proof.
  vm_compute. repeat split; reflexivity.
Qed.

(** ** The main loop *)

Section MainLoopFacts.

Context {TC : TimeClass}.
Variable wall : nat -> Time.
Local Open Scope time_scope.

(** A pass of the main loop does not write the simulator. *)
Lemma MainLoop_body_sim (lastTime : Time) (m : Machine) :
  sim (snd (MainLoop_body wall lastTime m)) = sim m.
Proof.
  destruct m as [s t tr cl]. crunch; reflexivity.
Qed.

Lemma MainLoop_while_sim (fuel : nat) (lastTime : Time) (m : Machine) :
  sim (snd (MainLoop_while wall fuel lastTime m)) = sim m.
Proof.
  revert lastTime m. induction fuel as [|fuel IH]; intros lastTime m.
  - reflexivity.
  - cbn [MainLoop_while]. unfold bind, this, ret.
    destruct (userQuit (sim m)); [reflexivity|].
    destruct (MainLoop_body wall lastTime m) as [lt m'] eqn:E.
    rewrite IH.
    change m' with (snd (lt, m')). rewrite <- E. apply MainLoop_body_sim.
Qed.

(** Without a quit request the loop is still running when the fuel runs
    out; with one it is left at the first test. *)
Lemma MainLoop_while_status (fuel : nat) (lastTime : Time) (m : Machine) :
  (userQuit (sim m) = true ->
     MainLoop_while wall (S fuel) lastTime m = (Exited, m)) /\
  (userQuit (sim m) = false ->
     fst (MainLoop_while wall fuel lastTime m) = Running).
Proof.
  split.
  - intros Hq. cbn [MainLoop_while]. unfold bind, this, ret.
    rewrite Hq. reflexivity.
  - revert lastTime m. induction fuel as [|fuel IH]; intros lastTime m Hq.
    + reflexivity.
    + cbn [MainLoop_while]. unfold bind, this, ret. rewrite Hq.
      destruct (MainLoop_body wall lastTime m) as [lt m'] eqn:E.
      apply IH.
      change m' with (snd (lt, m')). rewrite <- E, MainLoop_body_sim.
      exact Hq.
Qed.

(** A pass that finds more than a frame period elapsed. *)
Lemma MainLoop_body_frame (lastTime : Time) (m : Machine) :
  let period := Time_of_double (1 / freq)%float in
  let currTime := wall (ticks m) in
  (currTime - lastTime >? period) = true ->
  let lastTime' := wall (1 + ticks m) in
  let currTime' := wall (2 + ticks m) in
  MainLoop_body wall lastTime m =
    (lastTime',
     mkMachine (sim m) (3 + ticks m)
       (trace m ++ frame_events (sim m) ++
        (if currTime' - lastTime' <? period
         then [frame_sleep (currTime' - lastTime')] else []))
       (clock_log m ++ frame_reads m)).
Proof.
  intros period currTime Hgt lastTime' currTime'.
  unfold frame_events, frame_sleep, frame_reads, frame_update_events,
    MainLoop_body.
  fold period. clearbody period.
  destruct m as [s t tr cl]. subst currTime lastTime' currTime'.
  cbn [ticks sim trace clock_log] in *.
  cbv [bind GetWallTime]. cbn [ticks sim trace clock_log]. rewrite Hgt.
  cbv [bind ret this assign emit when]. cbn [ticks sim trace clock_log].
  destruct (gui s), (renderEngineEnabled s);
    cbn [ticks sim trace clock_log Nat.add];
    match goal with
    | |- context [if ?b then _ else _] => destruct b
    end; cbn [ticks sim trace clock_log app Nat.add];
    rewrite <- ?app_assoc, ?app_nil_r; reflexivity.
Qed.

(** A pass that finds at most a frame period elapsed. *)
Lemma MainLoop_body_idle (lastTime : Time) (m : Machine) :
  let period := Time_of_double (1 / freq)%float in
  let currTime := wall (ticks m) in
  (currTime - lastTime >? period) = false ->
  MainLoop_body wall lastTime m =
    (lastTime,
     mkMachine (sim m) (1 + ticks m)
       (trace m ++ [frame_sleep (currTime - lastTime)])
       (clock_log m ++ [(ticks m, List.length (trace m))])).
Proof.
  intros period currTime Hgt.
  unfold frame_events, frame_sleep, MainLoop_body. fold period.
  clearbody period.
  destruct m as [s t tr cl]. subst currTime.
  cbn [ticks sim trace clock_log] in *.
  cbv [bind GetWallTime]. cbn [ticks sim trace clock_log]. rewrite Hgt.
  reflexivity.
Qed.

(** The events of a pass do not include the join of the physics thread. *)
Lemma MainLoop_body_no_join (lastTime : Time) (m : Machine) :
  exists tr : list Event,
    trace (snd (MainLoop_body wall lastTime m)) = trace m ++ tr /\
    ~ In EvThreadJoin tr.
Proof.
  destruct (wall (ticks m) - lastTime >? Time_of_double (1 / freq)%float)
    eqn:Hgt.
  - rewrite (MainLoop_body_frame lastTime m Hgt). cbn [snd trace].
    eexists. split; [reflexivity|].
    unfold frame_events, frame_sleep.
    destruct (gui (sim m)), (renderEngineEnabled (sim m));
      match goal with
      | |- context [if ?b then _ else _] => destruct b
      end; cbn; intuition discriminate.
  - rewrite (MainLoop_body_idle lastTime m Hgt). cbn [snd trace].
    eexists. split; [reflexivity|].
    unfold frame_sleep. cbn. intuition discriminate.
Qed.

Lemma MainLoop_while_no_join (fuel : nat) (lastTime : Time) (m : Machine) :
  exists tr : list Event,
    trace (snd (MainLoop_while wall fuel lastTime m)) = trace m ++ tr /\
    ~ In EvThreadJoin tr.
Proof.
  revert lastTime m. induction fuel as [|fuel IH]; intros lastTime m.
  - exists []. cbn. rewrite app_nil_r. auto.
  - cbn [MainLoop_while]. unfold bind, this, ret.
    destruct (userQuit (sim m)).
    + exists []. cbn. rewrite app_nil_r. auto.
    + destruct (MainLoop_body_no_join lastTime m) as (tr1 & H1 & N1).
      destruct (MainLoop_body wall lastTime m) as [lt m'].
      cbn [snd] in H1.
      destruct (IH lt m') as (tr2 & H2 & N2).
      exists (tr1 ++ tr2). rewrite H2, H1, app_assoc.
      split; [reflexivity|].
      rewrite in_app_iff. tauto.
Qed.





End MainLoopFacts.

(** ** Operations *)

Section OpFacts.

Context {TC : TimeClass}.
Variable wall : nat -> Time.
Local Open Scope time_scope.

(** No operation writes [startTime]; only the three setters write a
    subsystem switch. *)
Lemma run_op_frame (o : Op) (m : Machine) :
  startTime (sim (run_op wall o m)) = startTime (sim m) /\
  (is_switch_setter o = false ->
   switches (sim (run_op wall o m)) = switches (sim m)).
Proof.
  destruct o; cbn [run_op is_switch_setter]; try (split; [|discriminate]).
  all: try (destruct m as [s0 t0 tr0 cl0]; unfold switches; crunch;
            rewrite_tests; (split || idtac); intros;
            first [reflexivity | congruence]).
  - (* MainLoop *)
    unfold MainLoop. cbv [bind assign emit]. cbn [sim ticks trace].
    match goal with
    | |- context [MainLoop_while wall ?f ?lt ?m0] =>
        pose proof (MainLoop_while_sim wall f lt m0) as Hs;
        destruct (MainLoop_while wall f lt m0) as [[] m']
    end; cbn [snd sim] in Hs |- *; cbv [ret bind emit]; cbn [snd sim];
      rewrite Hs; split; intros; reflexivity.
  - (* PhysicsLoop *)
    unfold PhysicsLoop.
    cbv [bind emit GetRealTime GetWallTime this ret].
    cbn [fst snd sim ticks trace].
    match goal with
    | |- context [PhysicsLoop_while wall ?f ?st ?r ?p ?m0] =>
        destruct (while_same_setup wall st r p f m0) as (A1 & A2 & A3)
    end.
    cbn [sim] in A1, A2, A3. split; intros; assumption.
Qed.

Lemma run_ops_startTime (os : list Op) (m : Machine) :
  startTime (sim (run_ops wall os m)) = startTime (sim m).
Proof.
  revert m. induction os as [|o os IH]; intros m; [reflexivity|].
  unfold run_ops in *. cbn [fold_left]. rewrite IH.
  apply run_op_frame.
Qed.

(** C7.  After any sequence of operations on a freshly constructed
    simulator, [GetRealTime()] is [GetWallTime()] minus [GetStartTime()] for
    the same reading of the wall clock; [startTime] is the reading taken by
    the constructor, and no operation changes it. *)
Theorem real_time_is_wall_minus_start (os : list Op) :
  let m := run_ops wall os (new_Simulator wall) in
  fst (GetRealTime wall m) = fst (GetWallTime wall m) - GetStartTime (sim m) /\
  GetStartTime (sim m) = wall 0 /\
  (forall (o : Op) (m0 : Machine),
     fst (GetRealTime wall m0) =
       fst (GetWallTime wall m0) - GetStartTime (sim m0) /\
     GetStartTime (sim (run_op wall o m0)) = GetStartTime (sim m0)).
Proof.
  intros m. split; [reflexivity|]. split.
  - unfold m, GetStartTime. rewrite run_ops_startTime. reflexivity.
  - intros o m0. split; [reflexivity|].
    unfold GetStartTime. apply run_op_frame.
Qed.

(** C8 (as amended).  Every operation other than [SetGuiEnabled],
    [SetRenderEngineEnabled] and [SetPhysicsEnabled] leaves the three
    subsystem switches as they are, [Load] and the two loops included; each
    of the three setters writes its switch whenever it is called, whether
    the simulator is loaded or not. *)
Theorem switches_written_only_by_setters (o : Op) (m : Machine) :
  is_switch_setter o = false ->
  switches (sim (run_op wall o m)) = switches (sim m) /\
  (forall b : bool,
     GetGuiEnabled (sim (run_op wall (OpSetGuiEnabled b) m)) = b /\
     GetRenderEngineEnabled
       (sim (run_op wall (OpSetRenderEngineEnabled b) m)) = b /\
     GetPhysicsEnabled (sim (run_op wall (OpSetPhysicsEnabled b) m)) = b).
Proof.
  intros Hns. split; [apply run_op_frame; exact Hns|].
  intros b. repeat split.
Qed.

End OpFacts.

(** Witness of [switches_written_only_by_setters]: [Load] on a fresh
    simulator. *)
Lemma switches_written_only_by_setters_witness :
  let m := Scenario.fresh Scenario.late_clock in
  let o := OpLoad (TC := NsTime.ops) RenderScenario.good_env in
  is_switch_setter o = false /\
  switches (sim (run_op Scenario.late_clock o m)) = switches (sim m).
Proof.
  intros m o.
  assert (Hns : is_switch_setter o = false) by reflexivity.
  split; [exact Hns|].
  exact (proj1 (switches_written_only_by_setters (TC := NsTime.ops)
                  Scenario.late_clock o m Hns)).
Defined.

(** C8 as stated fails: on a loaded and initialised simulator each of the
    three setters still changes its switch. *)
Lemma switch_setter_after_load_counterexample :
  let wall := Scenario.late_clock in
  let m := RenderScenario.loaded_sim in
  loaded (sim m) = true /\
  switches (sim m) = (true, true, true) /\
  switches (sim (run_op wall (OpSetGuiEnabled false) m))
    = (false, true, true) /\
  switches (sim (run_op wall (OpSetRenderEngineEnabled false) m))
    = (true, false, true) /\
  switches (sim (run_op wall (OpSetPhysicsEnabled false) m))
    = (true, true, false).
Proof.
  vm_compute. repeat split; reflexivity.
Qed.



(** ** Selection *)

Section SelectionFacts.

Context {TC : TimeClass}.

(** What [SetSelectedEntity] does, for any argument: it never dereferences
    a null pointer, the selection becomes the argument, the old selection is
    deselected and the argument, if not [NULL], selected. *)
Lemma SetSelectedEntity_spec (ent : EntityPtr) (m : Machine) :
  SetSelectedEntity ent m =
    (Returns tt,
     mkMachine (set_selectedEntity ent (sim m)) (ticks m)
       (trace m ++ deselect_events (selectedEntity (sim m))
                ++ select_events ent)
       (clock_log m)).
Proof.
  destruct m as [s t tr cl]. unfold deselect_events, select_events.
  cbv [SetSelectedEntity bind ret this assign emit]. cbn [sim ticks trace].
  destruct (selectedEntity s) as [old|] eqn:Hold, ent as [e|];
    cbn; rewrite ?Hold; cbn; rewrite <- ?app_assoc, ?app_nil_r;
    reflexivity.
Qed.

(** C9.  For a non-null [ent], [SetSelectedEntity(ent)] leaves [ent]
    selected, whatever was selected before: the old selection, if any, is
    deselected first, so the comparison of the second [if] is made against
    [NULL] and succeeds; the call emits the two events of the selecting
    branch and dereferences no null pointer.  Calling it twice with the same
    entity deselects and selects it again, and it stays selected.  With
    [NULL] the selection is cleared and nothing is selected. *)
Theorem select_entity (e : ptr) (m : Machine) :
  let r := SetSelectedEntity (Some e) m in
  let r2 := SetSelectedEntity (Some e) (snd r) in
  GetSelectedEntity (sim (snd r)) = Some e /\
  fst r = Returns tt /\
  trace (snd r) =
    trace m ++ deselect_events (selectedEntity (sim m))
            ++ [EvShowSelectionBox e true; EvSetSelected e true] /\
  GetSelectedEntity (sim (snd r2)) = Some e /\
  trace (snd r2) =
    trace (snd r)
    ++ [EvShowSelectionBox e false; EvSetSelected e false;
        EvShowSelectionBox e true; EvSetSelected e true] /\
  (forall ent : EntityPtr,
     GetSelectedEntity (sim (snd (SetSelectedEntity ent m))) = ent /\
     fst (SetSelectedEntity ent m) = Returns tt /\
     trace (snd (SetSelectedEntity ent m)) =
       trace m ++ deselect_events (selectedEntity (sim m))
               ++ select_events ent) /\
  trace (snd (SetSelectedEntity NULL m)) =
    trace m ++ deselect_events (selectedEntity (sim m)).
Proof.
  intros r r2. subst r2 r.
  rewrite !SetSelectedEntity_spec. cbn [fst snd sim trace].
  repeat split.
  all: rewrite ?SetSelectedEntity_spec; cbn [fst snd sim trace];
    cbn [select_events];
    rewrite ?app_nil_r; reflexivity.
Qed.

End SelectionFacts.

(** ** Parent search *)

Section ParentFacts.

Variable h : EntityHeap.
Variable is_T : ptr -> bool.

(** If the search returns, it returns the nearest entity of the parent
    chain on which the cast succeeds. *)
Lemma parent_loop_returns (fuel : nat) (e : ptr) (visited : list ptr)
    (r : EntityPtr) :
  fst (parent_loop h is_T fuel (Some e) visited) = Returns r ->
  exists (k : nat) (a : ptr),
    r = Some a /\
    ancestor h k e = Some a /\
    is_T a = true /\
    (forall (j : nat) (b : ptr),
       (j < k)%nat -> ancestor h j e = Some b -> is_T b = false).
Proof.
  revert e visited. induction fuel as [|fuel IH]; intros e visited H.
  - discriminate.
  - cbn [parent_loop dynamic_cast] in H.
    destruct (is_T e) eqn:He.
    + cbn in H. injection H as <-.
      exists 0%nat, e. repeat split; auto. intros; lia.
    + cbn [NULL] in H.
      destruct (GetParent h e) as [p|] eqn:Hp.
      * destruct (IH p _ H) as (k & a & -> & Ha & Hm & Hnear).
        exists (S k), a. cbn [ancestor]. rewrite Hp.
        repeat split; auto.
        intros [|j] b Hj Hb.
        -- cbn in Hb. congruence.
        -- cbn [ancestor] in Hb. rewrite Hp in Hb.
           apply (Hnear j b); [lia | exact Hb].
      * destruct fuel; cbn in H; discriminate.
Qed.

(** If the cast succeeds somewhere on the parent chain, the search returns
    once it has fuel for the length of the chain up to there. *)
Lemma parent_loop_finds (k : nat) (e a : ptr) (visited : list ptr) :
  ancestor h k e = Some a ->
  is_T a = true ->
  exists r : EntityPtr,
    fst (parent_loop h is_T (S k) (Some e) visited) = Returns r.
Proof.
  revert e visited. induction k as [|k IH]; intros e visited Ha Hm.
  - cbn in Ha. injection Ha as ->.
    cbn. rewrite Hm. cbn. eauto.
  - cbn [ancestor] in Ha.
    cbn [parent_loop dynamic_cast].
    destruct (is_T e) eqn:He; [cbn; eauto|]. cbn [NULL].
    destruct (GetParent h e) as [p|] eqn:Hp; [|discriminate].
    apply IH; assumption.
Qed.

(** A chain that ends without a successful cast makes the search
    dereference the null parent. *)
Lemma parent_loop_null_deref (k : nat) (e a : ptr) (visited : list ptr) :
  ancestor h k e = Some a ->
  GetParent h a = None ->
  (forall (j : nat) (b : ptr),
     (j <= k)%nat -> ancestor h j e = Some b -> is_T b = false) ->
  fst (parent_loop h is_T (S (S k)) (Some e) visited) = NullDeref.
Proof.
  revert e visited. induction k as [|k IH]; intros e visited Ha Hend Hno.
  - cbn in Ha. injection Ha as ->.
    cbn [parent_loop dynamic_cast].
    rewrite (Hno 0%nat a (le_n _) eq_refl). cbn [NULL]. rewrite Hend.
    reflexivity.
  - cbn [ancestor] in Ha.
    remember (S (S k)) as f eqn:Hf.
    cbn [parent_loop dynamic_cast].
    rewrite (Hno 0%nat e (Nat.le_0_l _) eq_refl). cbn [NULL].
    destruct (GetParent h e) as [p|] eqn:Hp; [|discriminate].
    subst f. apply IH; auto.
    intros j b Hj Hb. apply (Hno (S j) b); [lia|].
    cbn [ancestor]. rewrite Hp. exact Hb.
Qed.

Lemma parent_loop_iff (e : ptr) :
  (exists (fuel : nat) (r : EntityPtr),
     fst (parent_loop h is_T fuel (Some e) []) = Returns r)
  <->
  (exists (k : nat) (a : ptr), ancestor h k e = Some a /\ is_T a = true).
Proof.
  split.
  - intros (fuel & r & H).
    destruct (parent_loop_returns fuel e [] r H) as (k & a & _ & Ha & Hm & _).
    eauto.
  - intros (k & a & Ha & Hm).
    destruct (parent_loop_finds k e a [] Ha Hm) as (r & H). eauto.
Qed.

End ParentFacts.

(** C10.  [GetParentModel] and [GetParentBody] return [NULL] on a [NULL]
    argument without calling any entity.  On a non-null argument the search
    returns (for some bound on the number of turns of the loop) exactly when
    some entity of the parent chain, the argument included, is a Model
    (respectively a Body), and it then returns the nearest one; when the
    chain ends without one, the search calls [GetParent] on the null
    parent. *)
Theorem parent_search_contract (h : EntityHeap) :
  (forall fuel : nat,
     GetParentModel h fuel NULL = (Returns NULL, []) /\
     GetParentBody h fuel NULL = (Returns NULL, [])) /\
  (forall e : ptr,
     ((exists (fuel : nat) (r : EntityPtr),
         fst (GetParentModel h fuel (Some e)) = Returns r)
      <->
      (exists (k : nat) (a : ptr),
         ancestor h k e = Some a /\ is_Model h a = true)) /\
     ((exists (fuel : nat) (r : EntityPtr),
         fst (GetParentBody h fuel (Some e)) = Returns r)
      <->
      (exists (k : nat) (a : ptr),
         ancestor h k e = Some a /\ is_Body h a = true))) /\
  (forall (e : ptr) (fuel : nat) (r : EntityPtr),
     (fst (GetParentModel h fuel (Some e)) = Returns r ->
      exists (k : nat) (a : ptr),
        r = Some a /\ ancestor h k e = Some a /\ is_Model h a = true /\
        (forall (j : nat) (b : ptr),
           (j < k)%nat -> ancestor h j e = Some b -> is_Model h b = false)) /\
     (fst (GetParentBody h fuel (Some e)) = Returns r ->
      exists (k : nat) (a : ptr),
        r = Some a /\ ancestor h k e = Some a /\ is_Body h a = true /\
        (forall (j : nat) (b : ptr),
           (j < k)%nat -> ancestor h j e = Some b -> is_Body h b = false))) /\
  (forall (e a : ptr) (k : nat),
     ancestor h k e = Some a ->
     GetParent h a = None ->
     ((forall (j : nat) (b : ptr),
         (j <= k)%nat -> ancestor h j e = Some b -> is_Model h b = false) ->
      fst (GetParentModel h (S (S k)) (Some e)) = NullDeref) /\
     ((forall (j : nat) (b : ptr),
         (j <= k)%nat -> ancestor h j e = Some b -> is_Body h b = false) ->
      fst (GetParentBody h (S (S k)) (Some e)) = NullDeref)).
Proof.
  split; [intros fuel; split; reflexivity|].
  split; [intros e; split; apply parent_loop_iff|].
  split.
  - intros e fuel r. split; apply parent_loop_returns.
  - intros e a k Ha Hend.
    split; intros Hno; eapply parent_loop_null_deref; eauto.
Qed.

(** Witness of [parent_search_contract]: a geom in a body in a model.  The
    model of the geom is found two parents up; the search for the body of the
    model runs off the end of the chain. *)
Lemma parent_search_contract_witness :
  let h := EntityScenario.heap in
  GetParentModel h 3 (Some 1%positive)
    = (Returns (Some 3%positive), [1; 2; 3]%positive) /\
  (exists (k : nat) (a : ptr),
     Some 3%positive = Some a /\ ancestor h k 1%positive = Some a /\
     is_Model h a = true /\
     (forall (j : nat) (b : ptr),
        (j < k)%nat -> ancestor h j 1%positive = Some b ->
        is_Model h b = false)) /\
  fst (GetParentBody h 2 (Some 3%positive)) = NullDeref.
Proof.
  intros h.
  destruct (parent_search_contract h) as (_ & _ & Hret & Hnull).
  split; [reflexivity|]. split.
  - exact (proj1 (Hret 1%positive 3%nat (Some 3%positive)) eq_refl).
  - apply (proj2 (Hnull 3%positive 3%positive 0%nat eq_refl eq_refl)).
    intros j b Hj Hb.
    assert (j = 0%nat) as -> by lia.
    cbn in Hb. injection Hb as <-. reflexivity.
Defined.

(** On a cyclic parent chain without a model the search never returns. *)
Example parent_search_cycle :
  fst (GetParentModel EntityScenario.cyclic_heap 50 (Some 1%positive))
    = OutOfFuel.
Proof. reflexivity. Qed.

(** * Further properties *)

(** ** Life cycle *)

Section LifeCycleFacts.

Context {TC : TimeClass}.

(** X1.  [Load] leaves [loaded] set exactly when it returns without an
    error, whatever [loaded] was before, and it leaves [state = LOAD] in
    either case. *)
Theorem Load_loaded_iff_success (env : LoadEnv) (m : Machine) :
  (loaded (sim (snd (Load env m))) = true <-> fst (Load env m) = None) /\
  GetState (sim (snd (Load env m))) = Some LOAD.
Proof.
  destruct m as [s t tr cl].
  crunch; (split; [split; intros H|]);
    try reflexivity; try discriminate; absurd_tests.
Qed.

(** X2.  A [Load] on a loaded simulator closes the world (and the render
    engine, if enabled) before it calls anything else; the first call after
    that is the load of the XML file. *)
Theorem Load_closes_first (env : LoadEnv) (m : Machine) :
  exists rest : list Event,
    trace (snd (Load env m)) =
      trace m ++ close_events (sim m) ++ EvXMLLoad :: rest.
Proof.
  destruct m as [s t tr cl]. unfold close_events.
  crunch; try absurd_tests; rewrite_tests;
    eexists; rewrite <- ?app_assoc; cbn [app]; reflexivity.
Qed.

(** X3.  [Close] writes no member of the simulator, [loaded] included: on a
    simulator that is not loaded it does nothing, and on a loaded one a
    second [Close] repeats the calls of the first.  [Fini] finalises the
    world whether or not the simulator is loaded, then closes. *)
Theorem Close_keeps_loaded (m : Machine) :
  sim (snd (Close m)) = sim m /\
  trace (snd (Close m)) = trace m ++ close_events (sim m) /\
  trace (snd (Close (snd (Close m)))) =
    trace m ++ close_events (sim m) ++ close_events (sim m) /\
  (loaded (sim m) = false -> Close m = (tt, m)) /\
  sim (snd (Fini m)) = sim m /\
  trace (snd (Fini m)) = trace m ++ EvWorldFini :: close_events (sim m).
Proof.
  destruct m as [s t tr cl]. unfold close_events.
  crunch; try absurd_tests; repeat split; intros; try discriminate;
    rewrite <- ?app_assoc, ?app_nil_r; cbn [app]; reflexivity.
Qed.

(** X4.  After a [Load] that returns without an error, [GetRenderEngine()]
    is non-null exactly when the render engine is enabled, and the Gui
    exists only if both the render engine and the Gui are enabled: with
    either switched off [gui] is [NULL]; with both on, [gui] is set when the
    world file has a gui node and is left as it was when it has none. *)
Theorem Load_render_engine_and_gui (env : LoadEnv) (m : Machine) :
  fst (Load env m) = None ->
  let s := sim m in
  let s' := sim (snd (Load env m)) in
  GetRenderEngine s' = renderEngineEnabled s /\
  (renderEngineEnabled s && guiEnabled s = false -> gui s' = false) /\
  (renderEngineEnabled s && guiEnabled s = true ->
   gui s' = if gui_child env then true else gui s).
Proof.
  destruct m as [s t tr cl]. unfold GetRenderEngine.
  crunch; try absurd_tests; intros H; try discriminate H;
    rewrite_tests; cbn; repeat split; intros;
    try reflexivity; try discriminate; try absurd_tests;
    cbn in *; rewrite_tests; reflexivity.
Qed.

(** X15.  [Load] stops at the first of its calls that throws.  The calls
    it makes after closing are those of [load_calls], in that order, up to
    and including the first that throws; it returns the error of that call
    (the error of the [catch] block around it, or the error as thrown for
    the three calls outside every [try]: the load of the messages, the load
    of the render engine and the initialisation of the Gui), and no error
    when no call throws, the last call then being the load of the world. *)
Theorem Load_stops_at_first_failure (env : LoadEnv) (m : Machine) :
  let calls := load_calls (sim m) env in
  fst (Load env m) = option_map error_of (find (throws env) calls) /\
  trace (snd (Load env m)) =
    trace m ++ close_events (sim m) ++ map event_of (calls_made env calls).
Proof.
  destruct m as [s t tr cl]. unfold close_events, load_calls.
  crunch; try impossible_tests; try absurd_tests;
    rewrite_tests; cbn; rewrite_tests; cbn;
    (split; [reflexivity|]);
    rewrite <- ?app_assoc; cbn [app]; reflexivity.
Qed.

End LifeCycleFacts.

(** Witness of [Load_render_engine_and_gui]: a first load with every
    collaborator loading. *)
Lemma Load_render_engine_and_gui_witness :
  let m := Scenario.fresh Scenario.late_clock in
  fst (Load RenderScenario.good_env m) = None /\
  GetRenderEngine (sim (snd (Load RenderScenario.good_env m))) = true /\
  gui (sim (snd (Load RenderScenario.good_env m))) = true.
Proof.
  intros m.
  assert (Hok : fst (Load RenderScenario.good_env m) = None) by reflexivity.
  destruct (Load_render_engine_and_gui RenderScenario.good_env m Hok)
    as (Hre & _ & Hgui).
  split; [exact Hok|]. split; [exact Hre|]. exact (Hgui eq_refl).
Defined.

(** ** Pause control *)

Section PauseFacts.

Context {TC : TimeClass}.

(** X5.  [SetPaused(p)] leaves [IsPaused() = p]; it notifies the pause
    observers exactly when the value changes, always inside the render
    mutex; calling it again with the same value notifies nobody. *)
Theorem SetPaused_notifies_on_change (p : bool) (m : Machine) :
  let m1 := snd (SetPaused p m) in
  IsPaused (sim m1) = p /\
  trace m1 =
    trace m ++ [EvLock MRMutex]
            ++ (if Bool.eqb (pause (sim m)) p then [] else [EvPauseSignal p])
            ++ [EvUnlock MRMutex] /\
  trace (snd (SetPaused p m1)) =
    trace m1 ++ [EvLock MRMutex; EvUnlock MRMutex] /\
  sim (snd (SetPaused p m1)) = sim m1.
Proof.
  destruct m as [s t tr cl]. unfold IsPaused.
  cbv [SetPaused bind ret this assign emit]. cbn [sim ticks trace snd].
  destruct (pause s) eqn:Hp, p; cbn; rewrite ?Hp; cbn;
    rewrite <- ?app_assoc; cbn [app]; repeat split; reflexivity.
Qed.

End PauseFacts.

(** ** More on the physics loop *)

Section PhysicsLoopMore.

Context {TC : TimeClass}.
Variable wall : nat -> Time.
Variables (step : Time) (rate : float) (period : Time).
Local Open Scope time_scope.

Local Abbreviation body := (PhysicsLoop_body wall step rate period).
Local Abbreviation loop_step := (PhysicsLoop_step wall step rate period).
Local Abbreviation while n := (PhysicsLoop_while wall n step rate period).

(** A pass advances exactly one of the two clocks, by one step. *)
Lemma body_advances_one_clock (m : Machine) :
  (simTime (sim (snd (body m))) = simTime (sim m) + step /\
   pauseTime (sim (snd (body m))) = pauseTime (sim m)) \/
  (simTime (sim (snd (body m))) = simTime (sim m) /\
   pauseTime (sim (snd (body m))) = pauseTime (sim m) + step).
Proof.
  destruct m as [s t tr cl]. crunch; auto.
Qed.

(** X6.  Over any number of passes of the physics loop, from any state,
    every pass executed adds one step to exactly one of [simTime] and
    [pauseTime]: the two clocks have advanced [a] and [b] steps with
    [a + b] the number of passes executed, which is the fuel [n] unless the
    loop was left. *)
Theorem physics_clock_accounting (n : nat) (m : Machine) :
  exists a b : nat,
    (a + b <= n)%nat /\
    simTime (sim (snd (while n m))) =
      Nat.iter a (fun t => t + step) (simTime (sim m)) /\
    pauseTime (sim (snd (while n m))) =
      Nat.iter b (fun t => t + step) (pauseTime (sim m)) /\
    (fst (while n m) = Running -> (a + b = n)%nat).
Proof.
  revert m. induction n as [|n IH]; intros m.
  - exists 0%nat, 0%nat. cbn. auto.
  - rewrite PhysicsLoop_while_S, PhysicsLoop_step_unfold.
    destruct (userQuit (sim m)); cbn [fst snd].
    + exists 0%nat, 0%nat. cbn. repeat split; try lia. discriminate.
    + destruct (fst (body m)) eqn:Hleft; cbn [fst snd].
      * destruct (body_advances_one_clock m) as [[Hs Hp] | [Hs Hp]].
        -- exists 1%nat, 0%nat. repeat split; try lia; try assumption.
           discriminate.
        -- exists 0%nat, 1%nat. repeat split; try lia; try assumption.
           discriminate.
      * destruct (IH (snd (body m))) as (a & b & Hab & Hs2 & Hp2 & Hrun).
        destruct (body_advances_one_clock m) as [[Hs Hp] | [Hs Hp]].
        -- exists (S a), b. rewrite Hs2, Hp2, Hs, Hp.
           repeat split; try lia.
           ++ symmetry.
              exact (Nat.iter_succ_r a _ (fun t => t + step) (simTime (sim m))).
           ++ intros Hr. specialize (Hrun Hr). lia.
        -- exists a, (S b). rewrite Hs2, Hp2, Hs, Hp.
           repeat split; try lia.
           ++ symmetry.
              exact (Nat.iter_succ_r b _ (fun t => t + step)
                       (pauseTime (sim m))).
           ++ intros Hr. specialize (Hrun Hr). lia.
Qed.

Lemma body_running (m : Machine) :
  pause (sim m) = false -> stepInc (sim m) = false ->
  simTime (sim (snd (body m))) = simTime (sim m) + step /\
  pauseTime (sim (snd (body m))) = pauseTime (sim m) /\
  pause (sim (snd (body m))) = false /\
  stepInc (sim (snd (body m))) = false.
Proof.
  intros Hp Hs. destruct m as [s t tr cl]. cbn in Hp, Hs.
  crunch; rewrite ?Hp, ?Hs in *; cbn in *; try discriminate; auto.
Qed.

(** X7.  While the simulator is neither paused nor stepping, every pass of
    the physics loop adds one step to [simTime] and leaves [pauseTime] and
    the two flags alone; over [n] passes [pauseTime] is unchanged and
    [simTime] has grown by one step per pass executed. *)
Theorem running_passes_advance_simTime (m : Machine) :
  pause (sim m) = false ->
  stepInc (sim m) = false ->
  forall n : nat,
    pauseTime (sim (snd (while n m))) = pauseTime (sim m) /\
    pause (sim (snd (while n m))) = false /\
    stepInc (sim (snd (while n m))) = false /\
    exists k : nat,
      (k <= n)%nat /\
      simTime (sim (snd (while n m))) =
        Nat.iter k (fun t => t + step) (simTime (sim m)) /\
      (fst (while n m) = Running -> k = n).
Proof.
  intros Hp Hs n. revert m Hp Hs.
  induction n as [|n IH]; intros m Hp Hs.
  - cbn. repeat split; auto. exists 0%nat. cbn. auto.
  - rewrite PhysicsLoop_while_S, PhysicsLoop_step_unfold.
    destruct (userQuit (sim m)); cbn [fst snd].
    + repeat split; auto. exists 0%nat. cbn.
      repeat split; [lia | discriminate].
    + destruct (body_running m Hp Hs) as (Hsim & Hpt & Hp' & Hs').
      destruct (fst (body m)) eqn:Hleft; cbn [fst snd].
      * repeat split; auto. exists 1%nat.
        repeat split; [lia | exact Hsim | discriminate].
      * destruct (IH (snd (body m)) Hp' Hs')
          as (Hpt2 & Hp2 & Hs2 & k & Hk & Hsim2 & Hrun).
        repeat split; try congruence.
        exists (S k). split; [lia|]. split.
        -- rewrite Hsim2, Hsim. symmetry.
           exact (Nat.iter_succ_r k _ (fun t => t + step) (simTime (sim m))).
        -- intros Hr. f_equal. exact (Hrun Hr).
Qed.

(** A pass writes only [simTime], [pauseTime], [pause], [stepInc] and
    [userQuit]. *)
Lemma body_physics_frame (m : Machine) :
  physics_frame (sim m) (sim (snd (body m))).
Proof.
  destruct m as [s t tr cl]. unfold physics_frame.
  crunch; repeat split.
Qed.

Lemma physics_frame_trans (s1 s2 s3 : Simulator) :
  physics_frame s1 s2 -> physics_frame s2 s3 -> physics_frame s1 s3.
Proof.
  unfold physics_frame. intuition congruence.
Qed.

Lemma while_physics_frame (n : nat) (m : Machine) :
  physics_frame (sim m) (sim (snd (while n m))).
Proof.
  revert m. induction n as [|n IH]; intros m.
  - cbn. unfold physics_frame. repeat split.
  - rewrite PhysicsLoop_while_S, PhysicsLoop_step_unfold.
    destruct (userQuit (sim m)); cbn [fst snd].
    + unfold physics_frame. repeat split.
    + destruct (fst (body m)); cbn [fst snd].
      * apply body_physics_frame.
      * eapply physics_frame_trans; [apply body_physics_frame | apply IH].
Qed.

(** The loop is left only with [userQuit] set, and a loop that is still
    running after at least one test has [userQuit] clear. *)
Lemma while_exit_iff_quit (n : nat) (m : Machine) :
  (1 <= n)%nat ->
  (fst (while n m) = Exited <-> userQuit (sim (snd (while n m))) = true).
Proof.
  revert m. induction n as [|n IH]; intros m Hn; [lia|].
  rewrite PhysicsLoop_while_S, PhysicsLoop_step_unfold.
  destruct (userQuit (sim m)) eqn:Hq; cbn [fst snd].
  - tauto.
  - destruct (fst (body m)) eqn:Hleft; cbn [fst snd].
    + rewrite (body_break_quits wall step rate period m Hleft). tauto.
    + pose proof (body_continue_quit wall step rate period m Hleft) as Hc.
      rewrite Hq in Hc.
      destruct n as [|n'].
      * change (while 0 (snd (body m))) with (Running, snd (body m)).
        cbn [fst snd]. rewrite Hc. split; discriminate.
      * apply IH. lia.
Qed.

(** X10.  The events of a pass end with the re-pause of a single step
    exactly when the pass found [stepInc] set and was not cut by the timeout:
    [SetStepInc(false)], then [SetPaused(true)], which notifies the pause
    observers exactly when the simulator was not paused.  Any other pass
    ends with the interface update. *)
Theorem stepping_pass_pause_signal (m : Machine) :
  exists req : timespec,
    trace (snd (body m)) =
      trace m ++
      pass_events req
        (if stepInc (sim m) && negb (fst (body m))
         then [EvLock MRMutex; EvUnlock MRMutex; EvLock MRMutex]
              ++ (if pause (sim m) then [] else [EvPauseSignal true])
              ++ [EvUnlock MRMutex]
         else []).
Proof.
  destruct m as [s t tr cl]. unfold pass_events.
  unfold_methods. cbn.
  destruct (pause s) eqn:Hp, (stepInc s) eqn:Hs; cbn;
    repeat (split_if; cbn);
    first [ solve [eexists; rewrite <- ?app_assoc; cbn [app]; reflexivity]
          | exfalso; rewrite ?Hp, ?Hs in *; cbn in *; congruence ].
Qed.

(** The events of any number of passes satisfy every property that the
    events of each pass satisfy. *)
Lemma while_events_Forall (P : Event -> Prop) :
  (forall (req : timespec) (tail : list Event),
     In tail restep_tails -> Forall P (pass_events req tail)) ->
  forall (n : nat) (m : Machine),
  exists tr : list Event,
    trace (snd (while n m)) = trace m ++ tr /\ Forall P tr.
Proof.
  intros HP n. induction n as [|n IH]; intros m.
  - exists []. cbn. rewrite app_nil_r. auto.
  - rewrite PhysicsLoop_while_S, PhysicsLoop_step_unfold.
    destruct (userQuit (sim m)); cbn [fst snd].
    + exists []. rewrite app_nil_r. auto.
    + destruct (body_trace wall step rate period m) as (tail & Hin & Htr).
      destruct (fst (body m)); cbn [fst snd].
      * eexists. split; [exact Htr|]. apply HP. exact Hin.
      * destruct (IH (snd (body m))) as (tr & Htr2 & Hall).
        eexists. split; [rewrite Htr2, Htr, <- app_assoc; reflexivity|].
        apply Forall_app. split; [apply HP; exact Hin | exact Hall].
Qed.

End PhysicsLoopMore.

Lemma pass_events_not_render (req : timespec) (tail : list Event) :
  In tail restep_tails ->
  Forall (fun e => is_render_event e = false) (pass_events req tail).
Proof.
  intros Hin. cbn in Hin.
  destruct Hin as [<- | [<- | [<- | []]]]; repeat constructor.
Qed.

(** X8.  A call of [PhysicsLoop] writes no member of the simulator other
    than [simTime], [pauseTime], [pause], [stepInc] and [userQuit],
    whatever the number of passes. *)
Theorem PhysicsLoop_frame {TC : TimeClass} (wall : nat -> Time)
    (pe : PhysicsEngine) (fuel : nat) (m : Machine) :
  physics_frame (sim m) (sim (snd (PhysicsLoop wall pe fuel m))).
Proof.
  cbv [PhysicsLoop bind emit GetRealTime GetWallTime this ret].
  cbn [fst snd sim ticks trace].
  match goal with
  | |- context [PhysicsLoop_while wall fuel ?s ?r ?p ?m0] =>
      exact (while_physics_frame wall s r p fuel m0)
  end.
Qed.

(** X9.  [PhysicsLoop] returns only with [userQuit] set, and as long as it
    has not returned [userQuit] is clear; called with [userQuit] already
    set it initialises the engine for the thread, reads the clock once and
    returns without a pass. *)
Theorem PhysicsLoop_exit_iff_quit {TC : TimeClass} (wall : nat -> Time)
    (pe : PhysicsEngine) (fuel : nat) (m : Machine) :
  (1 <= fuel)%nat ->
  (fst (PhysicsLoop wall pe fuel m) = Exited <->
   userQuit (sim (snd (PhysicsLoop wall pe fuel m))) = true) /\
  (userQuit (sim m) = true ->
   PhysicsLoop wall pe fuel m =
     (Exited,
      mkMachine (sim m) (S (ticks m))
        (trace m ++ [EvPhysicsInitForThread])
        (clock_log m ++
         [(ticks m, List.length (trace m ++ [EvPhysicsInitForThread]))]))).
Proof.
  intros Hf. split.
  - cbv [PhysicsLoop bind emit GetRealTime GetWallTime this ret].
    cbn [fst snd sim ticks trace].
    match goal with
    | |- context [PhysicsLoop_while wall fuel ?s ?r ?p ?m0] =>
        exact (while_exit_iff_quit wall s r p fuel m0 Hf)
    end.
  - intros Hq. destruct fuel as [|fuel]; [lia|].
    cbv [PhysicsLoop bind emit GetRealTime GetWallTime this ret].
    cbn [fst snd sim ticks trace].
    rewrite PhysicsLoop_while_S, PhysicsLoop_step_unfold.
    cbn [sim]. rewrite Hq. reflexivity.
Qed.

(** Witness of [PhysicsLoop_exit_iff_quit]: two passes under the slow clock
    with a two second timeout. *)
Lemma PhysicsLoop_exit_iff_quit_witness :
  let r := PhysicsLoop TimeoutScenario.slow_clock (Scenario.engine 1) 2
             TimeoutScenario.timed_sim in
  (1 <= 2)%nat /\
  (fst r = Exited <-> userQuit (sim (snd r)) = true).
Proof.
  intros r. split; [lia|].
  apply (PhysicsLoop_exit_iff_quit TimeoutScenario.slow_clock
           (Scenario.engine 1) 2 TimeoutScenario.timed_sim).
  lia.
Defined.

(** Witness of [running_passes_advance_simTime]: a fresh simulator under
    the steady clock. *)
Lemma running_passes_advance_simTime_witness :
  let m := Scenario.fresh Scenario.steady_clock in
  pause (sim m) = false /\
  stepInc (sim m) = false /\
  pauseTime (sim (snd (PhysicsLoop_while Scenario.steady_clock 5
                         (Scenario.ms 1) 1000 (Scenario.period_of 1000) m)))
    = pauseTime (sim m).
Proof.
  intros m. split; [reflexivity|]. split; [reflexivity|].
  apply (running_passes_advance_simTime Scenario.steady_clock (Scenario.ms 1)
           1000 (Scenario.period_of 1000) m eq_refl eq_refl 5%nat).
Defined.

(** ** More on the main loop *)

Section MainLoopMore.

Context {TC : TimeClass}.
Variable wall : nat -> Time.
Local Open Scope time_scope.

(** Every event of a pass is a collaborator call of the frame or a sleep
    that fills the frame period. *)
Lemma MainLoop_body_events (lastTime : Time) (m : Machine) :
  exists tr : list Event,
    trace (snd (MainLoop_body wall lastTime m)) = trace m ++ tr /\
    Forall (fun e => In e (frame_events (sim m)) \/
                     exists elapsed, e = frame_sleep elapsed) tr.
Proof.
  destruct (wall (ticks m) - lastTime >? Time_of_double (1 / freq)%float)
    eqn:Hgt.
  - rewrite (MainLoop_body_frame wall lastTime m Hgt). cbn [snd trace].
    eexists. split; [reflexivity|].
    apply Forall_app. split.
    + apply Forall_forall. auto.
    + match goal with
      | |- context [if ?b then _ else _] => destruct b
      end; [constructor; [right; eauto | constructor] | constructor].
  - rewrite (MainLoop_body_idle wall lastTime m Hgt). cbn [snd trace].
    eexists. split; [reflexivity|].
    constructor; [right; eauto | constructor].
Qed.

Lemma MainLoop_while_events (fuel : nat) (lastTime : Time) (m : Machine) :
  exists tr : list Event,
    trace (snd (MainLoop_while wall fuel lastTime m)) = trace m ++ tr /\
    Forall (fun e => In e (frame_events (sim m)) \/
                     exists elapsed, e = frame_sleep elapsed) tr.
Proof.
  revert lastTime m. induction fuel as [|fuel IH]; intros lastTime m.
  - exists []. cbn. rewrite app_nil_r. auto.
  - cbn [MainLoop_while]. unfold bind, this, ret.
    destruct (userQuit (sim m)).
    + exists []. cbn. rewrite app_nil_r. auto.
    + destruct (MainLoop_body_events lastTime m) as (tr1 & H1 & A1).
      pose proof (MainLoop_body_sim wall lastTime m) as Hsim.
      destruct (MainLoop_body wall lastTime m) as [lt m'].
      cbn [snd] in H1, Hsim.
      destruct (IH lt m') as (tr2 & H2 & A2).
      rewrite Hsim in A2.
      exists (tr1 ++ tr2). rewrite H2, H1, app_assoc.
      split; [reflexivity|].
      apply Forall_app. auto.
Qed.

(** The events of a call of [MainLoop], and the simulator it leaves. *)
Lemma MainLoop_events (fuel : nat) (m : Machine) :
  sim (snd (MainLoop wall fuel m))
  = set_physicsThread true (set_state RUN (sim m)) /\
  exists tr : list Event,
    trace (snd (MainLoop wall fuel m)) = trace m ++ tr /\
    Forall (fun e => In e (frame_events (sim m)) \/
                     (exists elapsed, e = frame_sleep elapsed) \/
                     e = EvThreadStart \/ e = EvThreadJoin) tr.
Proof.
  unfold MainLoop. cbv [bind assign emit]. cbn [sim ticks trace].
  match goal with
  | |- context [MainLoop_while wall fuel ?lt ?m0] =>
      destruct (MainLoop_while_events fuel lt m0) as (tr & Htr & Hall);
      pose proof (MainLoop_while_sim wall fuel lt m0) as Hsim;
      destruct (MainLoop_while wall fuel lt m0) as [st m']
  end.
  cbn [snd sim trace] in Htr, Hsim, Hall.
  assert (Hall' : Forall (fun e => In e (frame_events (sim m)) \/
                     (exists elapsed, e = frame_sleep elapsed) \/
                     e = EvThreadStart \/ e = EvThreadJoin) tr).
  { eapply Forall_impl; [|exact Hall]. cbn. unfold frame_events. cbn.
    intros e [H | H]; auto. }
  destruct st; cbv [ret bind emit]; cbn [snd sim trace].
  - split; [exact Hsim|].
    exists (EvThreadStart :: tr). rewrite Htr, <- app_assoc.
    split; [reflexivity|]. constructor; auto.
  - split; [exact Hsim|].
    exists (EvThreadStart :: tr ++ [EvThreadJoin]).
    rewrite Htr, <- !app_assoc. split; [reflexivity|].
    constructor; auto. apply Forall_app. split; auto.
Qed.

(** X11.  [MainLoop] writes two members of the simulator: [state], which
    it sets to [RUN], and [physicsThread], which it sets to the thread it
    starts.  It only starts and joins the physics thread, updates the Gui,
    the cameras and the world graphics, processes the deferred loads and
    deletions, and sleeps: it never takes a mutex and never steps the
    world. *)
Theorem MainLoop_never_locks (fuel : nat) (m : Machine) :
  sim (snd (MainLoop wall fuel m))
  = set_physicsThread true (set_state RUN (sim m)) /\
  exists tr : list Event,
    trace (snd (MainLoop wall fuel m)) = trace m ++ tr /\
    Forall (fun e => is_main_loop_event e = true) tr.
Proof.
  destruct (MainLoop_events fuel m) as (Hsim & tr & Htr & Hall).
  split; [exact Hsim|]. exists tr. split; [exact Htr|].
  eapply Forall_impl; [|exact Hall]. cbn.
  unfold frame_events, frame_sleep.
  intros e [H | [(x & ->) | [-> | ->]]]; try reflexivity.
  destruct (gui (sim m)), (renderEngineEnabled (sim m)); cbn in H;
    repeat (destruct H as [<- | H]; [reflexivity|]); destruct H.
Qed.

End MainLoopMore.

(** ** Running without a render engine *)

Section HeadlessFacts.

Context {TC : TimeClass}.
Variable wall : nat -> Time.

Lemma frame_events_not_render (s : Simulator) (e : Event) :
  renderEngineEnabled s = false ->
  In e (frame_events s) -> is_render_event e = false.
Proof.
  unfold frame_events. intros ->.
  destruct (gui s); cbn; intros H;
    repeat (destruct H as [<- | H]; [reflexivity|]); destruct H.
Qed.

Lemma run_op_no_render (o : Op) (m : Machine) :
  renderEngineEnabled (sim m) = false ->
  exists tr : list Event,
    trace (run_op wall o m) = trace m ++ tr /\
    Forall (fun e => is_render_event e = false) tr.
Proof.
  intros Hre.
  destruct o; cbn [run_op].
  all: try (destruct m as [s0 t0 tr0 cl0]; cbn [sim] in Hre;
            unfold_methods; cbn; rewrite ?Hre; cbn;
            repeat (split_if; cbn; rewrite ?Hre; cbn);
            try impossible_tests; try absurd_tests;
            eexists;
            (split;
             [ first [ symmetry; apply app_nil_r
                     | rewrite <- ?app_assoc; cbn [app]; reflexivity ]
             | repeat constructor ]); fail).
  - (* MainLoop *)
    destruct (MainLoop_events wall fuel m) as (_ & tr & Htr & Hall).
    exists tr. split; [exact Htr|].
    eapply Forall_impl; [|exact Hall]. cbn.
    intros e [H | [(x & ->) | [-> | ->]]]; try reflexivity.
    eapply frame_events_not_render; eauto.
  - (* PhysicsLoop *)
    cbv [PhysicsLoop bind emit GetRealTime GetWallTime this ret].
    cbn [fst snd sim ticks trace].
    match goal with
    | |- context [PhysicsLoop_while wall fuel ?s ?r ?p ?m0] =>
        destruct (while_events_Forall wall s r p _
                    pass_events_not_render fuel m0) as (tr & Htr & Hall)
    end.
    cbn [trace] in Htr.
    exists (EvPhysicsInitForThread :: tr). rewrite Htr, <- app_assoc.
    split; [reflexivity|]. constructor; [reflexivity | exact Hall].
Qed.

Lemma run_op_keeps_render_off (o : Op) (m : Machine) :
  enables_render o = false ->
  renderEngineEnabled (sim m) = false ->
  renderEngineEnabled (sim (run_op wall o m)) = false.
Proof.
  intros Ho Hre.
  destruct (is_switch_setter o) eqn:Hsw.
  - destruct o; try discriminate Hsw; cbn in *.
    + exact Hre.
    + destruct enabled; [discriminate Ho | reflexivity].
    + exact Hre.
  - destruct (run_op_frame wall o m) as [_ Hsame].
    specialize (Hsame Hsw). unfold switches in Hsame.
    congruence.
Qed.

(** X12.  With the render engine disabled, no sequence of operations that
    does not enable it calls the render engine or refreshes the world
    graphics: not [Load], not [Close] or [Fini], not the loops. *)
Theorem headless_never_renders (os : list Op) (m : Machine) :
  renderEngineEnabled (sim m) = false ->
  forallb (fun o => negb (enables_render o)) os = true ->
  renderEngineEnabled (sim (run_ops wall os m)) = false /\
  exists tr : list Event,
    trace (run_ops wall os m) = trace m ++ tr /\
    Forall (fun e => is_render_event e = false) tr.
Proof.
  revert m. induction os as [|o os IH]; intros m Hre Hos.
  - cbn. split; [exact Hre|]. exists []. rewrite app_nil_r. auto.
  - cbn [forallb] in Hos. apply andb_true_iff in Hos.
    destruct Hos as [Ho Hos]. apply negb_true_iff in Ho.
    unfold run_ops in *. cbn [fold_left].
    destruct (run_op_no_render o m Hre) as (tr1 & H1 & A1).
    pose proof (run_op_keeps_render_off o m Ho Hre) as Hre'.
    destruct (IH (run_op wall o m) Hre' Hos) as (Hfin & tr2 & H2 & A2).
    split; [exact Hfin|].
    exists (tr1 ++ tr2). rewrite H2, H1, app_assoc.
    split; [reflexivity|]. apply Forall_app. auto.
Qed.

End HeadlessFacts.

(** Witness of [headless_never_renders]: a simulator with the render engine
    switched off is loaded, initialised, run and finalised. *)
Lemma headless_never_renders_witness :
  let wall := Scenario.late_clock in
  let m := run_ops wall [OpSetRenderEngineEnabled false] (Scenario.fresh wall) in
  let os := [OpLoad RenderScenario.good_env; OpInit true; OpMainLoop 3;
             OpPhysicsLoop (Scenario.engine 1000) 3; OpFini] in
  renderEngineEnabled (sim m) = false /\
  exists tr : list Event,
    trace (run_ops wall os m) = trace m ++ tr /\
    Forall (fun e => is_render_event e = false) tr.
Proof.
  intros wall m os.
  assert (Hre : renderEngineEnabled (sim m) = false) by reflexivity.
  split; [exact Hre|].
  exact (proj2 (headless_never_renders wall os m Hre eq_refl)).
Defined.

(** ** More on selection *)

Lemma shown_selected_app (t1 t2 : list Event) (shown : list ptr) :
  shown_selected (t1 ++ t2) shown
  = shown_selected t2 (shown_selected t1 shown).
Proof.
  revert shown. induction t1 as [|e t1 IH]; intros shown; [reflexivity|].
  destruct e; cbn; try apply IH. destruct b; apply IH.
Qed.

Lemma shown_boxes_app (t1 t2 : list Event) (shown : list ptr) :
  shown_boxes (t1 ++ t2) shown = shown_boxes t2 (shown_boxes t1 shown).
Proof.
  revert shown. induction t1 as [|e t1 IH]; intros shown; [reflexivity|].
  destruct e; cbn; try apply IH. destruct b; apply IH.
Qed.

Lemma last_cons_default (A : Type) (l : list A) (a x y : A) :
  last (a :: l) x = last (a :: l) y.
Proof.
  revert a. induction l as [|b l IH]; intros a; [reflexivity|].
  change (last (b :: l) x = last (b :: l) y). apply IH.
Qed.

Section SelectionMore.

Context {TC : TimeClass}.

(** One call keeps the agreement between the trace and [selectedEntity]. *)
Lemma SetSelectedEntity_agrees (ent : EntityPtr) (m : Machine) :
  shown_selected (trace m) [] = selection_list (selectedEntity (sim m)) ->
  shown_boxes (trace m) [] = selection_list (selectedEntity (sim m)) ->
  let m' := snd (SetSelectedEntity ent m) in
  shown_selected (trace m') [] = selection_list (selectedEntity (sim m')) /\
  shown_boxes (trace m') [] = selection_list (selectedEntity (sim m')) /\
  selectedEntity (sim m') = ent.
Proof.
  intros Hsel Hbox. rewrite SetSelectedEntity_spec. cbn [snd sim trace].
  rewrite !shown_selected_app, !shown_boxes_app, Hsel, Hbox.
  destruct (selectedEntity (sim m)) as [old|], ent as [e|];
    cbn; rewrite ?Pos.eqb_refl; cbn; auto.
Qed.

(** X13.  Over any sequence of calls of [SetSelectedEntity], the entities
    told they are selected and the selection boxes shown stay in step with
    [selectedEntity]: at most one entity is marked selected, the one that
    [GetSelectedEntity()] returns, which is the argument of the last call. *)
Theorem selection_agrees_with_trace (ents : list EntityPtr) (m : Machine) :
  shown_selected (trace m) [] = selection_list (selectedEntity (sim m)) ->
  shown_boxes (trace m) [] = selection_list (selectedEntity (sim m)) ->
  let m' := select_all ents m in
  shown_selected (trace m') [] = selection_list (GetSelectedEntity (sim m')) /\
  shown_boxes (trace m') [] = selection_list (GetSelectedEntity (sim m')) /\
  GetSelectedEntity (sim m') = last ents (GetSelectedEntity (sim m)).
Proof.
  unfold GetSelectedEntity, select_all.
  revert m. induction ents as [|ent ents IH]; intros m Hsel Hbox.
  - cbn. auto.
  - cbn [fold_left].
    destruct (SetSelectedEntity_agrees ent m Hsel Hbox) as (Hs & Hb & He).
    destruct (IH _ Hs Hb) as (Hs2 & Hb2 & Hl).
    cbv zeta. split; [exact Hs2|]. split; [exact Hb2|].
    cbv zeta in Hl. rewrite Hl, He.
    destruct ents as [|e ents']; [reflexivity|].
    change (last (ent :: e :: ents') (selectedEntity (sim m)))
      with (last (e :: ents') (selectedEntity (sim m))).
    apply last_cons_default.
Qed.

End SelectionMore.

(** Witness of [selection_agrees_with_trace]: three selections on a fresh
    simulator. *)
Lemma selection_agrees_with_trace_witness :
  let m := Scenario.fresh Scenario.late_clock in
  let ents := [Some 1%positive; Some 2%positive; Some 2%positive] in
  shown_selected (trace m) [] = selection_list (selectedEntity (sim m)) /\
  shown_boxes (trace m) [] = selection_list (selectedEntity (sim m)) /\
  GetSelectedEntity (sim (select_all ents m)) = Some 2%positive /\
  shown_selected (trace (select_all ents m)) [] = [2%positive].
Proof.
  intros m ents.
  assert (Hs : shown_selected (trace m) []
               = selection_list (selectedEntity (sim m))) by reflexivity.
  assert (Hb : shown_boxes (trace m) []
               = selection_list (selectedEntity (sim m))) by reflexivity.
  destruct (selection_agrees_with_trace ents m Hs Hb) as (H1 & _ & H3).
  split; [exact Hs|]. split; [exact Hb|]. split; [exact H3|].
  rewrite H1, H3. reflexivity.
Defined.

(** ** More on the parent search *)

Section ParentMore.

Variable h : EntityHeap.
Variable is_T : ptr -> bool.

(** When the search returns, it has called [GetParent] on every entity of
    the chain from the argument to the entity it returns, that one
    included, once each and in order; and more fuel changes nothing. *)
Lemma parent_loop_visits_chain (fuel : nat) (e : ptr) (visited : list ptr)
    (r : EntityPtr) :
  fst (parent_loop h is_T fuel (Some e) visited) = Returns r ->
  exists (k : nat) (a : ptr),
    r = Some a /\
    ancestor h k e = Some a /\
    (k < fuel)%nat /\
    snd (parent_loop h is_T fuel (Some e) visited) = visited ++ chain h k e /\
    forall fuel' : nat,
      (fuel <= fuel')%nat ->
      parent_loop h is_T fuel' (Some e) visited
      = parent_loop h is_T fuel (Some e) visited.
Proof.
  revert e visited. induction fuel as [|fuel IH]; intros e visited H.
  - discriminate.
  - cbn [parent_loop dynamic_cast] in H |- *.
    destruct (is_T e) eqn:He.
    + cbn in H. injection H as <-.
      exists 0%nat, e. cbn. repeat split; try lia.
      intros [|fuel'] Hf; [lia|].
      cbn [parent_loop dynamic_cast]. rewrite He. reflexivity.
    + cbn [NULL] in H |- *.
      destruct (GetParent h e) as [p|] eqn:Hp.
      * destruct (IH p _ H) as (k & a & -> & Ha & Hk & Hv & Hmore).
        exists (S k), a. cbn [ancestor chain]. rewrite Hp.
        repeat split; auto; try lia.
        -- rewrite Hv, <- app_assoc. reflexivity.
        -- intros [|fuel'] Hf; [lia|].
           cbn [parent_loop dynamic_cast]. rewrite He. cbn [NULL].
           rewrite Hp. apply Hmore. lia.
      * destruct fuel; cbn in H; discriminate.
Qed.

End ParentMore.

(** X14.  When [GetParentModel] (or [GetParentBody]) returns on a non-null
    argument, it has called [GetParent] on each entity of the parent chain
    from the argument up to and including the one it returns, in order and
    once each; the number of turns of the loop is the length of that chain,
    and a larger bound on the turns gives the same result. *)
Theorem parent_search_visits_chain (h : EntityHeap) (fuel : nat) (e : ptr)
    (r : EntityPtr) :
  (fst (GetParentModel h fuel (Some e)) = Returns r ->
   exists (k : nat) (a : ptr),
     r = Some a /\ ancestor h k e = Some a /\ (k < fuel)%nat /\
     snd (GetParentModel h fuel (Some e)) = chain h k e /\
     forall fuel' : nat,
       (fuel <= fuel')%nat ->
       GetParentModel h fuel' (Some e) = GetParentModel h fuel (Some e)) /\
  (fst (GetParentBody h fuel (Some e)) = Returns r ->
   exists (k : nat) (a : ptr),
     r = Some a /\ ancestor h k e = Some a /\ (k < fuel)%nat /\
     snd (GetParentBody h fuel (Some e)) = chain h k e /\
     forall fuel' : nat,
       (fuel <= fuel')%nat ->
       GetParentBody h fuel' (Some e) = GetParentBody h fuel (Some e)).
Proof.
  unfold GetParentModel, GetParentBody.
  split; intros H;
    destruct (parent_loop_visits_chain h _ fuel e [] r H)
      as (k & a & Hr & Ha & Hk & Hv & Hmore);
    exists k, a; auto.
Qed.

(** Witness of [parent_search_visits_chain]: the geom, its body and its
    model are visited to find the model of the geom. *)
Lemma parent_search_visits_chain_witness :
  let h := EntityScenario.heap in
  fst (GetParentModel h 4 (Some 1%positive)) = Returns (Some 3%positive) /\
  exists (k : nat) (a : ptr),
    Some 3%positive = Some a /\ ancestor h k 1%positive = Some a /\
    (k < 4)%nat /\
    snd (GetParentModel h 4 (Some 1%positive)) = chain h k 1%positive /\
    forall fuel' : nat,
      (4 <= fuel')%nat ->
      GetParentModel h fuel' (Some 1%positive)
      = GetParentModel h 4 (Some 1%positive).
Proof.
  intros h. split; [reflexivity|].
  exact (proj1 (parent_search_visits_chain h 4 1%positive (Some 3%positive))
           eq_refl).
Defined.

(** * Properties of the entity URIs *)

Module UriFacts.

Import Ascii String Uri UriSpec.
Local Open Scope char_scope.
Local Open Scope nat_scope.
Local Open Scope uri_scope.

(** ** Searching a string *)

Lemma find_if_None (p : ascii -> bool) (s : str) :
  find_if p s = None <-> forallb (fun c => negb (p c)) s = true.
Proof.
  induction s as [|c s IH]; cbn; [tauto|].
  destruct (p c); cbn.
  - split; discriminate.
  - destruct (find_if p s); cbn.
    + split; [discriminate|]. intros H. apply IH in H. discriminate.
    + tauto.
Qed.

Lemma find_if_Some (p : ascii -> bool) (s : str) (i : nat) :
  find_if p s = Some i ->
  i < List.length s /\
  (exists c, nth_error s i = Some c /\ p c = true) /\
  forallb (fun c => negb (p c)) (firstn i s) = true.
Proof.
  revert i. induction s as [|c s IH]; intros i; cbn; [discriminate|].
  destruct (p c) eqn:Hc.
  - intros [= <-]. cbn. repeat split; [lia | eauto].
  - destruct (find_if p s) as [j|]; cbn; [|discriminate].
    intros [= <-]. destruct (IH j eq_refl) as (Hlt & Hnth & Hpre).
    cbn. rewrite Hc. cbn. repeat split; [lia | exact Hnth | exact Hpre].
Qed.

Lemma find_if_app_miss (p : ascii -> bool) (a b : str) :
  forallb (fun c => negb (p c)) a = true ->
  find_if p (a ++ b) = option_map (Nat.add (List.length a)) (find_if p b).
Proof.
  induction a as [|c a IH]; cbn; intros H.
  - destruct (find_if p b); reflexivity.
  - apply andb_true_iff in H. destruct H as [Hc Ha].
    apply negb_true_iff in Hc. rewrite Hc, (IH Ha).
    destruct (find_if p b); reflexivity.
Qed.

Lemma find_if_app_hit (p : ascii -> bool) (a b : str) (c : ascii) :
  forallb (fun c => negb (p c)) a = true ->
  p c = true ->
  find_if p (a ++ c :: b) = Some (List.length a).
Proof.
  intros Ha Hc. rewrite (find_if_app_miss p a (c :: b) Ha). cbn.
  rewrite Hc. cbn. f_equal. lia.
Qed.

Lemma skipn_app_length (A : Type) (a b : list A) (k : nat) :
  skipn (List.length a + k) (a ++ b) = skipn k b.
Proof.
  induction a as [|x a IH]; [reflexivity | exact IH].
Qed.

Lemma find_if_from_app (p : ascii -> bool) (a b : str) (k : nat) :
  find_if_from p (List.length a + k) (a ++ b)
  = option_map (Nat.add (List.length a)) (find_if_from p k b).
Proof.
  unfold find_if_from. rewrite skipn_app_length.
  destruct (find_if p (skipn k b)); cbn; [f_equal; lia | reflexivity].
Qed.

Lemma find_if_from_ge (p : ascii -> bool) (pos i : nat) (s : str) :
  find_if_from p pos s = Some i ->
  pos <= i < List.length s /\
  (exists c, nth_error s i = Some c /\ p c = true) /\
  forallb (fun c => negb (p c)) (firstn (i - pos) (skipn pos s)) = true.
Proof.
  unfold find_if_from.
  destruct (find_if p (skipn pos s)) as [j|] eqn:Hj; cbn; [|discriminate].
  intros [= <-].
  destruct (find_if_Some p _ j Hj) as (Hlt & (c & Hnth & Hc) & Hpre).
  rewrite length_skipn in Hlt.
  replace (pos + j - pos) with j by lia.
  repeat split; try lia; [|exact Hpre].
  exists c. split; [|exact Hc].
  rewrite nth_error_skipn in Hnth. exact Hnth.
Qed.

Lemma substr_app (a b : str) (k n : nat) :
  substr (List.length a + k) n (a ++ b) = substr k n b.
Proof.
  unfold substr, size. rewrite length_app, skipn_app_length.
  destruct (List.length b <? k) eqn:H.
  - apply Nat.ltb_lt in H.
    replace (List.length a + List.length b <? List.length a + k) with true;
      [reflexivity|]. symmetry. apply Nat.ltb_lt. lia.
  - apply Nat.ltb_ge in H.
    replace (List.length a + List.length b <? List.length a + k) with false;
      [reflexivity|]. symmetry. apply Nat.ltb_ge. lia.
Qed.

Lemma at_app (a b : str) (k : nat) :
  at_ (a ++ b) (List.length a + k) = at_ b k.
Proof.
  unfold at_. rewrite nth_error_app2 by lia.
  replace (List.length a + k - List.length a) with k by lia. reflexivity.
Qed.

Lemma free_of_app (cs a b : str) :
  free_of cs (a ++ b) = free_of cs a && free_of cs b.
Proof. unfold free_of. apply forallb_app. Qed.

(** A string free of a larger set of characters is free of a smaller
    one. *)
Lemma free_of_weaken (cs cs' s : str) :
  (forall c, In c cs' -> In c cs) ->
  free_of cs s = true -> free_of cs' s = true.
Proof.
  intros Hsub. unfold free_of. rewrite !forallb_forall.
  intros H c Hc. specialize (H c Hc).
  apply negb_true_iff in H. apply negb_true_iff.
  destruct (existsb (Ascii.eqb c) cs') eqn:E; [|reflexivity].
  apply existsb_exists in E. destruct E as (x & Hx & Hcx).
  rewrite <- H. symmetry. apply existsb_exists. exists x. auto.
Qed.

Lemma find_if_split (p : ascii -> bool) (s : str) (i : nat) :
  find_if p s = Some i ->
  exists c, s = firstn i s ++ c :: skipn (S i) s /\ p c = true /\
            forallb (fun c => negb (p c)) (firstn i s) = true /\
            List.length (firstn i s) = i.
Proof.
  intros H. destruct (find_if_Some p s i H) as (Hlt & (c & Hnth & Hc) & Hpre).
  exists c. repeat split; try assumption.
  - rewrite <- (firstn_skipn i s) at 1. f_equal.
    clear - Hnth. revert s Hnth. induction i as [|i IH]; intros [|x s] H;
      cbn in *; try discriminate.
    + injection H as ->. reflexivity.
    + apply IH. exact H.
  - rewrite length_firstn. lia.
Qed.

Lemma forallb_ext_local (A : Type) (f g : A -> bool) (l : list A) :
  (forall a, f a = g a) -> forallb f l = forallb g l.
Proof.
  intros H. induction l as [|a l IH]; [reflexivity|].
  cbn. rewrite H, IH. reflexivity.
Qed.

Lemma existsb_single (c x : ascii) :
  existsb (Ascii.eqb c) [x] = Ascii.eqb x c.
Proof. cbn. rewrite orb_false_r. apply Ascii.eqb_sym. Qed.

Lemma free_of_single (x : ascii) (s : str) :
  free_of [x] s = forallb (fun c => negb (Ascii.eqb x c)) s.
Proof.
  unfold free_of. apply forallb_ext_local. intros c. rewrite existsb_single.
  reflexivity.
Qed.

Lemma find_if_from_0 (p : ascii -> bool) (s : str) :
  find_if_from p 0 s = find_if p s.
Proof.
  unfold find_if_from. cbn. destruct (find_if p s); reflexivity.
Qed.

Lemma find_char_0_None (x : ascii) (s : str) :
  find_char x 0 s = None <-> free_of [x] s = true.
Proof.
  unfold find_char. rewrite find_if_from_0, find_if_None, free_of_single.
  tauto.
Qed.

Lemma find_first_of_0_None (cs s : str) :
  find_first_of cs 0 s = None <-> free_of cs s = true.
Proof.
  unfold find_first_of. rewrite find_if_from_0, find_if_None. tauto.
Qed.

Lemma free_of_cons (x : ascii) (cs s : str) :
  free_of (x :: cs) s = free_of [x] s && free_of cs s.
Proof.
  unfold free_of. induction s as [|c s IH]; [reflexivity|].
  cbn [forallb]. rewrite IH. cbn [existsb].
  destruct (Ascii.eqb c x), (existsb (Ascii.eqb c) cs); cbn;
    rewrite ?andb_false_r; reflexivity.
Qed.

(** ** Entities *)

Lemma Validate_spec (s : str) :
  Validate s =
    if negb (free_of (lit " "%string) s) then Throw IdentifierHasWhitespace
    else if negb (free_of (lit "?"%string) s)
         then Throw IdentifierHasQuestionMark
         else Ok tt.
Proof.
  unfold Validate. change (lit " "%string) with [" "].
  change (lit "?"%string) with ["?"].
  destruct (find_char " " 0 s) eqn:H1.
  - destruct (free_of [" "] s) eqn:F; [|reflexivity].
    apply find_char_0_None in F. congruence.
  - apply find_char_0_None in H1. rewrite H1. cbn.
    destruct (find_char "?" 0 s) eqn:H2.
    + destruct (free_of ["?"] s) eqn:F; [|reflexivity].
      apply find_char_0_None in F. congruence.
    + apply find_char_0_None in H2. rewrite H2. reflexivity.
Qed.

Lemma Validate_ok (s : str) :
  free_of (lit " ?"%string) s = true -> Validate s = Ok tt.
Proof.
  intros H. rewrite Validate_spec.
  change (lit " ?"%string) with [" "; "?"] in H.
  rewrite free_of_cons in H. apply andb_true_iff in H. destruct H as [H1 H2].
  change (lit " "%string) with [" "]. change (lit "?"%string) with ["?"].
  rewrite H1, H2. reflexivity.
Qed.

Lemma UriEntity_copy_valid (e : UriEntity) :
  valid_entity e = true -> UriEntity_copy e = Ok e.
Proof.
  unfold valid_entity. intros H. apply andb_true_iff in H.
  destruct H as [Ht Hn].
  unfold UriEntity_copy, UriEntity_assign, SetType, SetName.
  rewrite (Validate_ok _ Ht). cbn. rewrite (Validate_ok _ Hn). cbn.
  destruct e; reflexivity.
Qed.

(** X16.  [SetType] and [SetName] store an identifier exactly when it has
    neither a blank nor a question mark, and leave the other identifier as
    it is; otherwise they throw, reporting the blank first; the copy of an
    entity whose identifiers pass is the entity itself. *)
Theorem identifiers_are_validated (id : str) (e : UriEntity) :
  SetType id e =
    (if negb (free_of (lit " "%string) id) then Throw IdentifierHasWhitespace
     else if negb (free_of (lit "?"%string) id)
          then Throw IdentifierHasQuestionMark
          else Ok {| type := id; name := name e |}) /\
  SetName id e =
    (if negb (free_of (lit " "%string) id) then Throw IdentifierHasWhitespace
     else if negb (free_of (lit "?"%string) id)
          then Throw IdentifierHasQuestionMark
          else Ok {| type := type e; name := id |}) /\
  (valid_entity e = true -> UriEntity_copy e = Ok e) /\
  (valid_entity e = false -> exists x, UriEntity_copy e = Throw x).
Proof.
  unfold SetType, SetName. rewrite !Validate_spec.
  split; [|split; [|split]].
  - destruct (free_of (lit " "%string) id), (free_of (lit "?"%string) id);
      reflexivity.
  - destruct (free_of (lit " "%string) id), (free_of (lit "?"%string) id);
      reflexivity.
  - apply UriEntity_copy_valid.
  - unfold valid_entity, UriEntity_copy, UriEntity_assign, SetType, SetName.
    rewrite !Validate_spec.
    change (lit " ?"%string) with [" "; "?"].
    rewrite !(free_of_cons " " ["?"]).
    change (lit " "%string) with [" "]. change (lit "?"%string) with ["?"].
    cbn [type name UriEntity_new].
    destruct (free_of [" "] (type e)), (free_of ["?"] (type e)),
      (free_of [" "] (name e)), (free_of ["?"] (name e)); cbn;
      intros H; try discriminate H; eauto.
Qed.

(** ** Nested entities *)

Lemma nth_error_copy (l : UriNestedEntity) (i : nat) (e : UriEntity) :
  forallb valid_entity l = true ->
  nth_error l i = Some e -> UriEntity_copy e = Ok e.
Proof.
  intros Hl Hn. apply UriEntity_copy_valid.
  rewrite forallb_forall in Hl. apply Hl.
  eapply nth_error_In. exact Hn.
Qed.

Lemma Entity_in_range (l : UriNestedEntity) (i : nat) (e : UriEntity) :
  forallb valid_entity l = true ->
  nth_error l i = Some e -> Entity i l = Ok e.
Proof.
  intros Hl Hn. unfold Entity.
  assert (Hlt : i < List.length l) by (apply nth_error_Some; congruence).
  destruct (List.length l <=? i) eqn:E; [apply Nat.leb_le in E; lia|].
  rewrite Hn. eapply nth_error_copy; eauto.
Qed.

(** X17.  A nested entity is a sequence: [AddEntity] appends a copy and
    [AddParentEntity] prepends one, without disturbing the entities already
    there; [Leaf] is the last entity and [Parent] the first; [Entity(i)]
    throws exactly when [i] is not below [EntityCount()], and [Parent] and
    [Leaf] throw exactly on the empty nested entity. *)
Theorem nested_entity_is_a_sequence (e : UriEntity) (l : UriNestedEntity) :
  valid_entity e = true ->
  forallb valid_entity l = true ->
  (AddEntity e l = Ok (l ++ [e]) /\
   EntityCount (l ++ [e]) = S (EntityCount l) /\
   Leaf (l ++ [e]) = Ok e /\
   Entity (EntityCount l) (l ++ [e]) = Ok e /\
   (forall i, i < EntityCount l -> Entity i (l ++ [e]) = Entity i l)) /\
  (AddParentEntity e l = Ok (e :: l) /\
   EntityCount (e :: l) = S (EntityCount l) /\
   Parent (e :: l) = Ok e /\
   (forall i, Entity (S i) (e :: l) = Entity i l)) /\
  (forall i, EntityCount l <= i <-> Entity i l = Throw IncorrectIndex) /\
  (forall i, i < EntityCount l ->
     exists x, nth_error l i = Some x /\ Entity i l = Ok x) /\
  (Parent l = Throw EmptyNestedEntity <-> l = []) /\
  (Leaf l = Throw EmptyNestedEntity <-> l = []).
Proof.
  intros He Hl. unfold EntityCount.
  assert (Hcopy := UriEntity_copy_valid e He).
  split; [|split; [|split; [|split; [|split]]]].
  - unfold AddEntity. rewrite Hcopy. cbn [bind].
    split; [reflexivity|]. split; [rewrite length_app; cbn; lia|].
    split; [|split].
    + unfold Leaf. rewrite last_last.
      destruct (l ++ [e]) eqn:E; [destruct l; discriminate E | exact Hcopy].
    + apply Entity_in_range.
      * rewrite forallb_app, Hl. cbn. rewrite He. reflexivity.
      * rewrite nth_error_app2 by lia. rewrite Nat.sub_diag. reflexivity.
    + intros i Hi. unfold Entity. rewrite length_app. cbn [List.length].
      rewrite nth_error_app1 by exact Hi.
      destruct (List.length l <=? i) eqn:E1; [apply Nat.leb_le in E1; lia|].
      destruct (List.length l + 1 <=? i) eqn:E2;
        [apply Nat.leb_le in E2; lia | reflexivity].
  - unfold AddParentEntity. rewrite Hcopy. cbn [bind].
    split; [reflexivity|]. split; [reflexivity|]. split; [exact Hcopy|].
    intros i. unfold Entity. cbn [List.length nth_error].
    reflexivity.
  - intros i. unfold Entity. split.
    + intros Hi. apply Nat.leb_le in Hi. rewrite Hi. reflexivity.
    + destruct (List.length l <=? i) eqn:E; [apply Nat.leb_le in E; lia|].
      apply Nat.leb_gt in E.
      destruct (nth_error l i) as [x|] eqn:Hn.
      * rewrite (nth_error_copy l i x Hl Hn). discriminate.
      * discriminate.
  - intros i Hi.
    destruct (nth_error l i) as [x|] eqn:Hn.
    + exists x. split; [reflexivity|]. apply Entity_in_range; assumption.
    + apply nth_error_None in Hn. lia.
  - destruct l as [|x l']; cbn.
    + tauto.
    + cbn in Hl. apply andb_true_iff in Hl. destruct Hl as [Hx _].
      rewrite (UriEntity_copy_valid x Hx). split; discriminate.
  - destruct l as [|x l']; cbn [Leaf].
    + tauto.
    + assert (Hin : In (last (x :: l') UriEntity_new) (x :: l')).
      { destruct (exists_last (l := x :: l')) as (l0 & a & E);
          [discriminate|]. rewrite E, last_last.
        apply in_or_app. right. left. reflexivity. }
      rewrite forallb_forall in Hl.
      rewrite (UriEntity_copy_valid _ (Hl _ Hin)). split; discriminate.
Qed.

(** Witness of [nested_entity_is_a_sequence]: adding the link to the nested
    entity that holds the model. *)
Lemma nested_entity_is_a_sequence_witness :
  valid_entity UriScenario.link_1 = true /\
  forallb valid_entity [UriScenario.model_1] = true /\
  AddEntity UriScenario.link_1 [UriScenario.model_1]
    = Ok [UriScenario.model_1; UriScenario.link_1] /\
  Leaf [UriScenario.model_1; UriScenario.link_1] = Ok UriScenario.link_1.
Proof.
  split; [reflexivity|]. split; [reflexivity|].
  destruct (nested_entity_is_a_sequence UriScenario.link_1
              [UriScenario.model_1] eq_refl eq_refl)
    as ((Hadd & _ & Hleaf & _) & _).
  split; [exact Hadd | exact Hleaf].
Defined.

Lemma for_range_copy (l done rest this : UriNestedEntity) :
  forallb valid_entity l = true ->
  l = done ++ rest ->
  for_range (List.length rest) (List.length done)
    (fun i this => e <- Entity i l ;; AddEntity e this) (this ++ done)
  = Ok (this ++ l).
Proof.
  intros Hl. revert done. induction rest as [|x rest IH]; intros done E.
  - cbn. rewrite app_nil_r in E. subst. reflexivity.
  - cbn [List.length for_range].
    assert (Hn : nth_error l (List.length done) = Some x).
    { subst l. rewrite nth_error_app2 by lia. rewrite Nat.sub_diag.
      reflexivity. }
    rewrite (Entity_in_range l _ x Hl Hn). cbn [bind].
    assert (Hadd : AddEntity x (this ++ done) = Ok ((this ++ done) ++ [x])).
    { unfold AddEntity. rewrite (nth_error_copy l _ x Hl Hn). reflexivity. }
    rewrite Hadd. cbn [bind].
    specialize (IH (done ++ [x])).
    rewrite length_app, Nat.add_1_r, app_assoc in IH. apply IH.
    subst l. rewrite <- app_assoc. reflexivity.
Qed.

Lemma UriNestedEntity_assign_valid (l this : UriNestedEntity) :
  forallb valid_entity l = true -> UriNestedEntity_assign l this = Ok l.
Proof.
  intros Hl. unfold UriNestedEntity_assign, EntityCount, Clear.
  exact (for_range_copy l [] l [] Hl eq_refl).
Qed.

Lemma UriParts_assign_valid (p this : UriParts) :
  forallb valid_entity (entity p) = true ->
  UriParts_assign p this = Ok p.
Proof.
  intros Hl. unfold UriParts_assign, SetEntity, SetWorld, SetParameters.
  cbn [entity world parameters].
  rewrite (UriNestedEntity_assign_valid _ _ Hl). cbn [bind].
  cbn [entity world parameters]. destruct p; reflexivity.
Qed.

Lemma store_set_same (A : Type) (r : Ref) (v : A) (h : Ref -> A) :
  store_set r v h r = v.
Proof. unfold store_set. rewrite Nat.eqb_refl. reflexivity. Qed.

Lemma store_set_other (A : Type) (r r' : Ref) (v : A) (h : Ref -> A) :
  r' <> r -> store_set r v h r' = h r'.
Proof.
  intros H. unfold store_set.
  destruct (Nat.eqb r' r) eqn:E; [apply Nat.eqb_eq in E; congruence|].
  reflexivity.
Qed.

Lemma firstn_snoc_nth (A : Type) (l : list A) (i : nat) (x : A) :
  nth_error l i = Some x -> firstn i l ++ [x] = firstn (S i) l.
Proof.
  revert i. induction l as [|a l IH]; intros [|i] H; try discriminate.
  - injection H as ->. reflexivity.
  - cbn [firstn app]. f_equal. apply IH. exact H.
Qed.

(** The loop of [operator=] between two different objects: when the
    target holds the first [i] entities of the source, it ends with the
    target holding them all and nothing else changed. *)
Lemma assign_entities_distinct (fuel : nat) :
  forall (i : nat) (this _p : Ref) (h : NestedStore),
  this <> _p ->
  forallb valid_entity (h _p) = true ->
  h this = firstn i (h _p) ->
  i <= List.length (h _p) ->
  List.length (h _p) - i < fuel ->
  exists h' : NestedStore,
    assign_entities fuel i this _p h = Ok h' /\
    h' this = h _p /\
    forall r : Ref, r <> this -> h' r = h r.
Proof.
  induction fuel as [|fuel IH]; intros i this _p h Hne Hv Hthis Hi Hfuel;
    [lia|].
  cbn [assign_entities]. unfold EntityCount.
  destruct (i <? List.length (h _p)) eqn:E.
  - apply Nat.ltb_lt in E.
    destruct (nth_error (h _p) i) as [x|] eqn:Hx;
      [|apply nth_error_None in Hx; lia].
    rewrite (Entity_in_range (h _p) i x Hv Hx). cbn [bind].
    assert (Hvx : valid_entity x = true).
    { rewrite forallb_forall in Hv. apply Hv.
      eapply nth_error_In. exact Hx. }
    unfold AddEntity. rewrite (UriEntity_copy_valid x Hvx). cbn [bind].
    set (h1 := store_set this (h this ++ [x]) h).
    assert (Hp1 : h1 _p = h _p).
    { unfold h1. apply store_set_other. congruence. }
    destruct (IH (S i) this _p h1 Hne) as (h' & Hrun & Hres & Hframe).
    + rewrite Hp1. exact Hv.
    + rewrite Hp1. unfold h1. rewrite store_set_same, Hthis.
      apply firstn_snoc_nth. exact Hx.
    + rewrite Hp1. lia.
    + rewrite Hp1. lia.
    + exists h'. split; [exact Hrun|]. split; [congruence|].
      intros r Hr. rewrite (Hframe r Hr). unfold h1.
      apply store_set_other. exact Hr.
  - apply Nat.ltb_ge in E. exists h. split; [reflexivity|].
    split; [|reflexivity].
    rewrite Hthis. apply firstn_all2. lia.
Qed.

(** X18.  Assignment between two different objects reproduces its
    argument when the entities of the argument are acceptable to
    [Validate]: [UriNestedEntity::operator=] leaves the target with the
    entities of the source, whatever it held before, and touches no other
    object, which is what the assignment on values and the copy constructor
    give; [UriParts::operator=] leaves the target with the world, the
    entities and the parameters of the source.  Assignment of an object to
    itself does not: line 214 clears the entities before line 215 reads
    their number, so a nested entity assigned to itself is left empty, and
    parts assigned to themselves keep their world and their parameters and
    lose their entities. *)
Theorem copies_are_equal (fuel : nat) (this _p : Ref) (h : NestedStore)
    (ph : PartsStore) :
  (this <> _p ->
   forallb valid_entity (h _p) = true ->
   List.length (h _p) < fuel ->
   (exists h' : NestedStore,
      UriNestedEntity_assign_obj fuel this _p h = Ok h' /\
      h' this = h _p /\
      forall r : Ref, r <> this -> h' r = h r) /\
   UriNestedEntity_assign (h _p) (h this) = Ok (h _p) /\
   UriNestedEntity_copy (h _p) = Ok (h _p)) /\
  (1 <= fuel ->
   UriNestedEntity_assign_obj fuel this this h = Ok (store_set this [] h)) /\
  (this <> _p ->
   forallb valid_entity (nested ph _p) = true ->
   List.length (nested ph _p) < fuel ->
   exists ph' : PartsStore,
     UriParts_assign_obj fuel this _p ph = Ok ph' /\
     worlds ph' this = worlds ph _p /\
     nested ph' this = nested ph _p /\
     params ph' this = params ph _p /\
     forall r : Ref,
       r <> this ->
       worlds ph' r = worlds ph r /\
       nested ph' r = nested ph r /\
       params ph' r = params ph r) /\
  (1 <= fuel ->
   exists ph' : PartsStore,
     UriParts_assign_obj fuel this this ph = Ok ph' /\
     worlds ph' this = worlds ph this /\
     nested ph' this = [] /\
     params ph' this = params ph this).
Proof.
  assert (Hdistinct : forall g : NestedStore,
            this <> _p ->
            forallb valid_entity (g _p) = true ->
            List.length (g _p) < fuel ->
            exists g' : NestedStore,
              UriNestedEntity_assign_obj fuel this _p g = Ok g' /\
              g' this = g _p /\
              forall r : Ref, r <> this -> g' r = g r).
  { intros g Hne Hv Hfuel. unfold UriNestedEntity_assign_obj, Clear.
    set (g0 := store_set this [] g).
    assert (Hp0 : g0 _p = g _p)
      by (unfold g0; apply store_set_other; congruence).
    destruct (assign_entities_distinct fuel 0 this _p g0 Hne)
      as (g' & Hrun & Hres & Hframe).
    - rewrite Hp0. exact Hv.
    - unfold g0. rewrite store_set_same. reflexivity.
    - lia.
    - rewrite Hp0. lia.
    - exists g'. split; [exact Hrun|]. split; [congruence|].
      intros r Hr. rewrite (Hframe r Hr). unfold g0.
      apply store_set_other. exact Hr. }
  assert (Hself : forall g : NestedStore,
            1 <= fuel ->
            UriNestedEntity_assign_obj fuel this this g
            = Ok (store_set this [] g)).
  { intros g Hfuel. destruct fuel as [|fuel']; [lia|].
    unfold UriNestedEntity_assign_obj, Clear. cbn [assign_entities].
    unfold EntityCount. rewrite store_set_same. reflexivity. }
  split; [|split; [|split]].
  - intros Hne Hv Hfuel. split; [exact (Hdistinct h Hne Hv Hfuel)|].
    split; apply UriNestedEntity_assign_valid; exact Hv.
  - apply Hself.
  - intros Hne Hv Hfuel.
    destruct (Hdistinct (nested ph) Hne Hv Hfuel)
      as (g' & Hrun & Hres & Hframe).
    unfold UriParts_assign_obj. rewrite Hrun. cbn [bind].
    eexists. split; [reflexivity|]. cbn [worlds nested params].
    rewrite !store_set_same. split; [reflexivity|].
    split; [exact Hres|]. split; [reflexivity|].
    intros r Hr. rewrite !(store_set_other _ _ _ _ _ Hr).
    split; [reflexivity|]. split; [exact (Hframe r Hr) | reflexivity].
  - intros Hfuel. unfold UriParts_assign_obj.
    rewrite (Hself (nested ph) Hfuel). cbn [bind].
    eexists. split; [reflexivity|]. cbn [worlds nested params].
    rewrite !store_set_same. repeat split; reflexivity.
Qed.

(** Witness of [copies_are_equal]: in the example store, object 1 assigned
    from object 0 holds the two entities of object 0, and object 0 assigned
    to itself is left empty. *)
Lemma copies_are_equal_witness :
  (exists h' : NestedStore,
     UriNestedEntity_assign_obj 3 1 0 UriScenario.pose_store = Ok h' /\
     h' 1 = [UriScenario.model_1; UriScenario.link_1]) /\
  (exists h' : NestedStore,
     UriNestedEntity_assign_obj 3 0 0 UriScenario.pose_store = Ok h' /\
     h' 0 = []).
Proof.
  destruct (copies_are_equal 3 1 0 UriScenario.pose_store
              {| worlds := fun _ => []; nested := UriScenario.pose_store;
                 params := fun _ => [] |})
    as (Hdistinct & _).
  destruct (copies_are_equal 3 0 0 UriScenario.pose_store
              {| worlds := fun _ => []; nested := UriScenario.pose_store;
                 params := fun _ => [] |})
    as (_ & Hself & _).
  split.
  - destruct (Hdistinct (fun E => O_S 0 (eq_sym E)) eq_refl
                (le_n 3)) as ((h' & Hrun & Hres & _) & _).
    exists h'. split; [exact Hrun | exact Hres].
  - eexists. split; [exact (Hself (le_S 1 2 (le_S 1 1 (le_n 1))))|].
    reflexivity.
Defined.

(** ** Parsing *)

Lemma prefixb_spec (pat s : str) :
  prefixb pat s = true <-> exists rest, s = pat ++ rest.
Proof.
  revert s. induction pat as [|a pat IH]; intros s; cbn.
  - split; eauto.
  - destruct s as [|b s].
    + split; [discriminate | intros (rest & H); discriminate].
    + rewrite andb_true_iff, Ascii.eqb_eq, IH. split.
      * intros (-> & rest & ->). eauto.
      * intros (rest & [= -> ->]). eauto.
Qed.

Lemma find_str_0 (pat s : str) :
  find_str pat s = Some 0 <-> prefixb pat s = true.
Proof.
  destruct s as [|c s]; cbn; destruct (prefixb pat _) eqn:E;
    try tauto; split; try discriminate.
  destruct (find_str pat s); discriminate.
Qed.

Lemma substr_0 (n : nat) (s : str) : substr 0 n s = Ok (firstn n s).
Proof. reflexivity. Qed.

Lemma ParseWorld_spec (_uri : str) :
  (exists r, ParseWorld _uri = Ok r) /\
  (forall (w : str) (next : nat),
     ParseWorld _uri = Ok (Some (w, next)) <->
     free_of (lit " "%string) _uri = true /\
     free_of (lit "/"%string) w = true /\
     next = 7 + List.length w /\
     exists rest, _uri = lit "/world/"%string ++ w ++ lit "/"%string ++ rest).
Proof.
  change (lit " "%string) with [" "]. change (lit "/"%string) with ["/"].
  unfold ParseWorld.
  destruct (find_char " " 0 _uri) as [i|] eqn:Hsp.
  { split; [eauto|]. intros w next. split; [discriminate|].
    intros (Hf & _). apply find_char_0_None in Hf. congruence. }
  apply find_char_0_None in Hsp.
  destruct (find_str kDelimWorld _uri) as [[|n]|] eqn:Hpre.
  - apply find_str_0, prefixb_spec in Hpre. destruct Hpre as (r & ->).
    change (size kDelimWorld) with (List.length kDelimWorld + 0).
    unfold find_char. rewrite find_if_from_app, find_if_from_0.
    destruct (find_if (Ascii.eqb "/") r) as [j|] eqn:Hj; cbn [option_map].
    + destruct (find_if_split _ _ _ Hj) as (c & Hr & Hc & Hfree & Hlen).
      apply Ascii.eqb_eq in Hc. subst c.
      replace (List.length kDelimWorld + j - (List.length kDelimWorld + 0))
        with j by lia.
      rewrite substr_app, substr_0. cbn [bind].
      split; [eauto|]. intros w next. split.
      * intros [= <- <-]. split; [exact Hsp|].
        rewrite free_of_single. split; [exact Hfree|].
        split; [rewrite Hlen; reflexivity|].
        exists (skipn (S j) r). change (lit "/world/"%string) with kDelimWorld.
        f_equal. exact Hr.
      * intros (_ & Hw & -> & rest & E).
        change (lit "/world/"%string) with kDelimWorld in E.
        apply app_inv_head in E. subst r.
        change (w ++ ["/"] ++ rest) with (w ++ "/" :: rest) in *.
        rewrite free_of_single in Hw.
        rewrite (find_if_app_hit _ w rest "/" Hw (Ascii.eqb_refl _)) in Hj.
        injection Hj as <-.
        rewrite firstn_app, firstn_all, Nat.sub_diag. cbn.
        rewrite app_nil_r. reflexivity.
    + split; [eauto|]. intros w next. split; [discriminate|].
      intros (_ & Hw & _ & rest & E).
      change (lit "/world/"%string) with kDelimWorld in E.
      apply app_inv_head in E. subst r.
      change (w ++ ["/"] ++ rest) with (w ++ "/" :: rest) in *.
      rewrite free_of_single in Hw.
      rewrite (find_if_app_hit _ w rest "/" Hw (Ascii.eqb_refl _)) in Hj.
      discriminate.
  - split; [eauto|]. intros w next. split; [discriminate|].
    intros (_ & _ & _ & rest & E).
    assert (H0 : find_str kDelimWorld _uri = Some 0).
    { apply find_str_0, prefixb_spec. eauto. }
    congruence.
  - split; [eauto|]. intros w next. split; [discriminate|].
    intros (_ & _ & _ & rest & E).
    assert (H0 : find_str kDelimWorld _uri = Some 0).
    { apply find_str_0, prefixb_spec. eauto. }
    congruence.
Qed.

(** X19.  [ParseWorld] never throws, and it succeeds exactly on a text
    without blanks of the form [/world/<world>/<rest>] where the world name
    has no [/]; it then returns that world name and the index of the [/]
    that ends it. *)
Theorem ParseWorld_decomposes (_uri : str) :
  (exists r, ParseWorld _uri = Ok r) /\
  (forall (w : str) (next : nat),
     ParseWorld _uri = Ok (Some (w, next)) <->
     free_of (lit " "%string) _uri = true /\
     free_of (lit "/"%string) w = true /\
     next = 7 + List.length w /\
     exists rest, _uri = lit "/world/"%string ++ w ++ lit "/"%string ++ rest).
Proof. exact (ParseWorld_spec _uri). Qed.

(** ** Operations at a position of a text given in two pieces *)

Lemma find_at (p : ascii -> bool) (uri P s : str) (i : nat) :
  uri = P ++ s -> i = List.length P ->
  find_if_from p i uri = option_map (Nat.add i) (find_if p s).
Proof.
  intros -> ->. rewrite <- (Nat.add_0_r (List.length P)) at 1.
  rewrite find_if_from_app, find_if_from_0. reflexivity.
Qed.

Lemma substr_at (uri P s : str) (i n : nat) :
  uri = P ++ s -> i = List.length P ->
  substr i n uri = Ok (firstn n s).
Proof.
  intros -> ->. rewrite <- (Nat.add_0_r (List.length P)).
  rewrite substr_app. reflexivity.
Qed.

Lemma substr_from_at (uri P s : str) (i : nat) :
  uri = P ++ s -> i = List.length P ->
  substr_from i uri = Ok s.
Proof.
  intros -> ->. unfold substr_from, size. rewrite length_app.
  destruct (List.length P + List.length s <? List.length P) eqn:E;
    [apply Nat.ltb_lt in E; lia|].
  rewrite <- (Nat.add_0_r (List.length P)), skipn_app_length. reflexivity.
Qed.

Lemma at_at (uri P s : str) (c : ascii) (i : nat) :
  uri = P ++ c :: s -> i = List.length P ->
  at_ uri i = Ok c.
Proof.
  intros -> ->. rewrite <- (Nat.add_0_r (List.length P)), at_app.
  reflexivity.
Qed.

Lemma firstn_app_exact (A : Type) (a b : list A) :
  firstn (List.length a) (a ++ b) = a.
Proof.
  rewrite firstn_app, firstn_all, Nat.sub_diag. cbn. apply app_nil_r.
Qed.

Ltac solve_split :=
  repeat (first [rewrite <- app_assoc | progress cbn [app]]); reflexivity.
Ltac solve_len :=
  unfold size;
  repeat (first [rewrite length_app | progress cbn [List.length]]); lia.

Lemma free_of_sub (cs cs' s : str) :
  forallb (fun c => existsb (Ascii.eqb c) cs) cs' = true ->
  free_of cs s = true -> free_of cs' s = true.
Proof.
  intros Hsub. apply free_of_weaken. intros c Hc.
  rewrite forallb_forall in Hsub. specialize (Hsub c Hc).
  apply existsb_exists in Hsub. destruct Hsub as (x & Hx & E).
  apply Ascii.eqb_eq in E. subst. exact Hx.
Qed.

Lemma free_of_pred (cs s : str) :
  free_of cs s = true ->
  forallb (fun c => negb (existsb (Ascii.eqb c) cs)) s = true.
Proof. exact (fun H => H). Qed.

Lemma free_of_char_pred (x : ascii) (cs s : str) :
  existsb (Ascii.eqb x) cs = true ->
  free_of cs s = true ->
  forallb (fun c => negb (Ascii.eqb x c)) s = true.
Proof.
  intros Hx H. rewrite <- free_of_single.
  apply (free_of_sub cs [x] s); [|exact H].
  cbn. rewrite Hx. reflexivity.
Qed.

(** What [ParseOneEntity] does at the start of [/type/name] followed by
    nothing, by the next entity or by the parameters. *)
Lemma ParseOneEntity_text (pre t n rest : str) :
  free_of (lit " /?"%string) t = true ->
  free_of (lit " /?&="%string) n = true ->
  n <> [] ->
  (rest = [] \/ exists c r, rest = c :: r /\ (c = "/" \/ c = "?")) ->
  ParseOneEntity (pre ++ "/" :: t ++ "/" :: n ++ rest) (List.length pre)
  = Ok (Some ({| type := t; name := n |},
              List.length pre + 2 + List.length t + List.length n)).
Proof.
  intros Ht Hn Hne Hrest.
  set (uri := pre ++ "/" :: t ++ "/" :: n ++ rest).
  unfold ParseOneEntity, find_char.
  rewrite (find_at _ uri (pre ++ ["/"]) (t ++ "/" :: n ++ rest)
             (List.length pre + 1));
    [|subst uri; solve_split | solve_len].
  rewrite (find_if_app_hit _ t (n ++ rest) "/");
    [|apply (free_of_char_pred "/" (lit " /?"%string)); [reflexivity|exact Ht]
     |reflexivity].
  cbn [option_map].
  rewrite (substr_at uri (pre ++ ["/"]) (t ++ "/" :: n ++ rest)
             (List.length pre + 1));
    [|subst uri; solve_split | solve_len].
  replace (List.length pre + 1 + List.length t - List.length pre - 1)
    with (List.length t) by lia.
  rewrite firstn_app_exact. cbn [bind].
  unfold SetType.
  rewrite (Validate_ok t);
    [|apply (free_of_sub (lit " /?"%string)); [reflexivity|exact Ht]].
  cbn [bind name UriEntity_new].
  unfold find_first_of.
  rewrite (find_at _ uri (pre ++ "/" :: t ++ ["/"]) (n ++ rest)
             (List.length pre + 1 + List.length t + 1));
    [|subst uri; solve_split | solve_len].
  assert (Hn1 : forallb
            (fun c => negb (existsb (Ascii.eqb c) (lit "/?"%string))) n = true).
  { apply (free_of_sub (lit " /?&="%string) (lit "/?"%string));
      [reflexivity | exact Hn]. }
  assert (Hn2 : find_if_from
            (fun c => existsb (Ascii.eqb c) (lit "?&="%string)) 0 n = None).
  { apply find_first_of_0_None.
    apply (free_of_sub (lit " /?&="%string) (lit "?&="%string));
      [reflexivity | exact Hn]. }
  assert (Hval : Validate n = Ok tt).
  { apply Validate_ok.
    apply (free_of_sub (lit " /?&="%string) (lit " ?"%string));
      [reflexivity | exact Hn]. }
  destruct Hrest as [-> | (c & r & -> & Hc)].
  - rewrite app_nil_r.
    replace (find_if _ n) with (@None nat)
      by (symmetry; apply find_if_None; exact Hn1).
    cbn [option_map].
    assert (Hsz : size uri
                  = List.length pre + 1 + List.length t + 1 + List.length n).
    { subst uri. rewrite app_nil_r. solve_len. }
    rewrite Hsz.
    destruct (List.length pre + 1 + List.length t + 1 =?
              List.length pre + 1 + List.length t + 1 + List.length n) eqn:E.
    { apply Nat.eqb_eq in E. destruct n; [congruence | cbn in E; lia]. }
    rewrite (substr_at uri (pre ++ "/" :: t ++ ["/"]) n
               (List.length pre + 1 + List.length t + 1));
      [|subst uri; rewrite app_nil_r; solve_split | solve_len].
    replace (List.length pre + 1 + List.length t + 1 + List.length n
             - (List.length pre + 1 + List.length t + 1))
      with (List.length n) by lia.
    rewrite firstn_all. cbn [bind]. rewrite Hn2.
    unfold SetName. rewrite Hval. cbn [bind type].
    do 3 f_equal. lia.
  - rewrite (find_if_app_hit _ n r c Hn1);
      [|destruct Hc as [-> | ->]; reflexivity].
    cbn [option_map].
    rewrite (substr_at uri (pre ++ "/" :: t ++ ["/"]) (n ++ c :: r)
               (List.length pre + 1 + List.length t + 1));
      [|subst uri; solve_split | solve_len].
    replace (List.length pre + 1 + List.length t + 1 + List.length n
             - (List.length pre + 1 + List.length t + 1))
      with (List.length n) by lia.
    rewrite firstn_app_exact. cbn [bind]. rewrite Hn2.
    unfold SetName. rewrite Hval. cbn [bind type].
    do 3 f_equal. lia.
Qed.

Lemma plain_entity_valid (e : UriEntity) :
  plain_entity e = true -> valid_entity e = true.
Proof.
  unfold plain_entity, valid_entity. intros H.
  apply andb_true_iff in H. destruct H as [H _].
  apply andb_true_iff in H. destruct H as [Ht Hn].
  apply andb_true_iff. split.
  - apply (free_of_sub (lit " /?"%string)); [reflexivity | exact Ht].
  - apply (free_of_sub (lit " /?&="%string)); [reflexivity | exact Hn].
Qed.

Lemma plain_entities_valid (es : list UriEntity) :
  forallb plain_entity es = true -> forallb valid_entity es = true.
Proof.
  rewrite !forallb_forall. intros H e He.
  apply plain_entity_valid. auto.
Qed.

Lemma entities_text_cons (e : UriEntity) (es : list UriEntity) :
  entities_text (e :: es)
  = "/" :: type e ++ "/" :: name e ++ entities_text es.
Proof.
  unfold entities_text. cbn [flat_map].
  change (lit "/"%string) with ["/"]. solve_split.
Qed.

(** What the loop of [ParseEntity] does on the text of a non-empty list of
    plain entities followed by nothing or by the parameters. *)
Lemma ParseEntity_loop_text (es : list UriEntity) :
  forall (e : UriEntity) (fuel : nat) (pre tail : str)
         (acc : UriNestedEntity),
  forallb plain_entity (e :: es) = true ->
  forallb valid_entity acc = true ->
  (tail = [] \/ exists r, tail = "?" :: r) ->
  List.length (e :: es) <= fuel ->
  ParseEntity_loop fuel (pre ++ entities_text (e :: es) ++ tail)
    (List.length pre) acc
  = Ok (Some (List.length pre + List.length (entities_text (e :: es)),
              acc ++ e :: es)).
Proof.
  induction es as [|e' es IH]; intros e fuel pre tail acc Hpl Hacc Htail Hf.
  - (* the last entity *)
    destruct fuel as [|fuel]; [cbn in Hf; lia|].
    cbn in Hpl. rewrite andb_true_r in Hpl.
    assert (Hv := plain_entity_valid e Hpl).
    unfold plain_entity in Hpl.
    apply andb_true_iff in Hpl. destruct Hpl as [Hpl Hne].
    apply andb_true_iff in Hpl. destruct Hpl as [Ht Hn].
    assert (Hne' : name e <> []).
    { intros E. rewrite E in Hne. discriminate. }
    rewrite entities_text_cons. cbn [entities_text flat_map].
    rewrite app_nil_r.
    set (next := List.length pre + 2 + List.length (type e)
                 + List.length (name e)).
    assert (Hone : ParseOneEntity
                     (pre ++ ("/" :: type e ++ "/" :: name e) ++ tail)
                     (List.length pre)
                   = Ok (Some (e, next))).
    { replace (pre ++ ("/" :: type e ++ "/" :: name e) ++ tail)
        with (pre ++ "/" :: type e ++ "/" :: name e ++ tail) by solve_split.
      rewrite ParseOneEntity_text; try assumption.
      - destruct e; reflexivity.
      - destruct Htail as [-> | (r & ->)]; [left; reflexivity|].
        right. exists "?", r. auto. }
    cbn [ParseEntity_loop]. rewrite Hone. cbn [bind].
    unfold AddEntity. rewrite (UriEntity_copy_valid e Hv). cbn [bind].
    assert (Hlen : List.length ("/" :: type e ++ "/" :: name e)
                   = 2 + List.length (type e) + List.length (name e))
      by solve_len.
    destruct Htail as [-> | (r & ->)].
    + replace (size (pre ++ ("/" :: type e ++ "/" :: name e) ++ []) <=? next)
        with true by (symmetry; apply Nat.leb_le; subst next; solve_len).
      cbn [bind]. do 3 f_equal. subst next. solve_len.
    + replace (size (pre ++ ("/" :: type e ++ "/" :: name e) ++ "?" :: r)
               <=? next)
        with false by (symmetry; apply Nat.leb_gt; subst next; solve_len).
      rewrite (at_at _ (pre ++ "/" :: type e ++ "/" :: name e) r "?" next);
        [|solve_split | subst next; solve_len].
      cbn [bind]. change (Ascii.eqb "?" "?") with true. cbv iota.
      do 3 f_equal. subst next. solve_len.
  - (* an entity followed by another *)
    destruct fuel as [|fuel]; [cbn in Hf; lia|].
    cbn [forallb] in Hpl. apply andb_true_iff in Hpl.
    destruct Hpl as [Hpe Hrest].
    assert (Hv := plain_entity_valid e Hpe).
    unfold plain_entity in Hpe.
    apply andb_true_iff in Hpe. destruct Hpe as [Hpe Hne].
    apply andb_true_iff in Hpe. destruct Hpe as [Ht Hn].
    assert (Hne' : name e <> []).
    { intros E. rewrite E in Hne. discriminate. }
    rewrite (entities_text_cons e).
    set (next := List.length pre + 2 + List.length (type e)
                 + List.length (name e)).
    set (more := entities_text (e' :: es)) in *.
    assert (Hmore : exists m, more = "/" :: m /\ 1 <= List.length m).
    { subst more. rewrite entities_text_cons.
      eexists. split; [reflexivity|]. solve_len. }
    destruct Hmore as (m & Hm & Hmlen).
    assert (Hone : ParseOneEntity
                     (pre ++ ("/" :: type e ++ "/" :: name e ++ more) ++ tail)
                     (List.length pre)
                   = Ok (Some (e, next))).
    { replace (pre ++ ("/" :: type e ++ "/" :: name e ++ more) ++ tail)
        with (pre ++ "/" :: type e ++ "/" :: name e ++ (more ++ tail))
        by solve_split.
      rewrite ParseOneEntity_text; try assumption.
      - destruct e; reflexivity.
      - right. rewrite Hm. exists "/", (m ++ tail). auto. }
    cbn [ParseEntity_loop]. rewrite Hone. cbn [bind].
    unfold AddEntity. rewrite (UriEntity_copy_valid e Hv). cbn [bind].
    set (uri := pre ++ ("/" :: type e ++ "/" :: name e ++ more) ++ tail).
    assert (Huri : uri = (pre ++ "/" :: type e ++ "/" :: name e)
                         ++ "/" :: (m ++ tail)).
    { subst uri. rewrite Hm. solve_split. }
    assert (Hnext : next = List.length (pre ++ "/" :: type e ++ "/" :: name e))
      by (subst next; solve_len).
    replace (size uri <=? next) with false
      by (symmetry; apply Nat.leb_gt; rewrite Huri, Hnext; solve_len).
    rewrite (at_at uri _ _ "/" next Huri Hnext). cbn [bind].
    change (Ascii.eqb "/" "?") with false. cbv iota. cbn [bind].
    replace (size uri <=? next + 1) with false
      by (symmetry; apply Nat.leb_gt; rewrite Huri, Hnext; solve_len).
    change (Ascii.eqb "/" "/" && false) with false. cbv iota.
    assert (Huri2 : uri = (pre ++ "/" :: type e ++ "/" :: name e)
                          ++ more ++ tail).
    { subst uri. solve_split. }
    rewrite Huri2, Hnext.
    rewrite (IH e' fuel _ tail (acc ++ [e])); try assumption.
    + subst more.
      do 3 f_equal; [solve_len | rewrite <- app_assoc; reflexivity].
    + rewrite forallb_app, Hacc. cbn. rewrite Hv. reflexivity.
    + cbn in Hf |- *. lia.
Qed.

(** What the loop of [ParseParameters] does on [k=v&k=v...]: the keys are
    cut off and dropped. *)
Lemma ParseParameters_loop_query (kvs : list (str * str)) :
  forall (k v : str) (fuel : nat) (pre : str) (acc : list str),
  forallb plain_pair ((k, v) :: kvs) = true ->
  snd (last ((k, v) :: kvs) ([], lit "x"%string)) <> [] ->
  List.length ((k, v) :: kvs) <= fuel ->
  ParseParameters_loop fuel
    (pre ++ k ++ "=" :: v
         ++ flat_map (fun kv => "&" :: fst kv ++ "=" :: snd kv) kvs)
    (List.length pre) acc
  = Ok (Some (acc ++ v :: map snd kvs)).
Proof.
  induction kvs as [|[k' v'] kvs IH]; intros k v fuel pre acc Hfree Hlast Hf.
  - destruct fuel as [|fuel]; [cbn in Hf; lia|].
    cbn [forallb] in Hfree. rewrite andb_true_r in Hfree.
    apply andb_true_iff in Hfree. cbn [fst snd] in Hfree.
    destruct Hfree as [Hk Hv].
    cbn [flat_map last snd map] in *. rewrite app_nil_r.
    set (uri := pre ++ k ++ "=" :: v).
    cbn [ParseParameters_loop]. unfold find_char.
    rewrite (find_at _ uri pre (k ++ "=" :: v) (List.length pre));
      [|reflexivity | reflexivity].
    rewrite (find_if_app_hit _ k v "=");
      [|apply (free_of_char_pred "=" (lit " ="%string));
          [reflexivity | exact Hk]
       |reflexivity].
    cbn [option_map].
    replace (List.length pre + List.length k =? size uri - 1) with false.
    2:{ symmetry. apply Nat.eqb_neq. subst uri.
        destruct v; [congruence|]. solve_len. }
    rewrite (substr_at uri pre (k ++ "=" :: v) (List.length pre));
      [|reflexivity | reflexivity].
    cbn [bind].
    rewrite (find_at _ uri (pre ++ k ++ ["="]) v
               (List.length pre + List.length k + 1));
      [|subst uri; solve_split | solve_len].
    replace (find_if (Ascii.eqb "&") v) with (@None nat).
    2:{ symmetry. apply find_if_None.
        apply (free_of_char_pred "&" (lit " &"%string));
          [reflexivity | exact Hv]. }
    cbn [option_map].
    rewrite (substr_from_at uri (pre ++ k ++ ["="]) v);
      [|subst uri; solve_split | solve_len].
    reflexivity.
  - destruct fuel as [|fuel]; [cbn in Hf; lia|].
    cbn [forallb] in Hfree. apply andb_true_iff in Hfree.
    destruct Hfree as [Hkv Hrest].
    apply andb_true_iff in Hkv. cbn [fst snd] in Hkv.
    destruct Hkv as [Hk Hv].
    cbn [flat_map fst snd map].
    set (more := flat_map (fun kv => "&" :: fst kv ++ "=" :: snd kv) kvs).
    set (uri := pre ++ k ++ "=" :: v ++ ("&" :: k' ++ "=" :: v') ++ more).
    cbn [ParseParameters_loop]. unfold find_char.
    rewrite (find_at _ uri pre
               (k ++ "=" :: v ++ ("&" :: k' ++ "=" :: v') ++ more)
               (List.length pre));
      [|reflexivity | reflexivity].
    rewrite (find_if_app_hit _ k _ "=");
      [|apply (free_of_char_pred "=" (lit " ="%string));
          [reflexivity | exact Hk]
       |reflexivity].
    cbn [option_map].
    replace (List.length pre + List.length k =? size uri - 1) with false.
    2:{ symmetry. apply Nat.eqb_neq. subst uri. solve_len. }
    rewrite (substr_at uri pre
               (k ++ "=" :: v ++ ("&" :: k' ++ "=" :: v') ++ more)
               (List.length pre));
      [|reflexivity | reflexivity].
    cbn [bind].
    rewrite (find_at _ uri (pre ++ k ++ ["="])
               (v ++ "&" :: k' ++ "=" :: v' ++ more)
               (List.length pre + List.length k + 1));
      [|subst uri; solve_split | solve_len].
    rewrite (find_if_app_hit _ v _ "&");
      [|apply (free_of_char_pred "&" (lit " &"%string));
          [reflexivity | exact Hv]
       |reflexivity].
    cbn [option_map].
    rewrite (substr_at uri (pre ++ k ++ ["="])
               (v ++ "&" :: k' ++ "=" :: v' ++ more)
               (List.length pre + List.length k + 1));
      [|subst uri; solve_split | solve_len].
    replace (List.length pre + List.length k + 1 + List.length v
             - (List.length pre + List.length k + 1))
      with (List.length v) by lia.
    rewrite firstn_app_exact. cbn [bind].
    assert (Huri : uri = (pre ++ k ++ "=" :: v ++ ["&"])
                         ++ k' ++ "=" :: v' ++ more).
    { subst uri. solve_split. }
    replace (List.length pre + List.length k + 1 + List.length v + 1)
      with (List.length (pre ++ k ++ "=" :: v ++ ["&"])) by solve_len.
    rewrite Huri. subst more.
    rewrite (IH k' v' fuel _ (acc ++ [v])).
    + rewrite <- app_assoc. reflexivity.
    + exact Hrest.
    + exact Hlast.
    + cbn in Hf |- *. lia.
Qed.

Lemma ParseParameters_query (kvs : list (str * str)) (fuel : nat)
    (pre : str) :
  forallb plain_pair kvs = true ->
  snd (last kvs ([], lit "x"%string)) <> [] ->
  List.length kvs <= fuel ->
  ParseParameters fuel (pre ++ query_text kvs) (List.length pre)
  = Ok (Some (map snd kvs)).
Proof.
  intros Hfree Hlast Hf. unfold ParseParameters.
  destruct kvs as [|[k v] kvs].
  - cbn [query_text]. rewrite app_nil_r. unfold size.
    rewrite Nat.leb_refl. reflexivity.
  - cbn [query_text fst snd].
    set (more := flat_map (fun kv => "&" :: fst kv ++ "=" :: snd kv) kvs).
    replace (size (pre ++ "?" :: k ++ "=" :: v ++ more) <=? List.length pre)
      with false by (symmetry; apply Nat.leb_gt; solve_len).
    rewrite (at_at _ pre (k ++ "=" :: v ++ more) "?" (List.length pre));
      [|reflexivity | reflexivity].
    cbn [bind]. change (negb (Ascii.eqb "?" "?")) with false. cbv iota.
    replace (List.length pre + 1) with (List.length (pre ++ ["?"]))
      by solve_len.
    replace (pre ++ "?" :: k ++ "=" :: v ++ more)
      with ((pre ++ ["?"]) ++ k ++ "=" :: v ++ more) by solve_split.
    subst more.
    rewrite (ParseParameters_loop_query kvs k v fuel (pre ++ ["?"]) []);
      auto.
Qed.

(** The canonical parameter text is the one with every key [p]. *)
Lemma parameters_text_query (ps : list str) :
  parameters_text ps = query_text (map (fun v => (["p"], v)) ps).
Proof.
  destruct ps as [|p ps]; [reflexivity|].
  cbn [parameters_text query_text map fst snd].
  change (lit "?p="%string) with ["?"; "p"; "="].
  cbn [app]. do 3 f_equal. f_equal.
  induction ps as [|q ps IH]; [reflexivity|].
  cbn [flat_map map fst snd]. rewrite IH. reflexivity.
Qed.

(** ** From parts to text and back *)

Lemma entities_text_free (es : list UriEntity) :
  forallb plain_entity es = true ->
  free_of (lit " "%string) (entities_text es) = true.
Proof.
  induction es as [|e es IH]; intros H; [reflexivity|].
  cbn [forallb] in H. apply andb_true_iff in H. destruct H as [He Hes].
  rewrite entities_text_cons.
  unfold plain_entity in He.
  apply andb_true_iff in He. destruct He as [He _].
  apply andb_true_iff in He. destruct He as [Ht Hn].
  change ("/" :: type e ++ "/" :: name e ++ entities_text es)
    with (["/"] ++ type e ++ ["/"] ++ name e ++ entities_text es).
  rewrite !free_of_app, (IH Hes).
  rewrite (free_of_sub (lit " /?"%string) (lit " "%string) _ eq_refl Ht).
  rewrite (free_of_sub (lit " /?&="%string) (lit " "%string) _ eq_refl Hn).
  reflexivity.
Qed.

Lemma plain_parts_inv (p : UriParts) :
  plain_parts p = true ->
  free_of (lit " /"%string) (world p) = true /\
  entity p <> [] /\
  forallb plain_entity (entity p) = true /\
  forallb (free_of (lit " &"%string)) (parameters p) = true /\
  last (parameters p) (lit "x"%string) <> [].
Proof.
  unfold plain_parts. intros H.
  repeat (apply andb_true_iff in H; destruct H as [H ?]).
  repeat split; try assumption.
  - intros E. rewrite E in *. discriminate.
  - intros E. rewrite E in *. discriminate.
Qed.

Lemma query_text_free (kvs : list (str * str)) :
  forallb plain_pair kvs = true ->
  free_of (lit " "%string) (query_text kvs) = true.
Proof.
  assert (Hpair : forall kv, plain_pair kv = true ->
            free_of (lit " "%string) (fst kv) = true /\
            free_of (lit " "%string) (snd kv) = true).
  { intros kv H. unfold plain_pair in H. apply andb_true_iff in H.
    destruct H as [Hk Hv]. split.
    - exact (free_of_sub (lit " ="%string) (lit " "%string) _ eq_refl Hk).
    - exact (free_of_sub (lit " &"%string) (lit " "%string) _ eq_refl Hv). }
  assert (Hmore : forall l, forallb plain_pair l = true ->
            free_of (lit " "%string)
              (flat_map (fun kv => "&" :: fst kv ++ "=" :: snd kv) l) = true).
  { induction l as [|kv l IH]; intros H; [reflexivity|].
    cbn [forallb] in H. apply andb_true_iff in H. destruct H as [Hkv Hl].
    destruct (Hpair kv Hkv) as [Hk Hv]. cbn [flat_map].
    change (("&" :: fst kv ++ "=" :: snd kv) ++
            flat_map (fun kv0 => "&" :: fst kv0 ++ "=" :: snd kv0) l)
      with (["&"] ++ (fst kv ++ ["="] ++ snd kv) ++
            flat_map (fun kv0 => "&" :: fst kv0 ++ "=" :: snd kv0) l).
    rewrite !free_of_app, Hk, Hv, (IH Hl). reflexivity. }
  destruct kvs as [|kv kvs]; intros H; [reflexivity|].
  cbn [forallb] in H. apply andb_true_iff in H. destruct H as [Hkv Hl].
  destruct (Hpair kv Hkv) as [Hk Hv]. cbn [query_text].
  change ("?" :: fst kv ++ "=" :: snd kv ++
          flat_map (fun kv0 => "&" :: fst kv0 ++ "=" :: snd kv0) kvs)
    with (["?"] ++ fst kv ++ ["="] ++ snd kv ++
          flat_map (fun kv0 => "&" :: fst kv0 ++ "=" :: snd kv0) kvs).
  rewrite !free_of_app, Hk, Hv, (Hmore _ Hl). reflexivity.
Qed.

Lemma query_text_head (kvs : list (str * str)) :
  query_text kvs = [] \/ exists r, query_text kvs = "?" :: r.
Proof.
  destruct kvs as [|kv kvs]; [left; reflexivity|].
  right. cbn [query_text]. eexists. reflexivity.
Qed.

(** Parsing [/world/<world>], the text of plain entities and a parameter
    text with any keys gives the world, the entities and the values. *)
Lemma Parse_query_text (w : str) (es : list UriEntity)
    (kvs : list (str * str)) (_parts : UriParts) (fuel : nat) :
  free_of (lit " /"%string) w = true ->
  es <> [] ->
  forallb plain_entity es = true ->
  forallb plain_pair kvs = true ->
  snd (last kvs ([], lit "x"%string)) <> [] ->
  List.length es <= fuel ->
  List.length kvs <= fuel ->
  Parse fuel (lit "/world/"%string ++ w ++ entities_text es ++ query_text kvs)
    _parts
  = Ok (true, {| world := w; entity := es; parameters := map snd kvs |}).
Proof.
  intros Hw Hne Hes Hps Hlast Hfe Hfp.
  destruct es as [|e es]; [congruence|].
  set (text := lit "/world/"%string ++ w ++ entities_text (e :: es)
               ++ query_text kvs).
  assert (Hworld : ParseWorld text = Ok (Some (w, 7 + List.length w))).
  { apply (proj2 (ParseWorld_spec text) w (7 + List.length w)).
    split; [|split; [|split]].
    - subst text. rewrite !free_of_app.
      rewrite (free_of_sub (lit " /"%string) (lit " "%string) _ eq_refl Hw).
      rewrite (entities_text_free _ Hes), (query_text_free _ Hps).
      reflexivity.
    - apply (free_of_sub (lit " /"%string) (lit "/"%string) _ eq_refl Hw).
    - reflexivity.
    - subst text. rewrite entities_text_cons.
      eexists. change (lit "/"%string) with ["/"]. solve_split. }
  unfold Parse. rewrite Hworld. cbn [bind].
  unfold ParseEntity, Clear, UriNestedEntity_new.
  assert (Hidx : 7 + List.length w = List.length (lit "/world/"%string ++ w))
    by (rewrite length_app; reflexivity).
  assert (Htext : text = (lit "/world/"%string ++ w)
                         ++ entities_text (e :: es) ++ query_text kvs).
  { subst text. rewrite <- app_assoc. reflexivity. }
  rewrite Hidx. rewrite Htext at 1.
  rewrite (ParseEntity_loop_text es e fuel _ _ []);
    [|exact Hes | reflexivity | apply query_text_head | exact Hfe].
  cbn [bind app].
  assert (Htext2 : text = ((lit "/world/"%string ++ w)
                           ++ entities_text (e :: es))
                          ++ query_text kvs).
  { subst text. rewrite <- !app_assoc. reflexivity. }
  rewrite <- length_app. rewrite Htext2.
  rewrite (ParseParameters_query kvs fuel _ Hps Hlast Hfp).
  cbn [bind]. unfold SetEntity, SetWorld, SetParameters.
  cbn [world entity parameters].
  rewrite (UriNestedEntity_assign_valid (e :: es) _
             (plain_entities_valid _ Hes)).
  reflexivity.
Qed.

Lemma plain_values_pairs (ps : list str) :
  forallb (free_of (lit " &"%string)) ps = true ->
  forallb plain_pair (map (fun v => (["p"], v)) ps) = true.
Proof.
  induction ps as [|q ps IH]; intros H; [reflexivity|].
  cbn [forallb map] in *. apply andb_true_iff in H.
  destruct H as [Hq Hps]. rewrite (IH Hps), andb_true_r.
  unfold plain_pair. cbn [fst snd]. rewrite Hq. reflexivity.
Qed.

Lemma last_value_pairs (ps : list str) :
  snd (last (map (fun v : str => (["p"], v)) ps) ([], lit "x"%string))
  = last ps (lit "x"%string).
Proof.
  induction ps as [|q [|r ps] IH]; [reflexivity | reflexivity|]. exact IH.
Qed.

(** Parsing the text of plain parts gives the parts back. *)
Lemma Parse_canonical_text (p _parts : UriParts) (fuel : nat) :
  plain_parts p = true ->
  List.length (entity p) <= fuel ->
  List.length (parameters p) <= fuel ->
  Parse fuel (canonical_text p) _parts = Ok (true, p).
Proof.
  intros Hp Hfe Hfp.
  destruct (plain_parts_inv p Hp) as (Hw & Hne & Hes & Hps & Hlast).
  unfold canonical_text. rewrite parameters_text_query.
  rewrite (Parse_query_text (world p) (entity p) _ _parts fuel Hw Hne Hes).
  - rewrite map_map. cbn [snd]. rewrite map_id. destruct p; reflexivity.
  - apply plain_values_pairs. exact Hps.
  - rewrite last_value_pairs. exact Hlast.
  - exact Hfe.
  - rewrite length_map. exact Hfp.
Qed.

Lemma for_range_entities_text (l done rest : UriNestedEntity) (acc : str) :
  forallb valid_entity l = true ->
  l = done ++ rest ->
  for_range (List.length rest) (List.length done)
    (fun i canonical =>
       e <- Entity i l ;;
       Ok (canonical ++ lit "/"%string ++ type e
                     ++ lit "/"%string ++ name e))
    acc
  = Ok (acc ++ entities_text rest).
Proof.
  intros Hl. revert done acc.
  induction rest as [|x rest IH]; intros done acc E.
  - cbn. rewrite app_nil_r. reflexivity.
  - cbn [List.length for_range].
    assert (Hn : nth_error l (List.length done) = Some x).
    { subst l. rewrite nth_error_app2 by lia. rewrite Nat.sub_diag.
      reflexivity. }
    rewrite (Entity_in_range l _ x Hl Hn). cbn [bind].
    specialize (IH (done ++ [x])).
    rewrite length_app, Nat.add_1_r in IH. rewrite IH.
    + f_equal. rewrite entities_text_cons.
      change (lit "/"%string) with ["/"]. solve_split.
    + subst l. rewrite <- app_assoc. reflexivity.
Qed.

Lemma for_range_parameters (l done rest : list str) (acc : str) :
  l = done ++ rest ->
  for_range (List.length rest) (List.length done)
    (fun i result =>
       match nth_error l i with
       | Some q => Ok (result ++ lit "&p="%string ++ q)
       | None => Throw out_of_range
       end)
    acc
  = Ok (acc ++ flat_map (fun q => lit "&p="%string ++ q) rest).
Proof.
  revert done acc. induction rest as [|x rest IH]; intros done acc E.
  - cbn. rewrite app_nil_r. reflexivity.
  - cbn [List.length for_range].
    assert (Hn : nth_error l (List.length done) = Some x).
    { subst l. rewrite nth_error_app2 by lia. rewrite Nat.sub_diag.
      reflexivity. }
    rewrite Hn. cbn [bind].
    specialize (IH (done ++ [x])).
    rewrite length_app, Nat.add_1_r in IH. rewrite IH.
    + f_equal. cbn [flat_map]. rewrite <- !app_assoc. reflexivity.
    + subst l. rewrite <- app_assoc. reflexivity.
Qed.

Lemma append_parameters_text (ps : list str) (result : str) :
  append_parameters ps result = Ok (result ++ parameters_text ps).
Proof.
  destruct ps as [|p ps].
  - cbn. rewrite app_nil_r. reflexivity.
  - unfold append_parameters. cbn [nth_error bind].
    replace (List.length (p :: ps) - 1) with (List.length ps)
      by (cbn [List.length]; lia).
    rewrite (for_range_parameters (p :: ps) [p] ps _ eq_refl).
    cbn [parameters_text]. rewrite <- !app_assoc. reflexivity.
Qed.

(** X20.  Round trip.  For parts whose world name has no blank or [/],
    that have at least one entity, whose types have no blank, [/] or [?],
    whose names are not empty and have no blank, [/], [?], [&] or [=], and
    whose parameters have no blank or [&] and do not end with an empty one:
    [Uri(parts)] succeeds, its canonical text is
    [/world/<world>/<type>/<name>...?p=<value>&p=<value>...], and [Split()]
    returns exactly the parts it was built from. *)
Theorem parts_round_trip (p : UriParts) (fuel : nat) :
  plain_parts p = true ->
  List.length (entity p) <= fuel ->
  List.length (parameters p) <= fuel ->
  Uri_of_parts fuel p
    = Ok {| parts := p; canonicalUri := canonical_text p; correct := true |}
  /\
  Split {| parts := p; canonicalUri := canonical_text p; correct := true |}
    = Ok p /\
  CanonicalUri []
    {| parts := p; canonicalUri := canonical_text p; correct := true |}
    = Ok (canonical_text p).
Proof.
  intros Hp Hfe Hfp.
  destruct (plain_parts_inv p Hp) as (Hw & Hne & Hes & Hps & Hlast).
  assert (Hv := plain_entities_valid _ Hes).
  split; [|split].
  - unfold Uri_of_parts, UriNestedEntity_copy.
    rewrite (UriNestedEntity_assign_valid _ _ Hv). cbn [bind].
    unfold EntityCount.
    rewrite (for_range_entities_text (entity p) [] (entity p) _ Hv eq_refl).
    cbn [bind]. rewrite append_parameters_text. cbn [bind].
    replace (((lit "/world/"%string ++ world p) ++ entities_text (entity p))
      ++ parameters_text (parameters p)) with (canonical_text p)
      by (unfold canonical_text; rewrite <- !app_assoc; reflexivity).
    rewrite (Parse_canonical_text p _ fuel Hp Hfe Hfp). reflexivity.
  - unfold Split. cbn [correct negb parts].
    rewrite (UriParts_assign_valid p UriParts_new Hv). reflexivity.
  - reflexivity.
Qed.

(** Witness of [parts_round_trip]: the example parts and their text. *)
Lemma parts_round_trip_witness :
  plain_parts UriScenario.pose_parts = true /\
  Uri_of_parts 2 UriScenario.pose_parts = Ok UriScenario.pose_uri /\
  Split UriScenario.pose_uri = Ok UriScenario.pose_parts.
Proof.
  split; [reflexivity|].
  destruct (parts_round_trip UriScenario.pose_parts 2 eq_refl
              (le_n 2) (le_n 2)) as (Hbuild & Hsplit & _).
  split; [exact Hbuild | exact Hsplit].
Defined.

Lemma Uri_of_string_pop (fuel : nat) (s : str) :
  Uri_of_string fuel (s ++ ["/"]) =
    (r <- Parse fuel s UriParts_new ;;
     if fst r
     then Ok {| parts := snd r; canonicalUri := s; correct := true |}
     else Throw UnableToParse).
Proof.
  unfold Uri_of_string.
  destruct (s ++ ["/"]) as [|c r] eqn:E; [destruct s; discriminate|].
  rewrite <- E, last_last, removelast_last. reflexivity.
Qed.

Lemma Uri_of_string_keep (fuel : nat) (s : str) :
  s <> [] -> last s " " <> "/" ->
  Uri_of_string fuel s =
    (r <- Parse fuel s UriParts_new ;;
     if fst r
     then Ok {| parts := snd r; canonicalUri := s; correct := true |}
     else Throw UnableToParse).
Proof.
  intros Hne Hlast. unfold Uri_of_string.
  destruct s as [|c r] eqn:E; [congruence|]. rewrite <- E in *.
  destruct (Ascii.eqb (last s " ") "/") eqn:Hb; [|reflexivity].
  apply Ascii.eqb_eq in Hb. congruence.
Qed.

(** X21.  The text constructor inverts the parts constructor.  For plain
    parts [p] (as in X20), [Uri(text)] on the canonical text of [p] followed
    by one [/] gives the URI of [p]: the trailing [/] is removed and is not
    part of the stored text.  On the canonical text itself it gives the URI
    of [p] when that text does not end in [/], and then the copy constructor
    returns an equal URI. *)
Theorem text_round_trip (p : UriParts) (fuel : nat) :
  plain_parts p = true ->
  List.length (entity p) <= fuel ->
  List.length (parameters p) <= fuel ->
  Uri_of_string fuel (canonical_text p ++ ["/"])
    = Ok {| parts := p; canonicalUri := canonical_text p; correct := true |}
  /\
  (last (canonical_text p) " " <> "/" ->
   Uri_of_string fuel (canonical_text p)
     = Ok {| parts := p; canonicalUri := canonical_text p; correct := true |}
   /\
   Uri_copy fuel
     {| parts := p; canonicalUri := canonical_text p; correct := true |}
     = Ok {| parts := p; canonicalUri := canonical_text p;
             correct := true |}).
Proof.
  intros Hp Hfe Hfp.
  assert (Hparse := Parse_canonical_text p UriParts_new fuel Hp Hfe Hfp).
  split.
  - rewrite Uri_of_string_pop, Hparse. reflexivity.
  - intros Hlast.
    assert (Hs : Uri_of_string fuel (canonical_text p)
              = Ok {| parts := p; canonicalUri := canonical_text p;
                      correct := true |}).
    { rewrite Uri_of_string_keep; [rewrite Hparse; reflexivity| |exact Hlast].
      unfold canonical_text. discriminate. }
    split; [exact Hs|].
    unfold Uri_copy, CanonicalUri. cbn [correct negb canonicalUri].
    unfold append_parameters. cbn [bind]. exact Hs.
Qed.

(** Witness of [text_round_trip]: the example text, with and without a
    trailing [/]. *)
Lemma text_round_trip_witness :
  plain_parts UriScenario.pose_parts = true /\
  last UriScenario.pose_text " " <> "/" /\
  Uri_of_string 2 (UriScenario.pose_text ++ ["/"]) = Ok UriScenario.pose_uri
  /\
  Uri_of_string 2 UriScenario.pose_text = Ok UriScenario.pose_uri.
Proof.
  split; [reflexivity|].
  assert (Hlast : last UriScenario.pose_text " " <> "/") by discriminate.
  split; [exact Hlast|].
  destruct (text_round_trip UriScenario.pose_parts 2 eq_refl
              (le_n 2) (le_n 2)) as (Hpop & Hkeep).
  split; [exact Hpop | exact (proj1 (Hkeep Hlast))].
Defined.

(** X22.  The keys of the parameters are not looked at.  A text
    [/world/<world>/<type>/<name>...?<key>=<value>&<key>=<value>...] whose
    keys have no blank or [=] and whose values have no blank or [&], the
    last value not empty, parses to the world, the entities and the values
    alone: to the same parts as the text with every key written [p]. *)
Theorem parameter_keys_are_ignored (w : str) (es : list UriEntity)
    (kvs : list (str * str)) (_parts : UriParts) (fuel : nat) :
  free_of (lit " /"%string) w = true ->
  es <> [] ->
  forallb plain_entity es = true ->
  forallb plain_pair kvs = true ->
  snd (last kvs ([], lit "x"%string)) <> [] ->
  List.length es <= fuel ->
  List.length kvs <= fuel ->
  Parse fuel (lit "/world/"%string ++ w ++ entities_text es ++ query_text kvs)
    _parts
  = Ok (true, {| world := w; entity := es; parameters := map snd kvs |})
  /\
  Parse fuel (lit "/world/"%string ++ w ++ entities_text es ++ query_text kvs)
    _parts
  = Parse fuel
      (canonical_text
         {| world := w; entity := es; parameters := map snd kvs |})
      _parts.
Proof.
  intros Hw Hne Hes Hps Hlast Hfe Hfp.
  assert (H1 := Parse_query_text w es kvs _parts fuel
                  Hw Hne Hes Hps Hlast Hfe Hfp).
  split; [exact H1|]. rewrite H1. symmetry.
  apply Parse_canonical_text; cbn [entity parameters];
    [|exact Hfe | rewrite length_map; exact Hfp].
  unfold plain_parts. cbn [world entity parameters].
  rewrite Hw, Hes. cbn [andb].
  destruct es as [|e es]; [congruence|]. cbn [List.length Nat.eqb negb andb].
  apply andb_true_iff. split.
  - clear - Hps. induction kvs as [|kv kvs IH]; [reflexivity|].
    cbn [forallb map] in *. apply andb_true_iff in Hps.
    destruct Hps as [Hkv Hl]. rewrite (IH Hl), andb_true_r.
    unfold plain_pair in Hkv. apply andb_true_iff in Hkv. apply Hkv.
  - apply negb_true_iff, Nat.eqb_neq. intros E. apply Hlast.
    apply length_zero_iff_nil.
    rewrite <- E. f_equal. clear.
    induction kvs as [|kv [|kv' kvs] IH]; [reflexivity | reflexivity|].
    exact IH.
Qed.

(** Witness of [parameter_keys_are_ignored]: the example text with the
    keys [a] and [key]. *)
Lemma parameter_keys_are_ignored_witness :
  forallb plain_pair UriScenario.keyed_pairs = true /\
  Parse 2 UriScenario.keyed_text UriParts_new
    = Ok (true, UriScenario.pose_parts).
Proof.
  split; [reflexivity|].
  assert (Hne : [UriScenario.model_1; UriScenario.link_1] <> [])
    by discriminate.
  assert (Hlast : snd (last UriScenario.keyed_pairs ([], lit "x"%string))
                  <> []) by discriminate.
  exact (proj1 (parameter_keys_are_ignored (lit "default"%string)
                  [UriScenario.model_1; UriScenario.link_1]
                  UriScenario.keyed_pairs UriParts_new 2
                  eq_refl Hne eq_refl eq_refl Hlast (le_n 2) (le_n 2))).
Defined.

(** ** What parsing can do on any text *)

Lemma substr_ok (pos len : nat) (s : str) :
  pos <= size s -> substr pos len s = Ok (firstn len (skipn pos s)).
Proof.
  intros H. unfold substr.
  destruct (size s <? pos) eqn:E; [apply Nat.ltb_lt in E; lia|reflexivity].
Qed.

Lemma substr_from_ok (pos : nat) (s : str) :
  pos <= size s -> substr_from pos s = Ok (skipn pos s).
Proof.
  intros H. unfold substr_from.
  destruct (size s <? pos) eqn:E; [apply Nat.ltb_lt in E; lia|reflexivity].
Qed.

Lemma at_ok (s : str) (i : nat) :
  i < size s -> exists c, at_ s i = Ok c.
Proof.
  intros H. unfold at_. destruct (nth_error s i) as [c|] eqn:E; [eauto|].
  apply nth_error_None in E. unfold size in H. lia.
Qed.

Lemma free_of_firstn (cs s : str) (n : nat) :
  free_of cs s = true -> free_of cs (firstn n s) = true.
Proof.
  intros H. rewrite <- (firstn_skipn n s), free_of_app in H.
  apply andb_true_iff in H. apply H.
Qed.

Lemma free_of_skipn (cs s : str) (n : nat) :
  free_of cs s = true -> free_of cs (skipn n s) = true.
Proof.
  intros H. rewrite <- (firstn_skipn n s), free_of_app in H.
  apply andb_true_iff in H. apply H.
Qed.

Lemma free_of_blank_question (s : str) :
  free_of (lit " "%string) s = true -> free_of (lit "?"%string) s = true ->
  free_of (lit " ?"%string) s = true.
Proof.
  intros H1 H2. change (lit " ?"%string) with (" " :: lit "?"%string).
  rewrite free_of_cons. change [" "] with (lit " "%string).
  rewrite H1, H2. reflexivity.
Qed.

(** An identifier cut out of a text without blanks passes [Validate] or
    has a question mark. *)
Lemma Validate_modes (s : str) :
  free_of (lit " "%string) s = true ->
  (Validate s = Ok tt /\ free_of (lit " ?"%string) s = true) \/
  Validate s = Throw IdentifierHasQuestionMark.
Proof.
  intros H. rewrite Validate_spec, H. cbn [negb].
  destruct (free_of (lit "?"%string) s) eqn:E; cbn [negb].
  - left. split; [reflexivity|]. apply free_of_blank_question; assumption.
  - right. reflexivity.
Qed.

(** [ParseOneEntity] on a text without blanks: it throws for a question
    mark in the type, or returns [false], or returns an entity that
    [Validate] accepts and an index further on, within the text. *)
Lemma ParseOneEntity_modes (uri : str) (from : nat) :
  free_of (lit " "%string) uri = true ->
  ParseOneEntity uri from = Throw IdentifierHasQuestionMark \/
  ParseOneEntity uri from = Ok None \/
  exists e next,
    ParseOneEntity uri from = Ok (Some (e, next)) /\
    valid_entity e = true /\ from < next <= size uri.
Proof.
  intros Hfree. unfold ParseOneEntity.
  destruct (find_char "/" (from + 1) uri) as [n|] eqn:H1;
    [|right; left; reflexivity].
  apply find_if_from_ge in H1. destruct H1 as (Hn & _ & _).
  rewrite substr_ok by (unfold size; lia). cbn [bind].
  set (ty := firstn (n - from - 1) (skipn (from + 1) uri)).
  assert (Hty : free_of (lit " "%string) ty = true)
    by (apply free_of_firstn, free_of_skipn, Hfree).
  unfold SetType. destruct (Validate_modes ty Hty) as [[-> Hvt]| ->];
    [|left; reflexivity].
  cbn [bind name UriEntity_new].
  assert (Hname : forall nm next,
            free_of (lit " "%string) nm = true ->
            from < next <= size uri ->
            (nm0 <- (match find_first_of (lit "?&="%string) 0 nm with
                     | Some _ => Ok None
                     | None =>
                         _entity <- SetName nm {| type := ty; name := [] |} ;;
                         Ok (Some (_entity, next))
                     end) ;; Ok nm0)
            = Ok None \/
            exists e,
              (match find_first_of (lit "?&="%string) 0 nm with
               | Some _ => Ok None
               | None =>
                   _entity <- SetName nm {| type := ty; name := [] |} ;;
                   Ok (Some (_entity, next))
               end) = Ok (Some (e, next)) /\ valid_entity e = true).
  { intros nm next Hnm Hnext.
    destruct (find_first_of (lit "?&="%string) 0 nm) eqn:H3;
      [left; reflexivity|].
    apply find_first_of_0_None in H3.
    assert (Hq : free_of (lit "?"%string) nm = true)
      by (apply (free_of_sub (lit "?&="%string) (lit "?"%string) _ eq_refl H3)).
    right. unfold SetName.
    rewrite (Validate_ok nm (free_of_blank_question nm Hnm Hq)).
    cbn [bind type]. eexists. split; [reflexivity|].
    unfold valid_entity. cbn [type name].
    rewrite Hvt, (free_of_blank_question nm Hnm Hq). reflexivity. }
  destruct (find_first_of (lit "/?"%string) (n + 1) uri) as [to|] eqn:H2.
  - apply find_if_from_ge in H2. destruct H2 as (Hto & _ & _).
    rewrite substr_ok by (unfold size; lia). cbn [bind].
    set (nm := firstn (to - (n + 1)) (skipn (n + 1) uri)).
    assert (Hnm : free_of (lit " "%string) nm = true)
      by (apply free_of_firstn, free_of_skipn, Hfree).
    destruct (Hname nm to Hnm) as [E|(e & E & He)];
      [unfold size; lia | |].
    + right. left.
      destruct (find_first_of (lit "?&="%string) 0 nm); [reflexivity|].
      cbn [bind] in E. unfold SetName in E |- *.
      destruct (Validate nm); cbn [bind] in E |- *; congruence.
    + right. right. exists e, to. rewrite E.
      split; [reflexivity|]. split; [exact He | unfold size; lia].
  - destruct (n + 1 =? size uri) eqn:Hend; [right; left; reflexivity|].
    apply Nat.eqb_neq in Hend.
    rewrite substr_ok by (unfold size; lia). cbn [bind].
    set (nm := firstn (size uri - (n + 1)) (skipn (n + 1) uri)).
    assert (Hnm : free_of (lit " "%string) nm = true)
      by (apply free_of_firstn, free_of_skipn, Hfree).
    destruct (Hname nm (size uri) Hnm) as [E|(e & E & He)];
      [unfold size; lia | |].
    + right. left.
      destruct (find_first_of (lit "?&="%string) 0 nm); [reflexivity|].
      cbn [bind] in E. unfold SetName in E |- *.
      destruct (Validate nm); cbn [bind] in E |- *; congruence.
    + right. right. exists e, (size uri). rewrite E.
      split; [reflexivity|]. split; [exact He | unfold size; lia].
Qed.

(** The loop of [ParseEntity] on a text without blanks ends within
    [size uri - from + 1] passes, with the same three outcomes. *)
Lemma ParseEntity_loop_modes (fuel : nat) :
  forall (uri : str) (from : nat) (acc : UriNestedEntity),
  free_of (lit " "%string) uri = true ->
  forallb valid_entity acc = true ->
  size uri - from < fuel ->
  ParseEntity_loop fuel uri from acc = Throw IdentifierHasQuestionMark \/
  ParseEntity_loop fuel uri from acc = Ok None \/
  exists next ents,
    ParseEntity_loop fuel uri from acc = Ok (Some (next, ents)) /\
    forallb valid_entity ents = true /\ ents <> [].
Proof.
  induction fuel as [|fuel IH]; intros uri from acc Hfree Hacc Hfuel; [lia|].
  cbn [ParseEntity_loop].
  destruct (ParseOneEntity_modes uri from Hfree)
    as [-> | [-> | (e & next & -> & He & Hnext)]];
    [left; reflexivity | right; left; reflexivity |].
  cbn [bind]. unfold AddEntity. rewrite (UriEntity_copy_valid e He).
  cbn [bind].
  assert (Hacc' : forallb valid_entity (acc ++ [e]) = true).
  { rewrite forallb_app, Hacc. cbn. rewrite He. reflexivity. }
  assert (Hne : acc ++ [e] <> []) by (destruct acc; discriminate).
  destruct (size uri <=? next) eqn:Hend; cbn [bind].
  { right. right. eauto. }
  apply Nat.leb_gt in Hend.
  destruct (at_ok uri next Hend) as (c & ->). cbn [bind].
  destruct (Ascii.eqb c "?"); [right; right; eauto|].
  destruct (Ascii.eqb c "/" && (size uri <=? next + 1));
    [right; right; eauto|].
  apply IH; [exact Hfree | exact Hacc' | lia].
Qed.

(** [ParseParameters] neither throws nor runs on: its loop ends within
    [size uri - from + 1] passes. *)
Lemma ParseParameters_loop_total (fuel : nat) :
  forall (uri : str) (from : nat) (acc : list str),
  size uri - from < fuel ->
  exists r, ParseParameters_loop fuel uri from acc = Ok r.
Proof.
  induction fuel as [|fuel IH]; intros uri from acc Hfuel; [lia|].
  cbn [ParseParameters_loop].
  destruct (find_char "=" from uri) as [to|] eqn:H1; [|eauto].
  apply find_if_from_ge in H1. destruct H1 as (Hto & _ & _).
  destruct (to =? size uri - 1); [eauto|].
  rewrite substr_ok by (unfold size; lia). cbn [bind].
  destruct (find_char "&" (to + 1) uri) as [to'|] eqn:H2.
  - apply find_if_from_ge in H2. destruct H2 as (Hto' & _ & _).
    rewrite substr_ok by (unfold size; lia). cbn [bind].
    apply IH. unfold size in *. lia.
  - rewrite substr_from_ok by (unfold size; lia). cbn [bind]. eauto.
Qed.

Lemma ParseParameters_total (fuel : nat) (uri : str) (from : nat) :
  size uri <= fuel ->
  exists r, ParseParameters fuel uri from = Ok r.
Proof.
  intros Hfuel. unfold ParseParameters.
  destruct (size uri <=? from) eqn:Hend; [eauto|].
  apply Nat.leb_gt in Hend.
  destruct (at_ok uri from Hend) as (c & ->). cbn [bind].
  destruct (negb (Ascii.eqb c "?")); [eauto|].
  apply ParseParameters_loop_total. lia.
Qed.

(** X23.  What [Parse] can do on any text.  Given as many loop passes as
    the text has characters, it ends, and in one of three ways only: it
    throws the question-mark exception of [Validate]; or it returns [false]
    and leaves the parts as they were; or it returns [true] with parts that
    have at least one entity, every entity accepted by [Validate], and a
    world name without blank or [/].  No [at] or [substr] is out of range
    and no blank is ever reported by [Validate]. *)
Theorem Parse_failure_modes (fuel : nat) (uri : str) (_parts : UriParts) :
  size uri <= fuel ->
  Parse fuel uri _parts = Throw IdentifierHasQuestionMark \/
  Parse fuel uri _parts = Ok (false, _parts) \/
  exists p,
    Parse fuel uri _parts = Ok (true, p) /\
    entity p <> [] /\
    forallb valid_entity (entity p) = true /\
    free_of (lit " /"%string) (world p) = true.
Proof.
  intros Hfuel. unfold Parse.
  destruct (ParseWorld_spec uri) as ((r & Hr) & Hspec). rewrite Hr.
  cbn [bind]. destruct r as [[w next]|]; [|right; left; reflexivity].
  destruct (proj1 (Hspec w next) Hr) as (Hfree & Hw & -> & rest & Huri).
  assert (Hsize : size uri - (7 + List.length w) < fuel).
  { assert (8 <= size uri); [|lia].
    rewrite Huri. unfold size. rewrite !length_app.
    change (List.length (lit "/world/"%string)) with 7.
    change (List.length (lit "/"%string)) with 1. lia. }
  unfold ParseEntity, Clear.
  destruct (ParseEntity_loop_modes fuel uri (7 + List.length w) []
              Hfree eq_refl Hsize)
    as [-> | [-> | (next & ents & -> & Hents & Hne)]];
    [left; reflexivity | right; left; reflexivity |].
  cbn [bind].
  destruct (ParseParameters_total fuel uri next Hfuel) as (ps & ->).
  cbn [bind]. destruct ps as [ps|]; [|right; left; reflexivity].
  unfold SetEntity, SetWorld, SetParameters. cbn [entity world parameters].
  rewrite (UriNestedEntity_assign_valid ents _ Hents). cbn [bind].
  right. right. eexists. split; [reflexivity|].
  cbn [entity world]. split; [exact Hne|]. split; [exact Hents|].
  assert (Hwb : free_of (lit " "%string) w = true).
  { rewrite Huri, !free_of_app in Hfree.
    apply andb_true_iff in Hfree. destruct Hfree as [_ Hfree].
    apply andb_true_iff in Hfree. apply Hfree. }
  change (lit " /"%string) with (" " :: lit "/"%string).
  rewrite free_of_cons. change [" "] with (lit " "%string).
  rewrite Hwb, Hw. reflexivity.
Qed.

(** Witness of [Parse_failure_modes]: the text with a question mark in
    its first type, which has 29 characters. *)
Lemma Parse_failure_modes_witness :
  size UriScenario.marked_text <= 29 /\
  (Parse 29 UriScenario.marked_text UriParts_new
     = Throw IdentifierHasQuestionMark \/
   Parse 29 UriScenario.marked_text UriParts_new = Ok (false, UriParts_new) \/
   exists p,
     Parse 29 UriScenario.marked_text UriParts_new = Ok (true, p) /\
     entity p <> [] /\
     forallb valid_entity (entity p) = true /\
     free_of (lit " /"%string) (world p) = true).
Proof.
  split; [exact (le_n 29)|].
  exact (Parse_failure_modes 29 UriScenario.marked_text UriParts_new
           (le_n 29)).
Defined.

Lemma last_app_nonempty (a b : str) (d d' : ascii) :
  b <> [] -> last (a ++ b) d = last b d'.
Proof.
  intros Hb. induction a as [|x a IH]; cbn [app].
  - clear - Hb. induction b as [|y [|z b] IH]; [congruence | reflexivity|].
    apply IH. discriminate.
  - rewrite <- IH. destruct (a ++ b) eqn:E; [|reflexivity].
    apply app_eq_nil in E. destruct E as [_ E]. congruence.
Qed.

(** X24.  A question mark in the type of the first entity makes [Parse]
    throw instead of returning [false]: for a text
    [/world/<world>/<type>/<rest>] without blanks, where the world name and
    the type have no [/] and the type has a [?], [Parse] throws the
    question-mark exception of [Validate], and so does [Uri(text)] when
    [<rest>] is not empty and does not end in [/]. *)
Theorem question_mark_in_type_throws (w t rest : str) (_parts : UriParts)
    (fuel : nat) :
  free_of (lit " /"%string) w = true ->
  free_of (lit " /"%string) t = true ->
  free_of (lit " "%string) rest = true ->
  free_of (lit "?"%string) t = false ->
  1 <= fuel ->
  Parse fuel (lit "/world/"%string ++ w ++ "/" :: t ++ "/" :: rest) _parts
    = Throw IdentifierHasQuestionMark /\
  (last rest "/" <> "/" ->
   Uri_of_string fuel (lit "/world/"%string ++ w ++ "/" :: t ++ "/" :: rest)
     = Throw IdentifierHasQuestionMark).
Proof.
  intros Hw Ht Hrest Hq Hfuel.
  set (uri := lit "/world/"%string ++ w ++ "/" :: t ++ "/" :: rest).
  assert (Hparse : forall parts0,
            Parse fuel uri parts0 = Throw IdentifierHasQuestionMark).
  { intros parts0.
    assert (Hwb := free_of_sub (lit " /"%string) (lit " "%string) _
                     eq_refl Hw).
    assert (Htb := free_of_sub (lit " /"%string) (lit " "%string) _
                     eq_refl Ht).
    assert (Hworld : ParseWorld uri = Ok (Some (w, 7 + List.length w))).
    { apply (proj2 (ParseWorld_spec uri) w (7 + List.length w)).
      split; [|split; [|split]].
      - subst uri.
        change ("/" :: t ++ "/" :: rest) with (["/"] ++ t ++ ["/"] ++ rest).
        rewrite !free_of_app, Hwb, Htb, Hrest. reflexivity.
      - apply (free_of_sub (lit " /"%string) (lit "/"%string) _ eq_refl Hw).
      - reflexivity.
      - eexists. reflexivity. }
    unfold Parse. rewrite Hworld. cbn [bind].
    destruct fuel as [|fuel]; [lia|].
    unfold ParseEntity. cbn [ParseEntity_loop]. unfold ParseOneEntity.
    unfold find_char.
    rewrite (find_at _ uri (lit "/world/"%string ++ w ++ ["/"])
               (t ++ "/" :: rest) (7 + List.length w + 1));
      [|subst uri; solve_split
       |rewrite !length_app;
        change (List.length (lit "/world/"%string)) with 7; cbn; lia].
    rewrite (find_if_app_hit _ t rest "/");
      [|apply (free_of_char_pred "/" (lit " /"%string));
          [reflexivity | exact Ht]
       |reflexivity].
    cbn [option_map].
    rewrite (substr_at uri (lit "/world/"%string ++ w ++ ["/"])
               (t ++ "/" :: rest) (7 + List.length w + 1));
      [|subst uri; solve_split
       |rewrite !length_app;
        change (List.length (lit "/world/"%string)) with 7; cbn; lia].
    replace (7 + List.length w + 1 + List.length t - (7 + List.length w) - 1)
      with (List.length t) by lia.
    rewrite firstn_app_exact. cbn [bind]. unfold SetType.
    rewrite Validate_spec, Htb, Hq. reflexivity. }
  split; [apply Hparse|].
  intros Hlast. rewrite Uri_of_string_keep.
  - rewrite Hparse. reflexivity.
  - subst uri. discriminate.
  - subst uri. intros E. apply Hlast. rewrite <- E.
    replace (lit "/world/"%string ++ w ++ "/" :: t ++ "/" :: rest)
      with ((lit "/world/"%string ++ w ++ "/" :: t ++ ["/"]) ++ rest)
      by solve_split.
    symmetry. apply last_app_nonempty. intros ->. apply Hlast. reflexivity.
Qed.

(** Witness of [question_mark_in_type_throws]: the type [mo?del]. *)
Lemma question_mark_in_type_throws_witness :
  free_of (lit "?"%string) (lit "mo?del"%string) = false /\
  Parse 1 UriScenario.marked_text UriParts_new
    = Throw IdentifierHasQuestionMark.
Proof.
  split; [reflexivity|].
  exact (proj1 (question_mark_in_type_throws (lit "default"%string)
                  (lit "mo?del"%string) (lit "model_1"%string)
                  UriParts_new 1 eq_refl eq_refl eq_refl eq_refl (le_n 1))).
Defined.

(** ** The invariant of a constructed URI *)

Lemma ParseEntity_loop_valid (fuel : nat) :
  forall (uri : str) (from next : nat) (acc ents : UriNestedEntity),
  free_of (lit " "%string) uri = true ->
  forallb valid_entity acc = true ->
  ParseEntity_loop fuel uri from acc = Ok (Some (next, ents)) ->
  forallb valid_entity ents = true.
Proof.
  induction fuel as [|fuel IH]; intros uri from next acc ents Hfree Hacc H;
    [discriminate|].
  cbn [ParseEntity_loop] in H.
  destruct (ParseOneEntity_modes uri from Hfree)
    as [E | [E | (e & n & E & He & _)]]; rewrite E in H; cbn [bind] in H;
    try discriminate.
  unfold AddEntity in H. rewrite (UriEntity_copy_valid e He) in H.
  cbn [bind] in H.
  assert (Hacc' : forallb valid_entity (acc ++ [e]) = true).
  { rewrite forallb_app, Hacc. cbn. rewrite He. reflexivity. }
  destruct (size uri <=? n); cbn [bind] in H.
  { injection H as _ <-. exact Hacc'. }
  destruct (at_ uri n) as [c| | |]; cbn [bind] in H; try discriminate.
  destruct (Ascii.eqb c "?").
  { injection H as _ <-. exact Hacc'. }
  destruct (Ascii.eqb c "/" && (size uri <=? n + 1)).
  { injection H as _ <-. exact Hacc'. }
  exact (IH uri n next _ ents Hfree Hacc' H).
Qed.

Lemma Parse_true_valid (fuel : nat) (uri : str) (_parts p : UriParts) :
  Parse fuel uri _parts = Ok (true, p) ->
  forallb valid_entity (entity p) = true.
Proof.
  unfold Parse. intros H.
  destruct (ParseWorld_spec uri) as ((r & Hr) & Hspec). rewrite Hr in H.
  cbn [bind] in H. destruct r as [[w next]|]; [|discriminate].
  destruct (proj1 (Hspec w next) Hr) as (Hfree & _).
  unfold ParseEntity, Clear in H.
  destruct (ParseEntity_loop fuel uri next []) as [[[n ents]|]| | |] eqn:He;
    cbn [bind] in H; try discriminate.
  assert (Hents := ParseEntity_loop_valid fuel uri next n [] ents
                     Hfree eq_refl He).
  destruct (ParseParameters fuel uri n) as [[ps|]| | |];
    cbn [bind] in H; try discriminate.
  unfold SetEntity, SetWorld, SetParameters in H.
  cbn [entity world parameters] in H.
  rewrite (UriNestedEntity_assign_valid ents _ Hents) in H. cbn [bind] in H.
  injection H as <-. exact Hents.
Qed.

Lemma constructed_from_text (fuel : nat) (s : str) (x : Exception)
    (u : Uri) :
  (r <- Parse fuel s UriParts_new ;;
   if fst r
   then Ok {| parts := snd r; canonicalUri := s; correct := true |}
   else Throw x) = Ok u ->
  correct u = true /\
  Parse fuel (canonicalUri u) UriParts_new = Ok (true, parts u) /\
  forallb valid_entity (entity (parts u)) = true.
Proof.
  intros H.
  destruct (Parse fuel s UriParts_new) as [[b p]| | |] eqn:Hp;
    cbn [bind fst snd] in H; try discriminate.
  destruct b; [|discriminate]. injection H as <-.
  cbn [correct canonicalUri parts].
  split; [reflexivity|]. split; [exact Hp|].
  exact (Parse_true_valid fuel s _ p Hp).
Qed.

Lemma Uri_of_string_constructed (fuel : nat) (s : str) (u : Uri) :
  Uri_of_string fuel s = Ok u ->
  correct u = true /\
  Parse fuel (canonicalUri u) UriParts_new = Ok (true, parts u) /\
  forallb valid_entity (entity (parts u)) = true.
Proof.
  unfold Uri_of_string. destruct s as [|c s]; [discriminate|].
  apply (constructed_from_text fuel _ UnableToParse).
Qed.

(** X25.  The invariant of a constructed URI.  Whichever constructor
    returned it (from a text, from parts, or the copy constructor), a URI
    is marked correct, its stored parts are what [Parse] gives on its stored
    text, [Split] returns those parts, and [CanonicalUri] returns the stored
    text followed by the text of the parameters it is given; neither of the
    two throws. *)
Theorem constructed_uri_invariant (fuel : nat) (u : Uri) :
  (exists s, Uri_of_string fuel s = Ok u) \/
  (exists p, Uri_of_parts fuel p = Ok u) \/
  (exists u0, Uri_copy fuel u0 = Ok u) ->
  correct u = true /\
  Parse fuel (canonicalUri u) UriParts_new = Ok (true, parts u) /\
  Split u = Ok (parts u) /\
  (forall ps, CanonicalUri ps u = Ok (canonicalUri u ++ parameters_text ps)).
Proof.
  intros H.
  assert (Hinv : correct u = true /\
                 Parse fuel (canonicalUri u) UriParts_new
                   = Ok (true, parts u) /\
                 forallb valid_entity (entity (parts u)) = true).
  { destruct H as [(s & H) | [(p & H) | (u0 & H)]].
    - exact (Uri_of_string_constructed fuel s u H).
    - unfold Uri_of_parts in H.
      destruct (UriNestedEntity_copy (entity p)) as [ne| | |];
        cbn [bind] in H; try discriminate.
      destruct (for_range _ _ _ _) as [c1| | |]; cbn [bind] in H;
        try discriminate.
      destruct (append_parameters (parameters p) c1) as [c2| | |];
        cbn [bind] in H; try discriminate.
      exact (constructed_from_text fuel c2 UnableToCreate u H).
    - unfold Uri_copy in H.
      destruct (CanonicalUri [] u0) as [s| | |]; cbn [bind] in H;
        try discriminate.
      exact (Uri_of_string_constructed fuel s u H). }
  destruct Hinv as (Hc & Hp & Hv).
  split; [exact Hc|]. split; [exact Hp|]. split.
  - unfold Split. rewrite Hc. cbn [negb].
    rewrite (UriParts_assign_valid (parts u) UriParts_new Hv). reflexivity.
  - intros ps. unfold CanonicalUri. rewrite Hc. cbn [negb].
    apply append_parameters_text.
Qed.

(** Witness of [constructed_uri_invariant]: the URI of the example text. *)
Lemma constructed_uri_invariant_witness :
  Uri_of_string 2 UriScenario.pose_text = Ok UriScenario.pose_uri /\
  Split UriScenario.pose_uri = Ok UriScenario.pose_parts.
Proof.
  split; [reflexivity|].
  exact (proj1 (proj2 (proj2
           (constructed_uri_invariant 2 UriScenario.pose_uri
              (or_introl (ex_intro _ UriScenario.pose_text eq_refl)))))).
Defined.

End UriFacts.
